(** * 2mqjs: ports, store path operations and the task scheduler

    A shallow embedding of three parts of the library and the properties
    its specification states about them:

    - [Store]  : the path utilities of [store.worker.ts]
                 ([splitPath], [getAtPath], [setAtPath], [deleteAtPath])
                 over a heap of JavaScript objects, so that object identity
                 ([===] on references) can be stated;
    - [Ports]  : the port bus of [ports.ts] ([emitPort], [onPort],
                 [oncePort], [getPortSnapshot]) and the coordinator's
                 handling of a worker message in [store.ts];
    - [Tasks]  : the scheduler of [tasks.ts] ([registerTask], [runTasks],
                 [resetTasks], [runSingle]) over an explicit promise table,
                 micro-task queue and timer queue.

    Scope of the JavaScript model.  Values are JSON data: numbers are
    integers and only their equality is used, a string is the sequence of
    its code units, each below 256.  A property read sees the own data
    properties of an object and the [length] of an array or string; the
    members that objects inherit from their prototypes are not part of the
    model, and neither are the numerals that are no array index.  The names
    concerned are listed in [Store.inherited_names]; the statements about
    paths and keys say where they leave them out. *)

From Stdlib Require Import Ascii String DecimalString DecimalN NArith ZArith.
From stdpp Require Import gmap strings list.

Set Warnings "-clear-no-such-hyp".


(* ===================================================================== *)
(** * Store: path utilities of the store worker                          *)
(* ===================================================================== *)

Module Store.

Local Open Scope string_scope.
Local Open Scope list_scope.

(** ** Values and the heap *)

Abbreviation loc := nat (only parsing).

(** A JavaScript value: a primitive, or a reference to a heap object. *)
Inductive value :=
  | VUndef
  | VNull
  | VBool (b : bool)
  | VNum (z : Z)
  | VStr (s : string)
  | VRef (l : loc).

(** A heap object: an array (its slots, [None] for a hole, and the named
    properties an assignment [arr["k"] = v] adds to it) or a plain object. *)
Inductive object :=
  | OArr (elems : list (option value)) (props : gmap string value)
  | OObj (fields : gmap string value).

(** The heap: the object at address [l] is the [l]-th cell; allocation
    appends, so a new object never reuses an address. *)
Abbreviation heap := (list object) (only parsing).

Definition alloc (h : heap) (o : object) : loc * heap := (length h, h ++ [o]).

Global Instance value_eq_dec : EqDecision value.
Proof. solve_decision. Defined.

(** ** Path segments *)

(** [typeof key === 'number'] for [KNum], a string otherwise. *)
Inductive key :=
  | KNum (n : N)
  | KStr (s : string).

Global Instance key_eq_dec : EqDecision key.
Proof. solve_decision. Defined.

(** [path.split('.')] *)
Fixpoint split_dot (s : string) : list string :=
  match s with
  | EmptyString => [EmptyString]
  | String a s' =>
      if Ascii.eqb a "."%char then EmptyString :: split_dot s'
      else match split_dot s' with
           | [] => [String a EmptyString]
           | p :: ps => String a p :: ps
           end
  end.

(** [parts.join('.')] on strings *)
Fixpoint join_dot (l : list string) : string :=
  match l with
  | [] => EmptyString
  | [p] => p
  | p :: ps => String.append p (String "."%char (join_dot ps))
  end.

(** [/^\d+$/.test(p) ? Number(p) : p] *)
Definition key_of_segment (p : string) : key :=
  match NilZero.uint_of_string p with
  | Some d => KNum (N.of_uint d)
  | None => KStr p
  end.

(** The property name a key denotes: [String(key)]. *)
Definition prop_name (k : key) : string :=
  match k with
  | KNum n => NilZero.string_of_uint (N.to_uint n)
  | KStr s => s
  end.

Definition splitPath (path : string) : list key :=
  map key_of_segment (split_dot path).

(** ** Names that prototypes define *)

(** The property names that [Object.prototype], [Array.prototype],
    [String.prototype], [Number.prototype] and [Boolean.prototype] define
    (ECMAScript 2024, Annex B included).  A read of such a name on a value
    that has no own property of the name finds the inherited member, and an
    assignment to ["__proto__"] runs the setter of [Object.prototype]; the
    model describes neither.  ["length"] is among them: it is an own
    property of every array and every string, which the model does read. *)
Definition inherited_names : list string :=
  [ "__proto__"; "__defineGetter__"; "__defineSetter__"; "__lookupGetter__";
    "__lookupSetter__"; "constructor"; "hasOwnProperty"; "isPrototypeOf";
    "propertyIsEnumerable"; "toLocaleString"; "toString"; "valueOf";
    "length"; "at"; "concat"; "copyWithin"; "entries"; "every"; "fill";
    "filter"; "find"; "findIndex"; "findLast"; "findLastIndex"; "flat";
    "flatMap"; "forEach"; "includes"; "indexOf"; "join"; "keys";
    "lastIndexOf"; "map"; "pop"; "push"; "reduce"; "reduceRight"; "reverse";
    "shift"; "slice"; "some"; "sort"; "splice"; "toReversed"; "toSorted";
    "toSpliced"; "unshift"; "values"; "with";
    "charAt"; "charCodeAt"; "codePointAt"; "endsWith"; "isWellFormed";
    "localeCompare"; "match"; "matchAll"; "normalize"; "padEnd"; "padStart";
    "repeat"; "replace"; "replaceAll"; "search"; "split"; "startsWith";
    "substring"; "toLocaleLowerCase"; "toLocaleUpperCase"; "toLowerCase";
    "toUpperCase"; "toWellFormed"; "trim"; "trimEnd"; "trimStart";
    "substr"; "anchor"; "big"; "blink"; "bold"; "fixed"; "fontcolor";
    "fontsize"; "italics"; "link"; "small"; "strike"; "sub"; "sup";
    "trimLeft"; "trimRight";
    "toExponential"; "toFixed"; "toPrecision" ].

(** ** Reading *)

(** [v == null] *)
Definition nullish (v : value) : bool :=
  match v with
  | VUndef | VNull => true
  | _ => false
  end.


(** [isObject(v)]: [v && typeof v === 'object' && !Array.isArray(v)] *)
Definition isObject (h : heap) (v : value) : bool :=
  match v with
  | VRef l => match h !! l with Some (OObj _) => true | _ => false end
  | _ => false
  end.

(** The one-character string at index [i] of [s], if any. *)
Definition char_at (s : string) (i : nat) : option string :=
  (fun c => String c EmptyString) <$> String.get i s.

(** [o[k]]: an own property of the object; the [length] of an array is the
    number of its slots. *)
Definition read_obj (o : object) (k : key) : value :=
  match o with
  | OArr es ps =>
      match k with
      | KNum n => default VUndef (mjoin (es !! N.to_nat n))
      | KStr s =>
          if decide (s = "length") then VNum (Z.of_nat (length es))
          else default VUndef (ps !! s)
      end
  | OObj fs => default VUndef (fs !! prop_name k)
  end.

(** [cur[k]] for a [cur] that is neither [null] nor [undefined]. *)
Definition get_prop (h : heap) (cur : value) (k : key) : value :=
  match cur with
  | VRef l => match h !! l with Some o => read_obj o k | None => VUndef end
  | VStr s =>
      match k with
      | KNum n => default VUndef (VStr <$> char_at s (N.to_nat n))
      | KStr k =>
          if decide (k = "length") then VNum (Z.of_nat (String.length s))
          else VUndef
      end
  | _ => VUndef
  end.

(** [cur?.[k]] *)
Definition opt_get (h : heap) (cur : value) (k : key) : value :=
  if nullish cur then VUndef else get_prop h cur k.

(** The loop of [getAtPath]. *)
Fixpoint get_parts (h : heap) (cur : value) (parts : list key) : value :=
  match parts with
  | [] => cur
  | k :: rest => if nullish cur then VUndef else get_parts h (get_prop h cur k) rest
  end.

Definition getAtPath (h : heap) (obj : value) (path : string) : value :=
  get_parts h obj (splitPath path).

(** ** Writing *)

(** [arr[n] = v]: in range the slot is replaced, past the end the array
    grows and the slots in between are holes. *)
Definition set_slot (es : list (option value)) (n : nat) (v : value)
  : list (option value) :=
  if decide (n < length es) then <[n := Some v]> es
  else es ++ replicate (n - length es) None ++ [Some v].

(** The length that [arr.length = v] sets, for the values whose conversion
    the model evaluates: [null] and [false] are [0], [true] is [1], a number
    from [0] to [2^32 - 1] is itself. *)
Definition array_length (v : value) : option nat :=
  match v with
  | VNull => Some 0
  | VBool b => Some (if b then 1 else 0)
  | VNum z => if decide (0 ≤ z < 4294967296)%Z then Some (Z.to_nat z) else None
  | _ => None
  end.

(** [arr.length = v]: the array is cut, or filled up with holes, to the new
    length.  For the other values (a string or an object, which are
    converted by rules the model does not describe, and [undefined] or a
    number out of range, where the assignment throws a RangeError) the model
    leaves the array as it is. *)
Definition set_length (es : list (option value)) (v : value) : list (option value) :=
  match array_length v with
  | Some n => resize n None es
  | None => es
  end.

(** [o[k] = v] on the object itself. *)
Definition write_obj (o : object) (k : key) (v : value) : object :=
  match o with
  | OArr es ps =>
      match k with
      | KNum n => OArr (set_slot es (N.to_nat n) v) ps
      | KStr s =>
          if decide (s = "length") then OArr (set_length es v) ps
          else OArr es (<[s := v]> ps)
      end
  | OObj fs => OObj (<[prop_name k := v]> fs)
  end.

(** [copy[k] = v] where [copy] is the object at address [l]. *)
Definition store (h : heap) (l : loc) (k : key) (v : value) : heap :=
  match h !! l with
  | Some o => <[l := write_obj o k v]> h
  | None => h
  end.

(** The literal [[]] when the key is a number, [{}] otherwise. *)
Definition empty_for (k : key) : object :=
  match k with
  | KNum _ => OArr [] ∅
  | KStr _ => OObj ∅
  end.

(** [Array.isArray(cur) ? cur.slice() : isObject(cur) ? {...cur}
      : typeof key === 'number' ? [] : {}] *)
Definition copy_for (h : heap) (cur : value) (k : key) : object :=
  match cur with
  | VRef l =>
      match h !! l with
      | Some (OArr es _) => OArr es ∅
      | Some (OObj fs) => OObj fs
      | None => empty_for k
      end
  | _ => empty_for k
  end.

(** [i === parts.length - 1 ? value
      : cur?.[key] ?? (typeof parts[i + 1] === 'number' ? [] : {})],
    where [rest] are the segments after [key]. *)
Definition next_for (h : heap) (cur : value) (k : key) (rest : list key) (v : value)
  : value * heap :=
  match rest with
  | [] => (v, h)
  | k' :: _ =>
      let c := opt_get h cur k in
      if nullish c then
        let '(l, h') := alloc h (empty_for k') in (VRef l, h')
      else (c, h)
  end.

(** The first loop of [setAtPath].  Each iteration builds the copy of the
    current node, stores [next] under the key and pushes [[copy, key]]; the
    result lists the pairs pushed, [stack[0]] first. *)
Fixpoint copy_down (h : heap) (cur : value) (parts : list key) (v : value)
  : heap * list (loc * key) :=
  match parts with
  | [] => (h, [])
  | k :: rest =>
      let '(next, h1) := next_for h cur k rest v in
      let '(copy, h2) := alloc h1 (copy_for h1 cur k) in
      let h3 := store h2 copy k next in
      let '(h4, stack) := copy_down h3 (opt_get h3 cur k) rest v in
      (h4, (copy, k) :: stack)
  end.

(** The second loop, [for (i = stack.length - 2; i >= 0; i--)
    parent[key] = child]: the links of the deeper pairs are made first, the
    link from [stack[0]] to [stack[1]] last. *)
Fixpoint link_up (h : heap) (stack : list (loc * key)) : heap :=
  match stack with
  | (parent, k) :: (((child, _) :: _) as rest) =>
      store (link_up h rest) parent k (VRef child)
  | _ => h
  end.

Definition set_parts (h : heap) (root : value) (parts : list key) (v : value)
  : value * heap :=
  let '(h1, stack) := copy_down h root parts v in
  let h2 := link_up h1 stack in
  match stack with
  | (c, _) :: _ => (VRef c, h2)
  | [] => (v, h2)
  end.

Definition setAtPath (h : heap) (root : value) (path : string) (v : value)
  : value * heap :=
  set_parts h root (splitPath path) v.

(** ** Deleting *)

(** [{...parent}] for a [parent] that is not an array. *)
Definition spread (h : heap) (parent : value) : object :=
  match parent with
  | VRef l =>
      match h !! l with
      | Some (OObj fs) => OObj fs
      | _ => OObj ∅
      end
  | VStr s =>
      OObj (list_to_map
              (imap (fun i c => (NilZero.string_of_uint (N.to_uint (N.of_nat i)),
                                 VStr (String c EmptyString)))
                    (list_ascii_of_string s)))
  | _ => OObj ∅
  end.

(** [Array.isArray(parent) ? parent.slice() : { ...parent }] *)
Definition shallow_copy (h : heap) (parent : value) : object :=
  match parent with
  | VRef l =>
      match h !! l with
      | Some (OArr es _) => OArr es ∅
      | _ => spread h parent
      end
  | _ => spread h parent
  end.

(** [if (Array.isArray(copy) && typeof last === 'number') copy.splice(last, 1);
     else delete copy[last]].  ([delete copy.length] on an array throws a
    TypeError in module code; the model leaves the array as it is.) *)
Definition remove_key (o : object) (last : key) : object :=
  match o, last with
  | OArr es ps, KNum n => OArr (delete (N.to_nat n) es) ps
  | OArr es ps, KStr s => OArr es (delete s ps)
  | OObj fs, k => OObj (delete (prop_name k) fs)
  end.

Definition deleteAtPath (h : heap) (root : value) (path : string) : value * heap :=
  let parts := splitPath path in
  match parts with
  | [] => (root, h)
  | _ =>
      let last := List.last parts (KStr EmptyString) in
      let parentPath := join_dot (map prop_name (removelast parts)) in
      let parent :=
        if decide (parentPath = EmptyString) then root
        else getAtPath h root parentPath in
      if nullish parent then (root, h)
      else
        let '(copy, h1) := alloc h (remove_key (shallow_copy h parent) last) in
        if decide (parentPath = EmptyString) then (VRef copy, h1)
        else setAtPath h1 root parentPath (VRef copy)
  end.

End Store.

(* ===================================================================== *)
(** * Ports: the publish/subscribe bus                                   *)
(* ===================================================================== *)

Module Ports.

Local Open Scope string_scope.
Local Open Scope list_scope.

Abbreviation PortName := string (only parsing).
Abbreviation payload := Store.value (only parsing).

(** A listener, compared by identity as the members of a JavaScript [Set]
    are: a callback of the application (numbered), or the [wrapper] closure
    that the [w]-th call of [oncePort] built around callback [cb]. *)
Inductive listener :=
  | Callback (c : nat)
  | OnceWrapper (w : nat) (cb : listener).

Global Instance listener_eq_dec : EqDecision listener.
Proof. solve_decision. Defined.

(** The function [onPort] returns: it deletes [cb] from the set of [port]. *)
Abbreviation unsubscribe := (string * listener)%type (only parsing).

Record state := {
  listeners : gmap PortName (list listener); (* a Set, in insertion order *)
  last : gmap PortName payload;
  workers : list nat;
  off_cell : gmap nat (option unsubscribe);  (* [let off] of each wrapper *)
  next_wrapper : nat;
  calls : list (nat * payload);              (* application callbacks run *)
  posted : list (nat * PortName * payload);  (* [w.postMessage] calls *)
}.

Definition empty : state :=
  {| listeners := ∅; last := ∅; workers := []; off_cell := ∅;
     next_wrapper := 0; calls := []; posted := [] |}.

Definition with_listeners (f : gmap PortName (list listener) -> gmap PortName (list listener))
    (st : state) : state :=
  {| listeners := f (listeners st); last := last st; workers := workers st;
     off_cell := off_cell st; next_wrapper := next_wrapper st;
     calls := calls st; posted := posted st |}.

Definition with_last (f : gmap PortName payload -> gmap PortName payload)
    (st : state) : state :=
  {| listeners := listeners st; last := f (last st); workers := workers st;
     off_cell := off_cell st; next_wrapper := next_wrapper st;
     calls := calls st; posted := posted st |}.

Definition with_off_cell (f : gmap nat (option unsubscribe) -> gmap nat (option unsubscribe))
    (st : state) : state :=
  {| listeners := listeners st; last := last st; workers := workers st;
     off_cell := f (off_cell st); next_wrapper := next_wrapper st;
     calls := calls st; posted := posted st |}.

Definition with_calls (f : list (nat * payload) -> list (nat * payload))
    (st : state) : state :=
  {| listeners := listeners st; last := last st; workers := workers st;
     off_cell := off_cell st; next_wrapper := next_wrapper st;
     calls := f (calls st); posted := posted st |}.

Definition with_posted (f : list (nat * PortName * payload) -> list (nat * PortName * payload))
    (st : state) : state :=
  {| listeners := listeners st; last := last st; workers := workers st;
     off_cell := off_cell st; next_wrapper := next_wrapper st;
     calls := calls st; posted := f (posted st) |}.

(** [set.add(cb)] *)
Definition set_add (cb : listener) (s : list listener) : list listener :=
  if decide (cb ∈ s) then s else s ++ [cb].

(** [set.delete(cb)] *)
Definition set_delete (cb : listener) (s : list listener) : list listener :=
  filter (fun x => x ≠ cb) s.

(** Calling the function returned by [onPort]:
    [listeners.get(port).delete(cb)]. *)
Definition call_off (u : unsubscribe) (st : state) : state :=
  with_listeners (fun m => match m !! u.1 with
                           | Some s => <[u.1 := set_delete u.2 s]> m
                           | None => m
                           end) st.

(** Calling a listener with [data].  An application callback is recorded in
    [calls]; the wrapper of [oncePort] runs [if (off) off(); cb(data)]. *)
Fixpoint invoke (l : listener) (data : payload) (st : state) : state :=
  match l with
  | Callback c => with_calls (fun cs => cs ++ [(c, data)]) st
  | OnceWrapper w cb =>
      let st1 :=
        match off_cell st !! w with
        | Some (Some off) => call_off off st
        | _ => st
        end in
      invoke cb data st1
  end.

(** [set.forEach(cb => cb(payload))]: the members are visited in insertion
    order, and a member deleted before its turn is not visited. *)
Fixpoint for_each (port : PortName) (todo : list listener) (data : payload)
    (st : state) : state :=
  match todo with
  | [] => st
  | l :: rest =>
      let live := default [] (listeners st !! port) in
      if decide (l ∈ live) then for_each port rest data (invoke l data st)
      else for_each port rest data st
  end.

Definition emitPort (port : PortName) (data : payload) (st : state) : state :=
  let st1 := with_last (fun m => <[port := data]> m) st in
  let st2 := for_each port (default [] (listeners st1 !! port)) data st1 in
  with_posted (fun ps => ps ++ map (fun w => (w, port, data)) (workers st2)) st2.

Definition onPort (port : PortName) (cb : listener) (replay : bool) (st : state)
  : unsubscribe * state :=
  let st1 :=
    with_listeners (fun m => match m !! port with
                             | Some _ => m
                             | None => <[port := []]> m
                             end) st in
  let st2 :=
    with_listeners (fun m => <[port := set_add cb (default [] (m !! port))]> m) st1 in
  let st3 :=
    match replay, last st2 !! port with
    | true, Some data => invoke cb data st2
    | _, _ => st2
    end in
  ((port, cb), st3).

Definition oncePort (port : PortName) (cb : listener) (st : state) : state :=
  let w := next_wrapper st in
  let st1 :=
    {| listeners := listeners st; last := last st; workers := workers st;
       off_cell := <[w := None]> (off_cell st); next_wrapper := S w;
       calls := calls st; posted := posted st |} in
  let '(off, st2) := onPort port (OnceWrapper w cb) true st1 in
  with_off_cell (fun m => <[w := Some off]> m) st2.

(** [last.get(port)], [undefined] when the port never emitted *)
Definition getPortSnapshot (port : PortName) (st : state) : payload :=
  default Store.VUndef (last st !! port).

Definition _attachWorker (w : nat) (st : state) : state :=
  {| listeners := listeners st; last := last st;
     workers := if decide (w ∈ workers st) then workers st else workers st ++ [w];
     off_cell := off_cell st; next_wrapper := next_wrapper st;
     calls := calls st; posted := posted st |}.

(** How often the application callback [c] has been invoked. *)
Definition times_called (c : nat) (st : state) : nat :=
  length (filter (fun x => x.1 = c) (calls st)).

End Ports.

(* ===================================================================== *)
(** * Coordinator: the main-thread side of a store                       *)
(* ===================================================================== *)

Module Coordinator.

Local Open Scope string_scope.
Local Open Scope list_scope.

(** [const portNameState = (name) => `2mqjs:store:${name}:state`] *)
Definition portNameState (name : string) : string :=
  String.append "2mqjs:store:" (String.append name ":state").

(** Messages from the worker. *)
Inductive WorkerOut :=
  | MsgReady
  | MsgState (s : Store.value)
  | MsgPersistLsSet (storageKey json : string)
  | MsgError (message : string).

Record state := {
  bus : Ports.state;
  ready : bool;                        (* [ready.resolve()] was called *)
  localStorage : gmap string string;
  console_errors : list string;
}.

(** The [message] listener that [defineGlobalStore] puts on its worker. *)
Definition on_worker_message (name : string) (msg : WorkerOut) (st : state) : state :=
  match msg with
  | MsgState s =>
      {| bus := Ports.emitPort (portNameState name) s (bus st); ready := ready st;
         localStorage := localStorage st; console_errors := console_errors st |}
  | MsgReady =>
      {| bus := bus st; ready := true;
         localStorage := localStorage st; console_errors := console_errors st |}
  | MsgPersistLsSet k json =>
      {| bus := bus st; ready := ready st;
         localStorage := <[k := json]> (localStorage st);
         console_errors := console_errors st |}
  | MsgError m =>
      {| bus := bus st; ready := ready st; localStorage := localStorage st;
         console_errors := console_errors st ++ [m] |}
  end.

End Coordinator.

(* ===================================================================== *)
(** * Tasks: the scheduler                                               *)
(* ===================================================================== *)

Module Tasks.

Local Open Scope string_scope.
Local Open Scope list_scope.

Abbreviation pid := nat (only parsing).
Abbreviation err := string (only parsing).

(** What one call of a task's [run] does: return (or return a promise that
    fulfils), throw synchronously, or return a promise that rejects. *)
Inductive run_result :=
  | Returns
  | Throws (e : err)
  | Rejects (e : err).

(** What awaiting a task's [when] condition yields: [true], [false], an
    exception, or nothing yet (the port, timer or event it waits for has
    not occurred). *)
Inductive when_result :=
  | WTrue
  | WFalse
  | WThrows (e : err)
  | WPending.

(** [interface Task].  [run k] is the behaviour of the invocation that
    follows [k] earlier invocations of the runs registered under this id;
    an absent or empty [deps] is [[]]; an absent [when] is [None]. *)
Record Task := {
  id : string;
  stage : option string;
  priority : option Z;
  deps : list string;
  when : option when_result;
  run : nat -> run_result;
  retry : option Z;
}.

(** The value an [await] resumes with. *)
Inductive resumed :=
  | RVoid
  | RBool (b : bool)
  | RThrow (e : err).

(** A suspended async frame: the code that follows an [await]. *)
Inductive cont :=
  | KReturn (res : pid)
      (* runSingle after [await existed] or [await inflight] *)
  | KAllItem (all : pid)
      (* the reaction [Promise.all] registers on each of its elements *)
  | KDeps (t : Task) (inflight : pid)
      (* the inner async function after [await Promise.all(deps...)] *)
  | KWhen (t : Task) (inflight : pid)
      (* ... after [await t.when()] or [await checkWhenCondition(...)] *)
  | KRun (t : Task) (attempts : Z) (inflight : pid)
      (* ... after [await t.run()] *)
  | KBackoff (t : Task) (attempts : Z) (inflight : pid)
      (* ... after [await new Promise(r => setTimeout(r, 1000))] *)
  | KFinally (res : pid).
      (* runTasks after [await Promise.all(list...)] *)

Inductive pstate :=
  | Pending (reactions : list cont)
  | Fulfilled
  | Rejected (e : err).

Inductive event :=
  | EvRun (id : string).

Global Instance event_eq_dec : EqDecision event.
Proof. solve_decision. Defined.

(** [shared] of tasks.ts, with the promise table and the queues of the
    event loop.  The cache only ever holds the keys [inflight:<id>]; the
    model keys it by [<id>]. *)
Record state := {
  tasks : list Task;             (* a Map keyed by [id], in insertion order *)
  done : gset string;
  cache : gmap string pid;
  running : bool;
  promises : list pstate;        (* the promise [p] is the [p]-th entry *)
  remaining : gmap pid nat;      (* elements a [Promise.all] still waits for *)
  microtasks : list (cont * resumed);
  timers : list cont;
  log : list event;
}.

Definition init : state :=
  {| tasks := []; done := ∅; cache := ∅; running := false; promises := [];
     remaining := ∅; microtasks := []; timers := []; log := [] |}.

Definition with_tasks (x : list Task) (st : state) : state :=
  {| tasks := x; done := done st; cache := cache st; running := running st;
     promises := promises st; remaining := remaining st;
     microtasks := microtasks st; timers := timers st; log := log st |}.
Definition with_done (x : gset string) (st : state) : state :=
  {| tasks := tasks st; done := x; cache := cache st; running := running st;
     promises := promises st; remaining := remaining st;
     microtasks := microtasks st; timers := timers st; log := log st |}.
Definition with_cache (x : gmap string pid) (st : state) : state :=
  {| tasks := tasks st; done := done st; cache := x; running := running st;
     promises := promises st; remaining := remaining st;
     microtasks := microtasks st; timers := timers st; log := log st |}.
Definition with_running (x : bool) (st : state) : state :=
  {| tasks := tasks st; done := done st; cache := cache st; running := x;
     promises := promises st; remaining := remaining st;
     microtasks := microtasks st; timers := timers st; log := log st |}.
Definition with_promises (x : list pstate) (st : state) : state :=
  {| tasks := tasks st; done := done st; cache := cache st; running := running st;
     promises := x; remaining := remaining st;
     microtasks := microtasks st; timers := timers st; log := log st |}.
Definition with_remaining (x : gmap pid nat) (st : state) : state :=
  {| tasks := tasks st; done := done st; cache := cache st; running := running st;
     promises := promises st; remaining := x;
     microtasks := microtasks st; timers := timers st; log := log st |}.
Definition with_microtasks (x : list (cont * resumed)) (st : state) : state :=
  {| tasks := tasks st; done := done st; cache := cache st; running := running st;
     promises := promises st; remaining := remaining st;
     microtasks := x; timers := timers st; log := log st |}.
Definition with_timers (x : list cont) (st : state) : state :=
  {| tasks := tasks st; done := done st; cache := cache st; running := running st;
     promises := promises st; remaining := remaining st;
     microtasks := microtasks st; timers := x; log := log st |}.
Definition with_log (x : list event) (st : state) : state :=
  {| tasks := tasks st; done := done st; cache := cache st; running := running st;
     promises := promises st; remaining := remaining st;
     microtasks := microtasks st; timers := timers st; log := x |}.

(** ** Promises *)

Definition new_promise (st : state) : pid * state :=
  (length (promises st), with_promises (promises st ++ [Pending []]) st).

Definition enqueue (k : cont) (r : resumed) (st : state) : state :=
  with_microtasks (microtasks st ++ [(k, r)]) st.

(** [resolve()] / [reject(e)] of a promise: the reactions are queued; on a
    promise that is already settled nothing happens. *)
Definition settle (p : pid) (r : resumed) (st : state) : state :=
  match promises st !! p with
  | Some (Pending ks) =>
      let s := match r with RThrow e => Rejected e | _ => Fulfilled end in
      with_microtasks (microtasks st ++ map (fun k => (k, r)) ks)
        (with_promises (<[p := s]> (promises st)) st)
  | _ => st
  end.

(** [await p], the rest of the frame being [k]. *)
Definition await (p : pid) (k : cont) (st : state) : state :=
  match promises st !! p with
  | Some (Pending ks) => with_promises (<[p := Pending (ks ++ [k])]> (promises st)) st
  | Some Fulfilled => enqueue k RVoid st
  | Some (Rejected e) => enqueue k (RThrow e) st
  | None => st
  end.

(** [Promise.all(ps)] *)
Definition promise_all (ps : list pid) (st : state) : pid * state :=
  let '(q, st1) := new_promise st in
  match ps with
  | [] => (q, settle q RVoid st1)
  | _ =>
      let st2 := with_remaining (<[q := length ps]> (remaining st1)) st1 in
      (q, foldl (fun s p => await p (KAllItem q) s) st2 ps)
  end.

(** ** The registry *)

(** [tasks.get(id)] *)
Definition lookup_task (i : string) (l : list Task) : option Task :=
  List.find (fun t => bool_decide (id t = i)) l.

(** [tasks.set(task.id, task)]: an existing key keeps its position. *)
Fixpoint map_set (t : Task) (l : list Task) : list Task :=
  match l with
  | [] => [t]
  | u :: l' => if decide (id u = id t) then t :: l' else u :: map_set t l'
  end.

Definition registerTask (t : Task) (st : state) : state :=
  with_tasks (map_set t (tasks st)) st.

(** [done.clear(); cache.clear()] *)
Definition resetTasks (st : state) : state :=
  with_cache ∅ (with_done ∅ st).

(** ** Running one task *)

Definition count_runs (i : string) (l : list event) : nat :=
  length (filter (fun e => e = EvRun i) l).

(** The [catch] block of the retry loop. *)
Definition on_failure (t : Task) (attempts : Z) (inflight : pid) (e : err)
    (st : state) : state :=
  if decide (0 < attempts)%Z then
    (* attempts--; await new Promise(r => setTimeout(r, 1000)); continue *)
    with_timers (timers st ++ [KBackoff t (attempts - 1) inflight]) st
  else
    (* rejectInflight(error); throw error; finally: cache.delete *)
    let st1 := settle inflight (RThrow e) st in
    with_cache (delete (id t) (cache st1)) st1.

(** One turn of [while (true) { try { await t.run(); ... ]: the call of
    [run] itself, up to the [await]. *)
Definition attempt (t : Task) (attempts : Z) (inflight : pid) (st : state) : state :=
  let n := count_runs (id t) (log st) in
  let st1 := with_log (log st ++ [EvRun (id t)]) st in
  match run t n with
  | Returns => enqueue (KRun t attempts inflight) RVoid st1
  | Rejects e => enqueue (KRun t attempts inflight) (RThrow e) st1
  | Throws e => on_failure t attempts inflight e st1
  end.

(** The inner async function from [if (t.when)] on. *)
Definition after_deps (t : Task) (inflight : pid) (st : state) : state :=
  match when t with
  | Some WTrue => enqueue (KWhen t inflight) (RBool true) st
  | Some WFalse => enqueue (KWhen t inflight) (RBool false) st
  | Some (WThrows e) => enqueue (KWhen t inflight) (RThrow e) st
  | Some WPending => st
  | None => attempt t (default 0%Z (retry t)) inflight st
  end.

(** [ids.map(id => runSingle(id))]: the calls are made in order, each on
    the state the previous one left. *)
Fixpoint run_each (call : string -> state -> option (pid * state))
    (ids : list string) (st : state) : option (list pid * state) :=
  match ids with
  | [] => Some ([], st)
  | i :: rest =>
      '(p, s1) ← call i st;
      '(ps, s2) ← run_each call rest s1;
      Some (p :: ps, s2)
  end.

(** The inner async function of [runSingle] up to its first [await];
    [call] is [runSingle] itself. *)
Definition start (call : string -> state -> option (pid * state))
    (i : string) (inflight : pid) (st : state) : option state :=
  match lookup_task i (tasks st) with
  | None =>
      let st1 := with_done (done st ∪ {[i]}) st in
      let st2 := settle inflight RVoid st1 in
      Some (with_cache (delete i (cache st2)) st2)
  | Some t =>
      match deps t with
      | [] => Some (after_deps t inflight st)
      | ds =>
          '(ps, st1) ← run_each call ds st;
          let '(q, st2) := promise_all ps st1 in
          Some (await q (KDeps t inflight) st2)
      end
  end.

(** [runSingle(id)] up to its first [await].  [fuel] bounds the nesting of
    the calls made through [deps]. *)
Fixpoint runSingle (fuel : nat) (i : string) (st : state) : option (pid * state) :=
  match fuel with
  | 0 => None
  | S fuel' =>
      let '(res, st0) := new_promise st in
      if decide (i ∈ done st0) then Some (res, settle res RVoid st0)
      else
        match cache st0 !! i with
        | Some existed => Some (res, await existed (KReturn res) st0)
        | None =>
            let '(inflight, st1) := new_promise st0 in
            let st2 := with_cache (<[i := inflight]> (cache st1)) st1 in
            st3 ← start (runSingle fuel') i inflight st2;
            Some (res, await inflight (KReturn res) st3)
        end
  end.

(** ** The event loop *)

(** Resuming a suspended frame. *)
Definition resume (k : cont) (r : resumed) (st : state) : state :=
  match k with
  | KReturn res => settle res r st
  | KAllItem q =>
      match r with
      | RThrow e => settle q (RThrow e) st
      | _ =>
          let n := default 0 (remaining st !! q) - 1 in
          let st1 := with_remaining (<[q := n]> (remaining st)) st in
          if decide (n = 0) then settle q RVoid st1 else st1
      end
  | KDeps t inflight =>
      match r with
      | RThrow e => with_cache (delete (id t) (cache st)) st
      | _ => after_deps t inflight st
      end
  | KWhen t inflight =>
      match r with
      | RThrow e => with_cache (delete (id t) (cache st)) st
      | RBool true => attempt t (default 0%Z (retry t)) inflight st
      | _ =>
          let st1 := settle inflight RVoid st in
          with_cache (delete (id t) (cache st1)) st1
      end
  | KRun t attempts inflight =>
      match r with
      | RThrow e => on_failure t attempts inflight e st
      | _ =>
          let st1 := with_done (done st ∪ {[id t]}) st in
          let st2 := settle inflight RVoid st1 in
          with_cache (delete (id t) (cache st2)) st2
      end
  | KBackoff t attempts inflight => attempt t attempts inflight st
  | KFinally res => settle res r (with_running false st)
  end.

(** One turn: the oldest micro-task, or, when there is none, the oldest
    timer (all timers have the same delay). *)
Definition step (st : state) : option state :=
  match microtasks st with
  | (k, r) :: rest => Some (resume k r (with_microtasks rest st))
  | [] =>
      match timers st with
      | k :: rest => Some (enqueue k RVoid (with_timers rest st))
      | [] => None
      end
  end.

Fixpoint drain (fuel : nat) (st : state) : state :=
  match fuel with
  | 0 => st
  | S fuel' => match step st with Some st' => drain fuel' st' | None => st end
  end.

Definition quiescent (st : state) : Prop := step st = None.

(** ** runTasks *)

Definition prio (t : Task) : Z := default 0%Z (priority t).

(** [list.sort((a, b) => (a.priority ?? 0) - (b.priority ?? 0))], stable *)
Fixpoint insert_sorted (t : Task) (l : list Task) : list Task :=
  match l with
  | [] => [t]
  | u :: l' => if decide (prio t <= prio u)%Z then t :: l else u :: insert_sorted t l'
  end.

Definition sort_by_priority (l : list Task) : list Task :=
  foldr insert_sorted [] l.

(** [t => (stage ? t.stage === stage : true)]; the empty string is falsy. *)
Definition in_stage (stg : option string) (t : Task) : bool :=
  match stg with
  | None | Some EmptyString => true
  | Some s => bool_decide (stage t = Some s)
  end.

(** [runTasks(stage)] up to its [await]; the result is the promise it
    returns.  The nesting of [runSingle] calls never exceeds the number of
    registered tasks plus one. *)
Definition runTasks (stg : option string) (st : state) : option (pid * state) :=
  let '(res, st0) := new_promise st in
  if running st0 then Some (res, settle res (RThrow "runTasks already in progress") st0)
  else
    let st1 := with_running true st0 in
    let list := sort_by_priority (List.filter (in_stage stg) (tasks st1)) in
    '(ps, st2) ← run_each (runSingle (S (length (tasks st1)))) (map id list) st1;
    let '(q, st3) := promise_all ps st2 in
    Some (res, await q (KFinally res) st3).

End Tasks.
(* ===================================================================== *)
(** * More of the library

    - [Workers]     : the worker registry of [workers.ts] ([registerWorker],
                      [sendToWorker], [terminateWorker]) and the proxy that
                      forwards a worker's port messages to the bus;
    - [StoreWorker] : the rest of [store.worker.ts]: [deepMerge], the cases
                      [op:add] and [op:remove], the message listener on the
                      messages [get] and [op:*], [persistSave], [pickKeys]
                      and [storageKeyFor];
    - [StoreMain]   : [deepMerge] of [store.ts]. *)
(* ===================================================================== *)

From Stdlib Require Import Sorted.

(* ===================================================================== *)
(** * Workers: the worker registry                                       *)
(* ===================================================================== *)

Module Workers.

Local Open Scope string_scope.
Local Open Scope list_scope.

(** The module state of [workers.ts] and what it did to the workers.  A
    [Worker] object is a number, as in [Ports]. *)
Record state := {
  bus : Ports.state;
  registry : gmap string nat;         (* [Map<name, Worker>] *)
  proxies : list nat;                 (* one entry per [message] listener added *)
  sent : list (nat * Store.value);    (* [w.postMessage(data)] calls of this module *)
  terminated : list nat;              (* [w.terminate()] calls *)
}.

Definition empty : state :=
  {| bus := Ports.empty; registry := ∅; proxies := []; sent := []; terminated := [] |}.

(** [registerWorker] from [w.addEventListener(...)] on: what a call does
    once it has its worker [w].  [initMessage] is [undefined] when the
    option is absent. *)
Definition registerWorker_resume (name : string) (w : nat) (initMessage : Store.value)
    (st : state) : state :=
  {| bus := Ports._attachWorker w (bus st);
     registry := <[name := w]> (registry st);
     proxies := proxies st ++ [w];
     sent := if decide (initMessage = Store.VUndef) then sent st
             else sent st ++ [(w, initMessage)];
     terminated := terminated st |}.

(** [registerWorker(opts)] for an [opts.src] that is a [Worker] already,
    the branch without [await]: the whole body runs at the call.  With a
    factory for [opts.src] the call looks the name up, awaits the factory
    and goes on with [registerWorker_resume] when the worker is there. *)
Definition registerWorker (name : string) (w : nat) (initMessage : Store.value)
    (st : state) : state :=
  match registry st !! name with
  | Some _ => st
  | None => registerWorker_resume name w initMessage st
  end.

(** [registry.get(name)?.postMessage(data)] *)
Definition sendToWorker (name : string) (data : Store.value) (st : state) : state :=
  match registry st !! name with
  | Some w =>
      {| bus := bus st; registry := registry st; proxies := proxies st;
         sent := sent st ++ [(w, data)]; terminated := terminated st |}
  | None => st
  end.

(** [const w = registry.get(name);
     if (w) { w.terminate(); registry.delete(name); }] *)
Definition terminateWorker (name : string) (st : state) : state :=
  match registry st !! name with
  | Some w =>
      {| bus := bus st; registry := delete name (registry st); proxies := proxies st;
         sent := sent st; terminated := terminated st ++ [w] |}
  | None => st
  end.

(** The listener [registerWorker] adds to the worker:
    [const { port, payload } = e.data ?? {};
     if (typeof port === 'string') emitPort(port, payload)]. *)
Definition proxy (h : list Store.object) (data : Store.value) (b : Ports.state)
  : Ports.state :=
  match Store.opt_get h data (Store.KStr "port") with
  | Store.VStr port => Ports.emitPort port (Store.opt_get h data (Store.KStr "payload")) b
  | _ => b
  end.

(** A [message] event of worker [w] with [e.data = data]: every listener
    added to [w] runs, in the order they were added. *)
Definition on_message (h : list Store.object) (w : nat) (data : Store.value)
    (st : state) : state :=
  {| bus := Nat.iter (length (filter (λ x, x = w) (proxies st))) (proxy h data) (bus st);
     registry := registry st; proxies := proxies st; sent := sent st;
     terminated := terminated st |}.

End Workers.

(* ===================================================================== *)
(** * StoreWorker: the operations of the store worker                     *)
(* ===================================================================== *)

Module StoreWorker.
Import Store.

Local Open Scope string_scope.
Local Open Scope list_scope.

(** ** [deepMerge] *)

(** [Object.keys(b)] for a plain object [b].  An object of the heap is a
    finite map and has no insertion order: the keys come in the order of the
    map, which decides the addresses of the objects a merge allocates and
    nothing else. *)
Definition own_keys (h : heap) (v : value) : list string :=
  match v with
  | VRef l => match h !! l with Some (OObj fs) => (map_to_list fs).*1 | _ => [] end
  | _ => []
  end.

(** [b ?? a] *)
Definition coalesce (b a : value) : value := if nullish b then a else b.

(** The loop [for (const k of Object.keys(b)) out[k] = <merge of a[k] and
    b[k]>], where [item] computes the right-hand side. *)
Fixpoint merge_keys (item : heap → value → value → option (value * heap))
    (a b : value) (out : loc) (ks : list string) (h : heap) : option heap :=
  match ks with
  | [] => Some h
  | k :: ks' =>
      '(m, h1) ← item h (get_prop h a (KStr k)) (get_prop h b (KStr k));
      merge_keys item a b out ks' (store h1 out (KStr k) m)
  end.

(** [deepMerge(a, b)] of the worker.  The recursion of the source ends on
    data without cycles; [fuel] bounds its depth and [None] is the overflow
    of the call stack. *)
Fixpoint deepMerge (fuel : nat) (h : heap) (a b : value) : option (value * heap) :=
  match fuel with
  | 0 => None
  | S fuel' =>
      if isObject h a && isObject h b then
        let '(out, h1) := alloc h (spread h a) in
        h2 ← merge_keys
               (λ hk av bv,
                  if isObject hk av && isObject hk bv then deepMerge fuel' hk av bv
                  else Some (bv, hk))
               a b out (own_keys h b) h1;
        Some (VRef out, h2)
      else Some (coalesce b a, h)
  end.

(** ** [op:add] and [op:remove] *)

(** The slots of an array. *)
Definition elems_of (h : heap) (v : value) : option (list (option value)) :=
  match v with
  | VRef l => match h !! l with Some (OArr es _) => Some es | _ => None end
  | _ => None
  end.

(** [[...arr]]: the slots of a spread array, a hole read as [undefined]. *)
Definition dense (es : list (option value)) : list (option value) :=
  (λ e, Some (default VUndef e)) <$> es.

(** [Array.isArray(arr) ? arr.some(x => x === item) ? arr : [...arr, item]
      : [item]].  [some] skips the holes of the array. *)
Definition add_item (h : heap) (arr item : value) : value * heap :=
  match elems_of h arr with
  | Some es =>
      if decide (Some item ∈ es) then (arr, h)
      else
        let '(l, h') := alloc h (OArr (dense es ++ [Some item]) ∅) in
        (VRef l, h')
  | None => let '(l, h') := alloc h (OArr [Some item] ∅) in (VRef l, h')
  end.

(** [Array.isArray(arr) ? arr.filter(x => !pred(x)) : arr] with
    [pred = x => x === item]; an item that arrives in a message is never a
    function.  [filter] skips the holes. *)
Definition remove_item (h : heap) (arr item : value) : value * heap :=
  match elems_of h arr with
  | Some es =>
      let '(l, h') := alloc h (OArr (Some <$> filter (λ x, x ≠ item) (omap id es)) ∅) in
      (VRef l, h')
  | None => (arr, h)
  end.

(** The [op:add] case of the message listener: the new [STATE]. *)
Definition op_add (h : heap) (STATE : value) (path : string) (item : value)
  : value * heap :=
  let arr := getAtPath h STATE path in
  let '(next, h1) := add_item h arr item in
  setAtPath h1 STATE path next.

(** The [op:remove] case. *)
Definition op_remove (h : heap) (STATE : value) (path : string) (item : value)
  : value * heap :=
  let arr := getAtPath h STATE path in
  let '(next, h1) := remove_item h arr item in
  setAtPath h1 STATE path next.

(** ** Persist *)

Inductive PersistBackend :=
  | Auto
  | IndexedDB
  | LocalStorage.

(** [NormalizedPersist]: [namespace], [version] and [keys] are [None] when
    absent; a version and a delay are natural numbers. *)
Record NormalizedPersist := {
  backend : PersistBackend;
  namespace : option string;
  version : option N;
  debounceMs : N;
  keys : option (list string);
}.

(** [String(n)] *)
Definition show (n : N) : string := NilZero.string_of_uint (N.to_uint n).

(** [storageKeyFor(p, name)]; the empty namespace and the version [0] are
    falsy. *)
Definition storageKeyFor (p : NormalizedPersist) (name : string) : string :=
  let ns := match namespace p with
            | Some s => if decide (s = "") then "" else (s ++ ":")%string
            | None => ""
            end in
  let v := match version p with
           | Some n => if decide (n = 0%N) then "" else (":v" ++ show n)%string
           | None => ""
           end in
  (ns ++ "2mqjs:" ++ name ++ v)%string.

(** The key that the property name [s] denotes: the index [n] when [s] is
    the decimal numeral of [n], the string otherwise. *)
Definition key_of_name (s : string) : key :=
  let k := key_of_segment s in
  if decide (prop_name k = s) then k else KStr s.

(** [path.split('.')[0]] *)
Definition top_of (path : string) : string := default "" (head (split_dot path)).

(** [pickKeys(obj, paths)]; reading a property of [null] or [undefined]
    throws ([None]). *)
Definition pickKeys (h : heap) (obj : value) (paths : list string)
  : option (value * heap) :=
  let '(out, h1) := alloc h (OObj ∅) in
  match paths with
  | [] => Some (VRef out, h1)
  | _ =>
      if nullish obj then None
      else Some (VRef out,
                 foldl (λ hk path,
                          store hk out (KStr (top_of path))
                                (get_prop hk obj (key_of_name (top_of path))))
                       h1 paths)
  end.

(** ** The message listener *)

(** The messages [get] and [op:*] of [In]; the values of a message are in
    the worker's heap when the listener runs. *)
Inductive In :=
  | MGet
  | MSet (path : string) (v : value)
  | MMerge (patch : value)
  | MAdd (path : string) (item : value)
  | MRemove (path : string) (item : value)
  | MDel (path : string).

(** The messages [state], [persist:ls:set] and [error] of [Out]. *)
Inductive Out :=
  | OState (s : value)
  | OPersistLsSet (storageKey json : string)
  | OError.

Global Instance Out_eq_dec : EqDecision Out.
Proof. solve_decision. Defined.

(** What the closure [run] of [persistSave] holds: [state], [p], [name]. *)
Abbreviation job := (value * NormalizedPersist * string)%type (only parsing).

(** The worker: its module variables, the heap its values live in, the
    messages it posted (oldest first), and the calls of [idbSave] it made,
    each with the key and the text to store. *)
Record worker := {
  NAME : string;
  STATE : value;
  PERSIST : option NormalizedPersist;     (* [None] for [false] *)
  mem : heap;
  posted : list Out;
  persistTimer : option job;              (* the timer that is pending *)
  idb_saves : list (string * string);
}.

Definition post (m : Out) (w : worker) : worker :=
  {| NAME := NAME w; STATE := STATE w; PERSIST := PERSIST w; mem := mem w;
     posted := posted w ++ [m]; persistTimer := persistTimer w;
     idb_saves := idb_saves w |}.

Definition with_mem (h : heap) (w : worker) : worker :=
  {| NAME := NAME w; STATE := STATE w; PERSIST := PERSIST w; mem := h;
     posted := posted w; persistTimer := persistTimer w; idb_saves := idb_saves w |}.

Definition with_timer (t : option job) (w : worker) : worker :=
  {| NAME := NAME w; STATE := STATE w; PERSIST := PERSIST w; mem := mem w;
     posted := posted w; persistTimer := t; idb_saves := idb_saves w |}.

Definition idbSave (key json : string) (w : worker) : worker :=
  {| NAME := NAME w; STATE := STATE w; PERSIST := PERSIST w; mem := mem w;
     posted := posted w; persistTimer := persistTimer w;
     idb_saves := idb_saves w ++ [(key, json)] |}.

(** [STATE = ...] with the heap the new state was built in. *)
Definition assign (r : value * heap) (w : worker) : worker :=
  {| NAME := NAME w; STATE := r.1; PERSIST := PERSIST w; mem := r.2;
     posted := posted w; persistTimer := persistTimer w; idb_saves := idb_saves w |}.

Section Listener.

(** [JSON.stringify], [None] when it throws. *)
Variable stringify : heap → value → option string.

(** The [async] closure [run]: an exception before the [try] rejects its
    promise, which nobody looks at. *)
Definition run (j : job) (w : worker) : worker :=
  let '(state, p, name) := j in
  let picked :=
    match keys p with
    | Some (k :: ks) => pickKeys (mem w) state (k :: ks)
    | _ => Some (state, mem w)
    end in
  match picked with
  | None => w
  | Some (toSave, h1) =>
      let fields : gmap string value :=
        match version p with
        | Some v =>
            if decide (v = 0%N) then {[ "data" := toSave ]}
            else {[ "__v" := VNum (Z.of_N v); "data" := toSave ]}
        | None => {[ "data" := toSave ]}
        end in
      let '(wrapper, h2) := alloc h1 (OObj fields) in
      match stringify h2 (VRef wrapper) with
      | None => with_mem h2 w
      | Some payload =>
          match backend p with
          | LocalStorage => post (OPersistLsSet (storageKeyFor p name) payload) (with_mem h2 w)
          | _ => idbSave (storageKeyFor p name) payload (with_mem h2 w)
          end
      end
  end.

(** [persistSave(state, p, name)]: with a delay, the pending timer is
    replaced by one for this call. *)
Definition persistSave (state : value) (p : NormalizedPersist) (name : string)
    (w : worker) : worker :=
  if decide (0 < debounceMs p)%N then with_timer (Some (state, p, name)) w
  else run (state, p, name) w.

Definition postState (w : worker) : worker :=
  let w1 := post (OState (STATE w)) w in
  match PERSIST w with
  | Some p => persistSave (STATE w) p (NAME w) w1
  | None => w1
  end.

(** The listener on the cases [get] and [op:*].  [deepMerge] that overflows
    the stack throws before [STATE] is assigned; the [catch] posts the
    error. *)
Definition on_message (fuel : nat) (msg : In) (w : worker) : worker :=
  match msg with
  | MGet => postState w
  | MSet path v => postState (assign (setAtPath (mem w) (STATE w) path v) w)
  | MMerge patch =>
      match deepMerge fuel (mem w) (STATE w) patch with
      | Some r => postState (assign r w)
      | None => post OError w
      end
  | MAdd path item => postState (assign (op_add (mem w) (STATE w) path item) w)
  | MRemove path item => postState (assign (op_remove (mem w) (STATE w) path item) w)
  | MDel path => postState (assign (deleteAtPath (mem w) (STATE w) path) w)
  end.

(** The pending timer of [persistSave] elapses. *)
Definition fire_timer (w : worker) : worker :=
  match persistTimer w with
  | Some j => run j (with_timer None w)
  | None => w
  end.

End Listener.

End StoreWorker.

(* ===================================================================== *)
(** * StoreMain: the merge of the store on the main thread                *)
(* ===================================================================== *)

Module StoreMain.
Import Store.

(** [deepMerge(a, b)] of [store.ts]: every key of [b] is merged, also when
    one side is not a plain object. *)
Fixpoint deepMerge (fuel : nat) (h : heap) (a b : value) : option (value * heap) :=
  match fuel with
  | 0 => None
  | S fuel' =>
      if negb (isObject h a) then Some (StoreWorker.coalesce b a, h)
      else if negb (isObject h b) then Some (StoreWorker.coalesce b a, h)
      else
        let '(out, h1) := alloc h (spread h a) in
        h2 ← StoreWorker.merge_keys (deepMerge fuel') a b out (StoreWorker.own_keys h b) h1;
        Some (VRef out, h2)
  end.

End StoreMain.

(* ===================================================================== *)
(** * Specification predicates                                           *)
(* ===================================================================== *)

Section StorePredicates.
Import Store.

(** A value is well formed in [h] when it does not point outside [h]. *)
Definition value_ok (h : list object) (v : value) : Prop :=
  match v with VRef l => l < length h | _ => True end.

Definition slot_ok (h : list object) (e : option value) : Prop :=
  match e with Some v => value_ok h v | None => True end.

Definition object_ok (h : list object) (o : object) : Prop :=
  match o with
  | OArr es ps => Forall (slot_ok h) es ∧ map_Forall (λ _, value_ok h) ps
  | OObj fs => map_Forall (λ _, value_ok h) fs
  end.

(** No object of the heap holds a dangling reference. *)
Definition heap_closed (h : list object) : Prop := Forall (object_ok h) h.

(** Arrays carry no named properties (as in any JSON tree). *)
Definition plain_object (o : object) : Prop :=
  match o with OArr _ ps => ps = ∅ | OObj _ => True end.

Definition plain_arrays (h : list object) : Prop := Forall plain_object h.

Global Instance value_ok_dec h v : Decision (value_ok h v).
Proof. destruct v; simpl; apply _. Defined.

Global Instance slot_ok_dec h e : Decision (slot_ok h e).
Proof. destruct e; simpl; apply _. Defined.

Global Instance object_ok_dec h o : Decision (object_ok h o).
Proof. destruct o; simpl; apply _. Defined.

Global Instance heap_closed_dec h : Decision (heap_closed h).
Proof. unfold heap_closed. apply _. Defined.

Global Instance plain_object_dec o : Decision (plain_object o).
Proof. destruct o; simpl; apply _. Defined.

Global Instance plain_arrays_dec h : Decision (plain_arrays h).
Proof. unfold plain_arrays. apply _. Defined.

(** A path segment inside the model: an array index, or a name that no
    prototype defines. *)
Definition data_key (k : key) : Prop :=
  match k with
  | KNum n => (n < 4294967295)%N
  | KStr s => s ∉ inherited_names
  end.

Global Instance data_key_dec k : Decision (data_key k).
Proof. destruct k; simpl; apply _. Defined.

(** A path all of whose segments are. *)
Definition data_path (path : string) : Prop := Forall data_key (splitPath path).

Global Instance data_path_dec path : Decision (data_path path).
Proof. unfold data_path. apply _. Defined.

Definition is_array (o : object) : bool :=
  match o with OArr _ _ => true | OObj _ => false end.

(** [spine h h' cur res parts v]: in [h'], [res] is the root of a chain of
    objects allocated after [h], one per segment of [parts]; each reads like
    the copy of the node of the old tree it replaces (the [length] of an
    array apart), except under its own key, which leads to the next link
    and finally to [v]. *)
Fixpoint spine (h h' : heap) (cur res : value) (parts : list key) (v : value) : Prop :=
  match parts with
  | [] => res = v
  | k :: rest =>
      ∃ c, res = VRef c ∧ length h ≤ c ∧ is_Some (h' !! c) ∧
           (∀ k', prop_name k' ≠ prop_name k →
                  (is_array (copy_for h cur k) = true → prop_name k' ≠ "length"%string) →
                  get_prop h' res k' = read_obj (copy_for h cur k) k') ∧
           spine h h' (opt_get h cur k) (get_prop h' res k) rest v
  end.



(** A segment without a dot. *)
Fixpoint no_dot (s : string) : Prop :=
  match s with
  | EmptyString => True
  | String a s' => a ≠ "."%char ∧ no_dot s'
  end.


End StorePredicates.

Section TasksPredicates.
Import Tasks.

(** A property of every suspended frame: [PT t p] for a frame of the inner
    async function of task [t] with in-flight promise [p], [PP r] for a
    frame that is to settle, or count for, the promise [r]. *)
Definition cont_all (PT : Task → nat → Prop) (PP : nat → Prop) (k : cont) : Prop :=
  match k with
  | KReturn r | KAllItem r | KFinally r => PP r
  | KDeps t p | KWhen t p | KRun t _ p | KBackoff t _ p => PT t p
  end.

Definition pstate_all (PT : Task → nat → Prop) (PP : nat → Prop) (s : pstate) : Prop :=
  match s with Pending ks => Forall (cont_all PT PP) ks | _ => True end.

(** ... in the timer queue and in the reactions of the pending promises,
    with [PJ] of every job of the micro-task queue. *)
Definition frames_all (PT : Task → nat → Prop) (PP : nat → Prop)
    (PJ : cont * resumed → Prop) (st : state) : Prop :=
  Forall PJ (microtasks st) ∧
  Forall (cont_all PT PP) (timers st) ∧
  Forall (pstate_all PT PP) (promises st).

Global Instance cont_all_dec PT PP
    `{∀ t p, Decision (PT t p)} `{∀ r, Decision (PP r)} k :
  Decision (cont_all PT PP k).
Proof. destruct k; simpl; apply _. Defined.

Global Instance pstate_all_dec PT PP
    `{∀ t p, Decision (PT t p)} `{∀ r, Decision (PP r)} s :
  Decision (pstate_all PT PP s).
Proof. destruct s; simpl; apply _. Defined.

Global Instance frames_all_dec PT PP PJ
    `{∀ t p, Decision (PT t p)} `{∀ r, Decision (PP r)} `{∀ j, Decision (PJ j)} st :
  Decision (frames_all PT PP PJ st).
Proof. unfold frames_all. apply _. Defined.

(** The frame [k] is not part of an execution of the task [i]. *)
Definition cont_quiet (i : string) : cont → Prop :=
  cont_all (λ t _, id t ≠ i) (λ _, True).

(** No execution of the task [i] is suspended anywhere in [st]. *)
Definition quiet_for (i : string) : state → Prop :=
  frames_all (λ t _, id t ≠ i) (λ _, True) (λ j, cont_quiet i j.1).

(** The frame [k] does not refer to the promise [p]. *)
Definition cont_unref (p : nat) : cont → Prop :=
  cont_all (λ _ q, q ≠ p) (λ r, r ≠ p).

(** No frame of [st] refers to the promise [p]. *)
Definition unreferenced (p : nat) : state → Prop :=
  frames_all (λ _ q, q ≠ p) (λ r, r ≠ p) (λ j, cont_unref p j.1).

Global Instance cont_quiet_dec i k : Decision (cont_quiet i k).
Proof. unfold cont_quiet. apply _. Defined.

Global Instance quiet_for_dec i st : Decision (quiet_for i st).
Proof. unfold quiet_for. apply _. Defined.

Global Instance cont_unref_dec p k : Decision (cont_unref p k).
Proof. unfold cont_unref. apply _. Defined.

Global Instance unreferenced_dec p st : Decision (unreferenced p st).
Proof. unfold unreferenced. apply _. Defined.

(** The promise [p] is pending with no reaction, and the only jobs that
    refer to it are jobs that fulfil it as the result of a [runSingle]
    call. *)
Definition returning (p : nat) (st : state) : Prop :=
  promises st !! p = Some (Pending []) ∧
  frames_all (λ _ q, q ≠ p) (λ r, r ≠ p)
    (λ j, cont_unref p j.1 ∨ j = (KReturn p, RVoid)) st.

(** The frames waiting on a promise. *)
Definition reactions (s : pstate) : list cont :=
  match s with Pending ks => ks | _ => [] end.

(** Every suspended frame of [st]: queued jobs, timers, reactions. *)
Definition all_frames (st : state) : list cont :=
  (microtasks st).*1 ++ timers st ++ concat (reactions <$> promises st).

(** The id of the task whose inner async function the frame belongs to. *)
Definition frame_id (k : cont) : option string :=
  match k with
  | KDeps t _ | KWhen t _ | KRun t _ _ | KBackoff t _ _ => Some (id t)
  | KReturn _ | KAllItem _ | KFinally _ => None
  end.

(** The ids of the executions that are suspended, with multiplicity. *)
Definition live_ids (st : state) : list string := omap frame_id (all_frames st).

(** At most one execution per id is suspended, and an id whose execution
    is suspended is in flight and not done. *)
Definition one_execution_each (st : state) : Prop :=
  NoDup (live_ids st) ∧
  ∀ i, i ∈ live_ids st → (i ∉ done st) ∧ is_Some (cache st !! i).

(** [runSingle(j)] has put [j] in flight and its inner function has not
    reached an [await] yet. *)
Definition starting (j : string) (st : state) : Prop :=
  (j ∉ live_ids st) ∧ (j ∉ done st) ∧ is_Some (cache st !! j).

Definition guarded (S : string → Prop) (st : state) : Prop :=
  one_execution_each st ∧ ∀ j, S j → starting j st.

(** [st'] has no execution suspended that [st] has not, and the same done
    set and cache. *)
Definition no_new_frames (st st' : state) : Prop :=
  live_ids st' ⊆+ live_ids st ∧ done st' = done st ∧ cache st' = cache st.

(** What the execution of [i], resumed in [st], may leave: it is suspended
    once more, or it is over, with [i] possibly done and out of the
    cache. *)
Definition exec_step (i : string) (st st' : state) : Prop :=
  (live_ids st' ⊆+ i :: live_ids st ∧ done st' = done st ∧ cache st' = cache st) ∨
  (live_ids st' ⊆+ live_ids st ∧ done st' ⊆ done st ∪ {[i]} ∧
   ∀ j, j ≠ i → cache st' !! j = cache st !! j).

(** Every frame of [st] holds promises below [L] only. *)
Definition bounded (L : nat) : state → Prop :=
  frames_all (λ _ q, q < L) (λ r, r < L)
    (λ j, cont_all (λ _ q, q < L) (λ r, r < L) j.1).

(** Every frame of [st] holds promises of the promise table only. *)
Definition allocated (st : state) : Prop := bounded (length (promises st)) st.

Definition grows (st st' : state) : Prop :=
  allocated st' ∧ length (promises st) ≤ length (promises st').


(** The states the module reaches from its initial state through
    [registerTask], [runTasks], [resetTasks] and turns of the event
    loop. *)
Inductive reachable : state → Prop :=
  | reach_init : reachable init
  | reach_registerTask t st : reachable st → reachable (registerTask t st)
  | reach_runTasks stg st p st' :
      reachable st → runTasks stg st = Some (p, st') → reachable st'
  | reach_step st st' : reachable st → step st = Some st' → reachable st'
  | reach_resetTasks st : reachable st → reachable (resetTasks st).

(** Those among them that are reached when [resetTasks] is called only
    while no execution is suspended. *)
Inductive orderly : state → Prop :=
  | orderly_init : orderly init
  | orderly_registerTask t st : orderly st → orderly (registerTask t st)
  | orderly_runTasks stg st p st' :
      orderly st → runTasks stg st = Some (p, st') → orderly st'
  | orderly_step st st' : orderly st → step st = Some st' → orderly st'
  | orderly_resetTasks st : orderly st → live_ids st = [] → orderly (resetTasks st).


(** The task [i] is done, no execution of it is suspended, and its [run] has
    been invoked [n] times so far. *)
Definition settled (i : string) (n : nat) (st : state) : Prop :=
  i ∈ done st ∧ quiet_for i st ∧ count_runs i (log st) = n.

(** The ids under which a task is registered. *)
Definition task_ids (st : state) : gset string := list_to_set (map id (tasks st)).

(** The registered tasks that are not in flight: a bound on the nesting of
    [runSingle] calls. *)
Definition idle_tasks (st : state) : nat := size (task_ids st ∖ dom (cache st)).

(** [st'] has the registry of [st] and at least its cache entries. *)
Definition extends (st st' : state) : Prop :=
  tasks st' = tasks st ∧ dom (cache st) ⊆ dom (cache st').

(** Since the count [c]: either [run] of [i] was invoked, or [i] is still
    neither done nor in flight. *)
Definition ran_or_runnable (i : string) (c : nat) (st : state) : Prop :=
  (c < count_runs i (log st)) ∨
  (count_runs i (log st) = c ∧ (i ∉ done st) ∧ (cache st !! i = None)).

(** [st] with one more promise, already settled as [x], at the end of the
    promise table. *)
Definition with_extra_promise (x : pstate) (st : state) : state :=
  with_promises (promises st ++ [x]) st.





(** Sample tasks. *)
Definition sample_task (i : string) (stg : option string) (ds : list string)
    (f : nat → run_result) (r : option Z) : Task :=
  {| id := i; stage := stg; priority := None; deps := ds; when := None;
     run := f; retry := r |}.

(** [B] (stage boot) fails at every attempt and may be retried once; [A]
    (stage ui) depends on it. *)
Definition task_B : Task :=
  sample_task "B" (Some "boot"%string) [] (λ _, Rejects "boom") (Some 1%Z).
Definition task_A : Task :=
  sample_task "A" (Some "ui"%string) ["B"%string] (λ _, Returns) None.


(** A task that succeeds. *)
Definition task_ok : Task := sample_task "ok" None [] (λ _, Returns) None.

(** The state a call leaves, [st] itself if the call gave none. *)
Definition state_after (r : option (nat * state)) (st : state) : state :=
  match r with Some (_, st') => st' | None => st end.

(** The scheduler right after [runTasks()] was called with [task_ok]
    registered: [run] has been invoked and its result is awaited. *)
Definition mid_batch : state :=
  state_after (runTasks None (registerTask task_ok init)) init.

(** The scheduler after a complete batch that ran [task_ok]. *)
Definition after_ok_batch : state :=
  drain 10 (state_after (runTasks None (registerTask task_ok init)) init).



End TasksPredicates.
(* ===================================================================== *)
(** * Specification predicates for the rest of the library               *)
(* ===================================================================== *)

Section PortsPredicates.
Import Store Ports.

(** The callbacks subscribed to [port], when no wrapper of [oncePort] is
    among its listeners. *)
Definition subscribers (port : string) (cs : list nat) (st : state) : Prop :=
  default [] (listeners st !! port) = Callback <$> cs.

(** The calls [c(v)] of the callbacks [cs], in their order. *)
Definition delivered (v : value) (cs : list nat) : list (nat * value) :=
  map (λ c, (c, v)) cs.

(** A bus on which the callbacks 1 and 2 listen to port [p]. *)
Definition sample_bus : Ports.state :=
  (onPort "p" (Callback 2) true (onPort "p" (Callback 1) true Ports.empty).2).2.

End PortsPredicates.

Section WorkersSamples.
Import Store Workers.

(** The registry after [registerWorker({ name: "w", src: worker 1 })]. *)
Definition one_worker : Workers.state :=
  registerWorker "w" 1 VUndef Workers.empty.

(** The message [{ port: "p", payload: 5 }]. *)
Definition message_heap : list object :=
  [OObj {[ "port"%string := VStr "p"; "payload"%string := VNum 5 ]}].

End WorkersSamples.

Section TasksOrderPredicates.
Import Tasks.

(** The tasks of [stg] in [st] can all be started at once: none has
    dependencies or a condition, none is done or in flight. *)
Definition startable (stg : option string) (st : state) : Prop :=
  ∀ t, t ∈ tasks st → in_stage stg t = true →
    deps t = [] ∧ when t = None ∧ (id t ∉ done st) ∧ cache st !! id t = None.

(** [order] lists the tasks of [l] by ascending priority, those of equal
    priority in the order they have in [l]. *)
Definition stable_by_priority (order l : list Task) : Prop :=
  order ≡ₚ l ∧ StronglySorted (λ x y, (prio x ≤ prio y)%Z) order ∧
  ∀ z, filter (λ t, prio t = z) order = filter (λ t, prio t = z) l.

(** A task that names itself as its dependency. *)
Definition task_self : Task := sample_task "self" None ["self"%string] (λ _, Returns) None.

(** Two tasks that depend on each other. *)
Definition task_ping : Task := sample_task "ping" None ["pong"%string] (λ _, Returns) None.
Definition task_pong : Task := sample_task "pong" None ["ping"%string] (λ _, Returns) None.

(** A task with a condition. *)
Definition task_when (w : when_result) : Task :=
  {| id := "cond"; stage := None; priority := None; deps := []; when := Some w;
     run := λ _, Returns; retry := None |}.

(** [late] has the higher priority number and is registered first; [main]
    depends on [base], which has the highest priority number of all. *)
Definition task_late : Task :=
  {| id := "late"; stage := None; priority := Some 5%Z; deps := []; when := None;
     run := λ _, Returns; retry := None |}.
Definition task_main : Task :=
  {| id := "main"; stage := None; priority := Some 1%Z; deps := ["base"%string];
     when := None; run := λ _, Returns; retry := None |}.
Definition task_base : Task :=
  {| id := "base"; stage := None; priority := Some 9%Z; deps := []; when := None;
     run := λ _, Returns; retry := None |}.

End TasksOrderPredicates.

Section MergePredicates.
Import Store StoreWorker.

(** [merged leaf n h h' a b r]: read in [h'], [r] is the merge of the values
    [a] and [b] of [h], at most [n] plain objects deep.  Two plain objects
    give an object allocated after [h] that has the keys of both; a key of
    [b] holds the merge of the two properties when both are plain objects
    and [leaf bv av] otherwise, any other key holds the property of [a].
    Anything else gives [b ?? a]. *)
Fixpoint merged (leaf : value → value → value) (n : nat) (h h' : heap)
    (a b r : value) : Prop :=
  match n with
  | 0 => False
  | S n' =>
      if isObject h a && isObject h b then
        (∃ l, r = VRef l ∧ length h ≤ l) ∧ isObject h' r = true ∧
        ∀ k,
          (k ∈ own_keys h' r ↔ k ∈ own_keys h a ∨ k ∈ own_keys h b) ∧
          let av := get_prop h a (KStr k) in
          let bv := get_prop h b (KStr k) in
          let rv := get_prop h' r (KStr k) in
          if decide (k ∈ own_keys h b) then
            if isObject h av && isObject h bv then merged leaf n' h h' av bv rv
            else rv = leaf bv av
          else rv = av
      else r = coalesce b a
  end.

(** Plain objects nest at most [n] deep under [v]: [v] is no plain object
    when [n] is [0], and each of its properties nests at most [n'] deep when
    [n] is [S n']. *)
Fixpoint shallow (n : nat) (h : heap) (v : value) : Prop :=
  match n with
  | 0 => isObject h v = false
  | S n' => Forall (λ k, shallow n' h (get_prop h v (KStr k))) (own_keys h v)
  end.

(** Where [deepMerge] takes a property of [b] as it is, the property is
    neither [null] nor [undefined], down to depth [n]. *)
Fixpoint no_nulls (n : nat) (h : heap) (a b : value) : Prop :=
  match n with
  | 0 => True
  | S n' =>
      isObject h a && isObject h b = true →
      Forall (λ k, let av := get_prop h a (KStr k) in
                   let bv := get_prop h b (KStr k) in
                   if isObject h av && isObject h bv then no_nulls n' h av bv
                   else nullish bv = false)
             (own_keys h b)
  end.

Global Instance shallow_dec n : ∀ h v, Decision (shallow n h v).
Proof. induction n; simpl; apply _. Defined.

Global Instance no_nulls_dec n : ∀ h a b, Decision (no_nulls n h a b).
Proof.
  induction n; simpl; [apply _ |]. intros h a b.
  apply impl_dec; [apply _ |]. apply Forall_dec. intros k. cbv zeta.
  destruct (isObject h _ && isObject h _); apply _.
Defined.

(** No plain object of the heap has an own key that a prototype defines as
    well: every key of a patch is then read and written as a data property
    of its own. *)
Definition data_object (o : object) : Prop :=
  match o with
  | OObj fs => Forall (λ k, k ∉ inherited_names) (map_to_list fs).*1
  | OArr _ _ => True
  end.

Definition data_heap (h : heap) : Prop := Forall data_object h.

Global Instance data_object_dec o : Decision (data_object o).
Proof. destruct o; simpl; apply _. Defined.

Global Instance data_heap_dec h : Decision (data_heap h).
Proof. unfold data_heap. apply _. Defined.

(** The values that an object holds in its slots and properties. *)
Definition held (o : object) : list value :=
  match o with
  | OArr es ps => omap id es ++ (map_to_list ps).*2
  | OObj fs => (map_to_list fs).*2
  end.

(** An item as a message brings it: a primitive value, or the root of a
    structured clone, which is an object that nothing in the heap refers
    to. *)
Definition arrives (h : heap) (item : value) : Prop :=
  match item with
  | VRef l => Forall (λ o, VRef l ∉ held o) h
  | _ => True
  end.

Global Instance arrives_dec h item : Decision (arrives h item).
Proof. destruct item; simpl; apply _. Defined.

(** The values of a message do not point outside [h]. *)
Definition msg_ok (h : heap) (msg : In) : Prop :=
  match msg with
  | MGet | MDel _ => True
  | MSet _ v | MMerge v | MAdd _ v | MRemove _ v => value_ok h v
  end.

Global Instance msg_ok_dec h msg : Decision (msg_ok h msg).
Proof. destruct msg; simpl; apply _. Defined.

(** A worker whose heap is closed and holds its state and the state that
    the pending timer is to save. *)
Definition worker_ok (w : worker) : Prop :=
  heap_closed (mem w) ∧ value_ok (mem w) (STATE w) ∧
  match persistTimer w with Some j => value_ok (mem w) j.1.1 | None => True end.

Global Instance worker_ok_dec w : Decision (worker_ok w).
Proof. unfold worker_ok. destruct (persistTimer w); apply _. Defined.

(** What happens to a worker: a message arrives, or the timer of
    [persistSave] elapses. *)
Inductive event :=
  | EMessage (msg : In)
  | ETimer.

Definition handle (stringify : heap → value → option string) (fuel : nat)
    (ev : event) (w : worker) : worker :=
  match ev with
  | EMessage msg => on_message stringify fuel msg w
  | ETimer => fire_timer stringify w
  end.

Definition event_ok (h : heap) (ev : event) : Prop :=
  match ev with EMessage msg => msg_ok h msg | ETimer => True end.

Global Instance event_ok_dec h ev : Decision (event_ok h ev).
Proof. destruct ev; simpl; apply _. Defined.

(** An answer of the listener: a state or an error. *)
Definition answer (o : Out) : Prop := o = OError ∨ ∃ s, o = OState s.

(** The keys [pickKeys] writes. *)
Definition tops (paths : list string) : list string := top_of <$> paths.

(** The [version] that reaches the key: none when absent or [0]. *)
Definition effective_version (p : NormalizedPersist) : option N :=
  match version p with
  | Some n => if decide (n = 0%N) then None else Some n
  | None => None
  end.

End MergePredicates.

(* ===================================================================== *)
(** * Store: facts                                                       *)
(* ===================================================================== *)

Section StoreFacts.
Import Store.

(** *** Well-formed heaps *)

Lemma heap_closed_lookup h l o : heap_closed h → h !! l = Some o → object_ok h o.
Proof. intros Hc E. by eapply (Forall_lookup_1 _ _ _ _ Hc). Qed.


Lemma object_ok_arr h es ps :
  object_ok h (OArr es ps) ↔
  (∀ i v, es !! i = Some (Some v) → value_ok h v) ∧
  (∀ s v, ps !! s = Some v → value_ok h v).
Proof.
  simpl. split; intros [He Hp]; (split; [| done]).
  - intros i v Hi. apply (Forall_lookup_1 _ _ _ _ He Hi).
  - apply Forall_lookup. intros i [v |] Hi; simpl; eauto.
Qed.


(** *** Reading and writing one object *)

Lemma set_slot_same es n v : mjoin (set_slot es n v !! n) = Some v.
Proof.
  unfold set_slot. case_decide.
  - by rewrite list_lookup_insert_eq.
  - rewrite lookup_app_r by lia. rewrite lookup_app_r by (rewrite length_replicate; lia).
    rewrite length_replicate. by replace (n - length es - (n - length es)) with 0 by lia.
Qed.

Lemma set_slot_other es n m v :
  n ≠ m → default VUndef (mjoin (set_slot es n v !! m)) = default VUndef (mjoin (es !! m)).
Proof.
  intros Hne. unfold set_slot. case_decide.
  - by rewrite list_lookup_insert_ne.
  - destruct (decide (m < length es)) as [Hlt | Hge].
    + by rewrite lookup_app_l.
    + rewrite (lookup_ge_None_2 es m) by lia.
      rewrite lookup_app_r by lia.
      destruct (decide (m - length es < n - length es)) as [Hin | Hout].
      * rewrite lookup_app_l by (rewrite length_replicate; lia).
        rewrite lookup_replicate_2 by lia. done.
      * rewrite lookup_app_r by (rewrite length_replicate; lia).
        rewrite length_replicate.
        rewrite lookup_ge_None_2; [done | simpl; lia].
Qed.

Lemma to_uint_nonnil n : N.to_uint n ≠ Decimal.Nil.
Proof. destruct n; [done | apply DecimalPos.Unsigned.to_uint_nonnil]. Qed.

Lemma prop_name_num_inj n m : prop_name (KNum n) = prop_name (KNum m) → n = m.
Proof.
  simpl. intros H. apply Unsigned.to_uint_inj.
  assert (Hnil : ∀ x, N.to_uint x ≠ Decimal.Nil).
  { intros [| p]; [done | apply DecimalPos.Unsigned.to_uint_nonnil]. }
  assert (Hs : ∀ x, NilZero.uint_of_string (NilZero.string_of_uint (N.to_uint x)) = Some (N.to_uint x)).
  { intros x. apply NilZero.usu, Hnil. }
  pose proof (Hs n) as Hn. rewrite H, Hs in Hn. congruence.
Qed.

Lemma length_inherited : "length"%string ∈ inherited_names.
Proof. apply (bool_decide_unpack _). vm_compute. exact I. Qed.

Lemma data_key_length k : data_key k → prop_name k ≠ "length"%string.
Proof.
  destruct k as [n | s]; simpl.
  - intros _ H. pose proof (NilZero.usu _ (to_uint_nonnil n)) as Hu.
    rewrite H in Hu. by vm_compute in Hu.
  - intros Hs ->. apply Hs, length_inherited.
Qed.

Lemma read_write_same o k v :
  prop_name k ≠ "length"%string → read_obj (write_obj o k v) k = v.
Proof.
  intros Hk. destruct o as [es ps | fs], k as [n | s]; simpl in *.
  - by rewrite set_slot_same.
  - rewrite !decide_False by done. simpl. rewrite decide_False by done.
    by rewrite lookup_insert_eq.
  - by rewrite lookup_insert_eq.
  - by rewrite lookup_insert_eq.
Qed.

Lemma is_array_write o k v : is_array (write_obj o k v) = is_array o.
Proof. destruct o as [es ps | fs], k as [n | s]; simpl; try done. by case_decide. Qed.

Lemma read_write_other o k k' v :
  prop_name k ≠ "length"%string →
  prop_name k' ≠ prop_name k →
  (is_array o = true → prop_name k' ≠ "length"%string) →
  read_obj (write_obj o k v) k' = read_obj o k'.
Proof.
  intros Hk Hne Hlen. destruct o as [es ps | fs].
  - specialize (Hlen eq_refl).
    destruct k as [n | s], k' as [n' | s']; simpl in *; try done.
    + apply set_slot_other. intros Heq. apply N2Nat.inj in Heq. by subst.
    + by rewrite !decide_False by done.
    + by rewrite !decide_False by done.
    + rewrite !decide_False by done. simpl. rewrite decide_False by done.
      rewrite lookup_insert_ne; [done | by intros ->].
  - cbn [read_obj write_obj]. rewrite lookup_insert_ne; [done | by intros Heq; rewrite Heq in Hne].
Qed.

(** *** Heaps that extend one another *)

Lemma value_ok_mono h h' v : length h ≤ length h' → value_ok h v → value_ok h' v.
Proof. destruct v; simpl; lia. Qed.

Lemma get_prop_prefix h h' cur k :
  h `prefix_of` h' → value_ok h cur → get_prop h' cur k = get_prop h cur k.
Proof.
  intros [ext ->] Hok. destruct cur; try done.
  unfold get_prop. by rewrite lookup_app_l.
Qed.

Lemma opt_get_prefix h h' cur k :
  h `prefix_of` h' → value_ok h cur → opt_get h' cur k = opt_get h cur k.
Proof. intros. unfold opt_get. by rewrite (get_prop_prefix h h'). Qed.

Lemma copy_for_prefix h h' cur k :
  h `prefix_of` h' → value_ok h cur → copy_for h' cur k = copy_for h cur k.
Proof.
  intros [ext ->] Hok. destruct cur; try done.
  unfold copy_for. by rewrite lookup_app_l.
Qed.

Lemma read_obj_ok h o k : object_ok h o → value_ok h (read_obj o k).
Proof.
  destruct o as [es ps | fs]; [rewrite object_ok_arr |]; destruct k as [n | s]; simpl.
  - intros [He _]. destruct (es !! N.to_nat n) as [[v |] |] eqn:E; simpl; try done. eauto.
  - intros [_ Hp]. case_decide; [done |]. destruct (ps !! s) eqn:E; simpl; eauto.
  - intros Hf. destruct (fs !! _) eqn:E; simpl; eauto.
  - intros Hf. destruct (fs !! s) eqn:E; simpl; eauto.
Qed.

Lemma get_prop_ok h cur k : heap_closed h → value_ok h (get_prop h cur k).
Proof.
  intros Hc. destruct cur; simpl; try done.
  - destruct k; simpl; [| by case_decide]. by destruct (char_at s (N.to_nat n)).
  - destruct (h !! l) eqn:E; [| done]. eapply read_obj_ok, heap_closed_lookup; [exact Hc | exact E].
Qed.

Lemma opt_get_ok h cur k : heap_closed h → value_ok h (opt_get h cur k).
Proof. intros Hc. unfold opt_get. destruct (nullish cur); [done | by apply get_prop_ok]. Qed.

Lemma store_length h l k v : length (store h l k v) = length h.
Proof. unfold store. destruct (h !! l); [apply length_insert | done]. Qed.

Lemma store_lookup_ne h l l' k v : l ≠ l' → store h l k v !! l' = h !! l'.
Proof. intros. unfold store. destruct (h !! l); [by apply list_lookup_insert_ne | done]. Qed.

Lemma store_lookup_eq h l k v o :
  h !! l = Some o → store h l k v !! l = Some (write_obj o k v).
Proof.
  intros E. unfold store. rewrite E. apply list_lookup_insert_eq. by eapply lookup_lt_Some.
Qed.

Lemma store_prefix h0 h l k v :
  h0 `prefix_of` h → length h0 ≤ l → h0 `prefix_of` store h l k v.
Proof.
  intros [ext ->] Hl. unfold store. destruct (_ !! l); [| by eexists].
  rewrite insert_app_r_alt by done. by eexists.
Qed.

(** *** The two loops of [setAtPath] *)

Lemma next_for_prefix h cur k rest v next ha :
  next_for h cur k rest v = (next, ha) → h `prefix_of` ha.
Proof.
  unfold next_for, alloc. destruct rest; [by intros [= _ <-] |].
  destruct (nullish _); intros [= _ <-]; [by eexists | done].
Qed.

Lemma copy_down_props parts : ∀ h cur v h1 stack,
  copy_down h cur parts v = (h1, stack) →
  h `prefix_of` h1 ∧ map snd stack = parts ∧
  Forall (λ ck : nat * key, length h ≤ ck.1 < length h1) stack.
Proof.
  induction parts as [| k rest IH]; intros h cur v h1 stack Hcd; cbn [copy_down] in Hcd.
  - injection Hcd as <- <-. by repeat split.
  - destruct (next_for h cur k rest v) as [next ha] eqn:Hnext.
    pose proof (next_for_prefix _ _ _ _ _ _ _ Hnext) as Hha.
    unfold alloc in Hcd.
    destruct (copy_down _ _ rest v) as [h4 st'] eqn:Hrec.
    injection Hcd as <- <-.
    apply IH in Hrec as (Hpre & Hkeys & Hlocs).
    rewrite store_length, length_app in Hlocs. simpl in Hlocs.
    assert (Hhb : ha `prefix_of` store (ha ++ [copy_for ha cur k]) (length ha) k next).
    { apply store_prefix; [by eexists | done]. }
    assert (Hall : h `prefix_of` h4) by (etrans; [exact Hha | etrans; [exact Hhb | exact Hpre]]).
    split; [done |]. split; [simpl; by f_equal |].
    apply prefix_length in Hha, Hpre.
    rewrite store_length, length_app in Hpre. simpl in Hpre.
    constructor; [simpl; lia |].
    eapply Forall_impl; [exact Hlocs |]. simpl. intros [c' k'] ?. simpl in *. lia.
Qed.

Lemma link_up_cons h c k c' k' rest :
  link_up h ((c, k) :: (c', k') :: rest) =
  store (link_up h ((c', k') :: rest)) c k (VRef c').
Proof. done. Qed.

Lemma link_up_length stack : ∀ h, length (link_up h stack) = length h.
Proof.
  induction stack as [| [c k] rest IH]; intros h; [done |].
  destruct rest as [| [c' k'] rest']; [done |].
  by rewrite link_up_cons, store_length, IH.
Qed.

Lemma link_up_frame stack : ∀ h l,
  Forall (λ ck : nat * key, ck.1 ≠ l) stack → link_up h stack !! l = h !! l.
Proof.
  induction stack as [| [c k] rest IH]; intros h l Hall; [done |].
  destruct rest as [| [c' k'] rest']; [done |].
  rewrite link_up_cons. inversion Hall as [| ? ? Hc Hrest]; subst. simpl in Hc.
  rewrite store_lookup_ne by done. by apply IH.
Qed.

Lemma link_up_prefix h0 stack : ∀ h,
  h0 `prefix_of` h → Forall (λ ck : nat * key, length h0 ≤ ck.1) stack →
  h0 `prefix_of` link_up h stack.
Proof.
  induction stack as [| [c k] rest IH]; intros h Hpre Hall; [done |].
  destruct rest as [| [c' k'] rest']; [done |].
  rewrite link_up_cons. inversion Hall as [| ? ? Hc Hrest]; subst. simpl in Hc.
  apply store_prefix; [by apply IH | done].
Qed.

Lemma set_loops_spine h0 :
  heap_closed h0 → ∀ parts h cur v h1 stack,
  h0 `prefix_of` h → value_ok h0 cur → parts ≠ [] → Forall data_key parts →
  copy_down h cur parts v = (h1, stack) →
  ∃ c k stack', stack = (c, k) :: stack' ∧ length h ≤ c ∧
    ∀ h'', (∀ l, length h ≤ l → h'' !! l = link_up h1 stack !! l) →
           spine h0 h'' cur (VRef c) parts v.
Proof.
  intros Hclosed. induction parts as [| k rest IH];
    intros h cur v h1 stack Hpre Hcur Hne Hdata Hcd; [done |].
  inversion Hdata as [| ? ? Hk%data_key_length Hdata']; subst.
  pose proof (copy_down_props _ _ _ _ _ _ Hcd) as (Hpre1 & Hkeys & Hlocs).
  cbn [copy_down] in Hcd.
  destruct (next_for h cur k rest v) as [next ha] eqn:Hnext.
  pose proof (next_for_prefix _ _ _ _ _ _ _ Hnext) as Hha.
  assert (Hpre_a : h0 `prefix_of` ha) by (by etrans).
  unfold alloc in Hcd.
  set (c := length ha) in *.
  set (hb := ha ++ [copy_for ha cur k]) in *.
  set (hc := store hb c k next) in *.
  destruct (copy_down hc (opt_get hc cur k) rest v) as [h4 st'] eqn:Hrec.
  injection Hcd as <- <-.
  assert (Hhb : hb !! c = Some (copy_for h0 cur k)).
  { unfold hb, c. rewrite lookup_app_r by lia. rewrite Nat.sub_diag. simpl.
    by rewrite (copy_for_prefix h0 ha). }
  assert (Hhc : hc !! c = Some (write_obj (copy_for h0 cur k) k next)).
  { unfold hc. by apply store_lookup_eq. }
  assert (Hpre_c : h0 `prefix_of` hc).
  { unfold hc. apply store_prefix; [| unfold c; by apply prefix_length].
    unfold hb. etrans; [exact Hpre_a | by eexists]. }
  assert (Hlen_c : length hc = S c).
  { unfold hc, hb. rewrite store_length, length_app. simpl. unfold c. lia. }
  assert (Hlen_h : length h ≤ c) by (unfold c; by apply prefix_length).
  exists c, k, st'. split; [done |]. split; [done |].
  intros h'' Hagree.
  pose proof (copy_down_props _ _ _ _ _ _ Hrec) as (Hpre4 & Hkeys4 & Hlocs4).
  assert (Hfresh : Forall (λ ck : nat * key, ck.1 ≠ c) st').
  { eapply Forall_impl; [exact Hlocs4 |]. simpl. intros ? ?. lia. }
  assert (Hcell4 : link_up h4 st' !! c = Some (write_obj (copy_for h0 cur k) k next)).
  { rewrite link_up_frame by done.
    destruct Hpre4 as [ext ->]. rewrite lookup_app_l by lia. done. }
  destruct rest as [| k' rest'].
  - (* the last segment *)
    simpl in Hrec. injection Hrec as <- <-. simpl in Hnext. injection Hnext as <- <-.
    simpl in Hagree.
    assert (Hc'' : h'' !! c = Some (write_obj (copy_for h0 cur k) k v)).
    { rewrite Hagree by done. exact Hhc. }
    simpl. exists c. split; [done |]. split; [pose proof (prefix_length _ _ Hpre); lia |].
    split; [by eexists |]. split.
    + intros k' Hk' Hlen. rewrite Hc''. by apply read_write_other.
    + rewrite Hc''. by apply read_write_same.
  - (* an inner segment *)
    assert (Hcur' : opt_get hc cur k = opt_get h0 cur k) by (by apply opt_get_prefix).
    rewrite Hcur' in Hrec.
    destruct (IH hc (opt_get h0 cur k) v h4 st' Hpre_c (opt_get_ok _ _ _ Hclosed)
                 ltac:(done) Hdata' Hrec)
      as (c' & k'' & st'' & -> & Hc' & Hspine).
    rewrite link_up_cons in Hagree.
    assert (Hc'' : h'' !! c =
              Some (write_obj (write_obj (copy_for h0 cur k) k next) k (VRef c'))).
    { rewrite Hagree by done. by apply store_lookup_eq. }
    cbn [spine]. exists c. split; [done |]. split; [pose proof (prefix_length _ _ Hpre); lia |].
    split; [by eexists |]. split.
    + intros k1 Hk1 Hlen. cbn [get_prop]. rewrite Hc''.
      rewrite read_write_other; [by apply read_write_other | done | done |].
      intros Harr. apply Hlen. by rewrite <- (is_array_write _ k next).
    + cbn [get_prop]. rewrite Hc'', read_write_same by done.
      apply Hspine. intros l Hl. rewrite Hagree by lia.
      apply store_lookup_ne. lia.
Qed.

Lemma get_spine h h' parts : ∀ cur res v,
  spine h h' cur res parts v → get_parts h' res parts = v.
Proof.
  induction parts as [| k rest IH]; intros cur res v Hs; simpl in *; [done |].
  destruct Hs as (c & -> & _ & _ & _ & Hrest). simpl. by eapply IH.
Qed.

Lemma set_parts_spec h root parts v :
  heap_closed h → value_ok h root → parts ≠ [] → Forall data_key parts →
  ∃ c h', set_parts h root parts v = (VRef c, h') ∧ h `prefix_of` h' ∧
          spine h h' root (VRef c) parts v.
Proof.
  intros Hclosed Hroot Hne Hdata. unfold set_parts.
  destruct (copy_down h root parts v) as [h1 stack] eqn:Hcd.
  pose proof (copy_down_props _ _ _ _ _ _ Hcd) as (Hpre & _ & Hlocs).
  destruct (set_loops_spine h Hclosed parts h root v h1 stack ltac:(done) Hroot Hne Hdata Hcd)
    as (c & k & st' & -> & Hc & Hspine).
  exists c, (link_up h1 ((c, k) :: st')). split; [done |]. split.
  - apply link_up_prefix; [done |]. eapply Forall_impl; [exact Hlocs |]. simpl. intros ? ?. lia.
  - by apply Hspine.
Qed.

Lemma split_dot_nonempty s : split_dot s ≠ [].
Proof.
  destruct s as [| a s]; simpl; [done |].
  destruct (Ascii.eqb a "."); [done |]. by destruct (split_dot s).
Qed.

Lemma splitPath_nonempty path : splitPath path ≠ [].
Proof.
  unfold splitPath. pose proof (split_dot_nonempty path). by destruct (split_dot path).
Qed.


(** *** Identity *)




(** *** Splitting and joining paths *)

Lemma split_dot_one q : no_dot q → split_dot q = [q].
Proof.
  induction q as [| a q IH]; [done |]. intros [Ha Hq]. simpl.
  destruct (Ascii.eqb_spec a "."); [done |]. by rewrite IH.
Qed.


Lemma split_dot_no_dot s : Forall no_dot (split_dot s).
Proof.
  induction s as [| a s IH]; simpl; [by repeat constructor |].
  destruct (Ascii.eqb_spec a "."); [by constructor |].
  inversion IH as [| p ps Hp Hps Heq]; [by repeat constructor |].
  constructor; [done | done].
Qed.




Lemma key_of_prop_name k : key_of_segment (prop_name (KNum k)) = KNum k.
Proof.
  unfold key_of_segment. simpl.
  rewrite NilZero.usu by apply to_uint_nonnil. by rewrite Unsigned.of_to.
Qed.





(** *** Deleting *)


Lemma get_parts_prefix h h' parts : ∀ cur,
  heap_closed h → h `prefix_of` h' → value_ok h cur →
  get_parts h' cur parts = get_parts h cur parts.
Proof.
  induction parts as [| k rest IH]; intros cur Hclosed Hpre Hok; simpl; [done |].
  destruct (nullish cur); [done |].
  rewrite (get_prop_prefix h h') by done. apply IH; [done | done |].
  by apply get_prop_ok.
Qed.

Lemma object_ok_mono h h' o : length h ≤ length h' → object_ok h o → object_ok h' o.
Proof.
  intros Hlen. destruct o as [es ps | fs]; [rewrite !object_ok_arr | simpl].
  - intros [He Hp]. split; intros; eapply value_ok_mono; eauto.
  - intros Hf ? ? ?. eapply value_ok_mono; [done |]. by eapply Hf.
Qed.

Lemma heap_closed_alloc h o : heap_closed h → object_ok h o → heap_closed (h ++ [o]).
Proof.
  intros Hclosed Ho. apply Forall_lookup. intros l o' Hl.
  assert (Hlen : length h ≤ length (h ++ [o])) by (rewrite length_app; lia).
  apply lookup_app_Some in Hl as [Hl | [_ Hl]].
  - eapply object_ok_mono; [exact Hlen | by eapply heap_closed_lookup].
  - destruct (l - length h); simpl in Hl; [| done].
    injection Hl as <-. by eapply object_ok_mono.
Qed.

Lemma spread_ok h parent : heap_closed h → object_ok h (spread h parent).
Proof.
  intros Hclosed. destruct parent as [| | | | s | l]; simpl; try (intros ? ?; by rewrite lookup_empty).
  - intros k v Hk. apply elem_of_list_to_map_2 in Hk.
    apply list_elem_of_lookup in Hk as [i Hi].
    rewrite list_lookup_imap in Hi.
    destruct (list_ascii_of_string s !! i); simpl in Hi; [| done].
    by injection Hi as _ <-.
  - destruct (h !! l) as [[es ps | fs] |] eqn:E; simpl; try (intros ? ?; by rewrite lookup_empty).
    apply (heap_closed_lookup _ _ _ Hclosed E).
Qed.

Lemma shallow_copy_ok h parent : heap_closed h → object_ok h (shallow_copy h parent).
Proof.
  intros Hclosed. unfold shallow_copy.
  destruct parent as [| | | | s | l]; try by apply spread_ok.
  destruct (h !! l) as [[es ps | fs] |] eqn:E; try by apply spread_ok.
  destruct (heap_closed_lookup _ _ _ Hclosed E) as [He _]. split; [done |].
  intros ? ?. by rewrite lookup_empty.
Qed.

Lemma remove_key_ok h o k : object_ok h o → object_ok h (remove_key o k).
Proof.
  destruct o as [es ps | fs], k as [n | s]; cbn [remove_key]; rewrite ?object_ok_arr.
  - intros [He Hp]. split; [| done]. intros i v Hi.
    rewrite list_lookup_delete in Hi. eauto.
  - intros [He Hp]. split; [done |]. intros s' v Hs.
    apply lookup_delete_Some in Hs as [_ Hs]. eauto.
  - intros Hf s v Hs. apply lookup_delete_Some in Hs as [_ Hs]. eauto.
  - intros Hf s' v Hs. apply lookup_delete_Some in Hs as [_ Hs]. eauto.
Qed.







(** The state [{a: [1, 2, 3]}]: the array at address 0, the root object at
    address 1. *)
Definition sample_heap : list object :=
  [OArr [Some (VNum 1); Some (VNum 2); Some (VNum 3)] ∅;
   OObj {[ "a"%string := VRef 0 ]}].







(** The same deletion when the last segment is a key of an object. *)
Example delete_object_key :
  getAtPath (deleteAtPath sample_heap (VRef 1) "a").2
            (deleteAtPath sample_heap (VRef 1) "a").1 "a" = VUndef.
Proof. by vm_compute. Qed.

(** A path [".x"]: the parent path is the empty string, which the code
    takes for "no parent", so the key is looked for in the root. *)
Example delete_empty_parent_segment :
  let h := [OObj {[ "x"%string := VNum 1 ]}; OObj {[ ""%string := VRef 0 ]}] in
  getAtPath (deleteAtPath h (VRef 1) ".x").2 (deleteAtPath h (VRef 1) ".x").1 ".x" = VNum 1.
Proof. by vm_compute. Qed.
End StoreFacts.

(* ===================================================================== *)
(** * Ports and coordinator: facts                                       *)
(* ===================================================================== *)

Section PortsFacts.
Import Ports.

Lemma invoke_last l data st : last (invoke l data st) = last st.
Proof.
  revert st. induction l as [c | w cb IH]; intros st; simpl; [done |].
  rewrite IH. by destruct (off_cell st !! w) as [[off |] |].
Qed.

Lemma for_each_last port todo data st :
  last (for_each port todo data st) = last st.
Proof.
  revert st. induction todo as [| l rest IH]; intros st; simpl; [done |].
  case_decide; rewrite IH; [apply invoke_last | done].
Qed.

Lemma emitPort_snapshot port data st :
  getPortSnapshot port (emitPort port data st) = data.
Proof.
  unfold getPortSnapshot, emitPort. simpl.
  rewrite for_each_last. simpl. by rewrite lookup_insert_eq.
Qed.

Lemma emitPort_snapshot_other port port' data st :
  port ≠ port' →
  getPortSnapshot port' (emitPort port data st) = getPortSnapshot port' st.
Proof.
  intros Hne. unfold getPortSnapshot, emitPort. simpl.
  rewrite for_each_last. simpl. by rewrite lookup_insert_ne.
Qed.

Ltac bus_eval :=
  repeat first
    [ progress simpl
    | rewrite lookup_insert_eq
    | rewrite lookup_empty
    | rewrite insert_insert_eq
    | progress unfold set_add, set_delete, call_off
    | rewrite decide_True by (by constructor)
    | rewrite decide_False by (by inversion 1)
    | rewrite (filter_cons_False _ _ _) by (simpl; congruence)
    | rewrite filter_nil ].

(** C5 fails when the port already has a last value.  The replay inside
    [onPort] runs the wrapper while [off] is still [null]: the callback is
    invoked and the wrapper stays subscribed, so the next [emitPort] invokes
    the callback a second time (and only then removes the wrapper). *)
Theorem C5_oncePort_replay_then_emit port c v1 v2 :
  let st := emitPort port v2 (oncePort port (Callback c) (emitPort port v1 empty)) in
  calls st = [(c, v1); (c, v2)] ∧ times_called c st = 2 ∧
  listeners st !! port = Some [].
Proof.
  unfold times_called, oncePort, emitPort, onPort. bus_eval.
  rewrite !filter_cons_True by done. bus_eval. done.
Qed.

(** Without a last value the subscription is one-shot, as documented. *)
Lemma oncePort_fresh_then_emits port c v1 v2 :
  let st := emitPort port v2 (emitPort port v1 (oncePort port (Callback c) empty)) in
  calls st = [(c, v1)].
Proof.
  unfold oncePort, emitPort, onPort. bus_eval. done.
Qed.
End PortsFacts.

Section CoordinatorFacts.
Import Coordinator.

(** C9, as amended.  A state message of the worker of store [name] is
    republished on the port [2mqjs:store:<name>:state], and the snapshot of
    that port is then the state received. *)
Theorem C9_state_republished name s st :
  Ports.getPortSnapshot (portNameState name) (bus (on_worker_message name (MsgState s) st)) = s
  ∧ portNameState name = String.append "2mqjs:store:" (String.append name ":state").
Proof. split; [apply emitPort_snapshot | done]. Qed.

(** C9 as stated names the port [store:<name>:state]; nothing is
    published there. *)
Lemma C9_counterexample :
  let st := {| bus := Ports.empty; ready := false; localStorage := ∅; console_errors := [] |} in
  Ports.getPortSnapshot "store:cart:state"
    (bus (on_worker_message "cart" (MsgState (Store.VNum 1)) st)) = Store.VUndef
  ∧ Store.VUndef ≠ Store.VNum 1.
Proof. split; [by vm_compute | done]. Qed.
End CoordinatorFacts.

(* ===================================================================== *)
(** * Tasks: facts                                                       *)
(* ===================================================================== *)

Section TasksFacts.
Import Tasks.

(** *** What each primitive leaves alone *)

Ltac frame :=
  intros;
  unfold promise_all, settle, await, enqueue, new_promise, on_failure;
  repeat case_match; simplify_eq; simpl; try done.

Lemma settle_tasks p r st : tasks (settle p r st) = tasks st. Proof. frame. Qed.
Lemma settle_done p r st : done (settle p r st) = done st. Proof. frame. Qed.
Lemma settle_cache p r st : cache (settle p r st) = cache st. Proof. frame. Qed.
Lemma settle_running p r st : running (settle p r st) = running st. Proof. frame. Qed.
Lemma settle_log p r st : log (settle p r st) = log st. Proof. frame. Qed.
Lemma settle_timers p r st : timers (settle p r st) = timers st. Proof. frame. Qed.
Lemma settle_length p r st : length (promises (settle p r st)) = length (promises st).
Proof. frame; by rewrite length_insert. Qed.

Lemma await_tasks p k st : tasks (await p k st) = tasks st. Proof. frame. Qed.
Lemma await_done p k st : done (await p k st) = done st. Proof. frame. Qed.
Lemma await_cache p k st : cache (await p k st) = cache st. Proof. frame. Qed.
Lemma await_running p k st : running (await p k st) = running st. Proof. frame. Qed.
Lemma await_log p k st : log (await p k st) = log st. Proof. frame. Qed.
Lemma await_timers p k st : timers (await p k st) = timers st. Proof. frame. Qed.
Lemma await_length p k st : length (promises (await p k st)) = length (promises st).
Proof. frame; by rewrite length_insert. Qed.

Lemma foldl_await_tasks k ps : ∀ st,
  tasks (foldl (λ s p, await p k s) st ps) = tasks st.
Proof. induction ps as [| p ps IH]; intros st; simpl; [done |]. by rewrite IH, await_tasks. Qed.
Lemma foldl_await_cache k ps : ∀ st,
  cache (foldl (λ s p, await p k s) st ps) = cache st.
Proof. induction ps as [| p ps IH]; intros st; simpl; [done |]. by rewrite IH, await_cache. Qed.
Lemma foldl_await_running k ps : ∀ st,
  running (foldl (λ s p, await p k s) st ps) = running st.
Proof. induction ps as [| p ps IH]; intros st; simpl; [done |]. by rewrite IH, await_running. Qed.
Lemma foldl_await_log k ps : ∀ st,
  log (foldl (λ s p, await p k s) st ps) = log st.
Proof. induction ps as [| p ps IH]; intros st; simpl; [done |]. by rewrite IH, await_log. Qed.

Lemma promise_all_tasks ps st : tasks (promise_all ps st).2 = tasks st.
Proof. unfold promise_all. simpl. destruct ps; simpl; [by rewrite settle_tasks |].
  by rewrite foldl_await_tasks, await_tasks. Qed.
Lemma promise_all_cache ps st : cache (promise_all ps st).2 = cache st.
Proof. unfold promise_all. simpl. destruct ps; simpl; [by rewrite settle_cache |].
  by rewrite foldl_await_cache, await_cache. Qed.
Lemma promise_all_running ps st : running (promise_all ps st).2 = running st.
Proof. unfold promise_all. simpl. destruct ps; simpl; [by rewrite settle_running |].
  by rewrite foldl_await_running, await_running. Qed.
Lemma promise_all_log ps st : log (promise_all ps st).2 = log st.
Proof. unfold promise_all. simpl. destruct ps; simpl; [by rewrite settle_log |].
  by rewrite foldl_await_log, await_log. Qed.

Lemma on_failure_tasks t a p e st : tasks (on_failure t a p e st) = tasks st.
Proof. unfold on_failure. case_decide; simpl; [done | apply settle_tasks]. Qed.
Lemma on_failure_done t a p e st : done (on_failure t a p e st) = done st.
Proof. unfold on_failure. case_decide; simpl; [done | apply settle_done]. Qed.
Lemma on_failure_running t a p e st : running (on_failure t a p e st) = running st.
Proof. unfold on_failure. case_decide; simpl; [done | apply settle_running]. Qed.
Lemma on_failure_log t a p e st : log (on_failure t a p e st) = log st.
Proof. unfold on_failure. case_decide; simpl; [done | apply settle_log]. Qed.

Lemma attempt_tasks t a p st : tasks (attempt t a p st) = tasks st.
Proof. unfold attempt. case_match; simpl; try done. by rewrite on_failure_tasks. Qed.
Lemma attempt_done t a p st : done (attempt t a p st) = done st.
Proof. unfold attempt. case_match; simpl; try done. by rewrite on_failure_done. Qed.
Lemma attempt_running t a p st : running (attempt t a p st) = running st.
Proof. unfold attempt. case_match; simpl; try done. by rewrite on_failure_running. Qed.
Lemma attempt_log t a p st : log (attempt t a p st) = log st ++ [EvRun (id t)].
Proof. unfold attempt. case_match; simpl; try done. by rewrite on_failure_log. Qed.

Lemma after_deps_tasks t p st : tasks (after_deps t p st) = tasks st.
Proof. unfold after_deps. repeat case_match; simpl; try done. apply attempt_tasks. Qed.
Lemma after_deps_done t p st : done (after_deps t p st) = done st.
Proof. unfold after_deps. repeat case_match; simpl; try done. apply attempt_done. Qed.
Lemma after_deps_running t p st : running (after_deps t p st) = running st.
Proof. unfold after_deps. repeat case_match; simpl; try done. apply attempt_running. Qed.

(** *** The registry *)

Lemma lookup_task_id i l t : lookup_task i l = Some t → id t = i.
Proof.
  unfold lookup_task. intros H. apply find_some in H as [_ H].
  by apply bool_decide_eq_true in H.
Qed.

Lemma lookup_task_In i l t : lookup_task i l = Some t → In t l.
Proof. unfold lookup_task. intros H. by apply find_some in H as [H _]. Qed.

Lemma lookup_new_promise (l : list pstate) x : (l ++ [x]) !! length l = Some x.
Proof. rewrite lookup_app_r by lia. by rewrite Nat.sub_diag. Qed.

Lemma insert_new_promise (l : list pstate) x y :
  <[length l := y]> (l ++ [x]) = l ++ [y].
Proof. rewrite insert_app_r_alt by lia. by rewrite Nat.sub_diag. Qed.

(** *** Calls that return at once *)

Lemma runTasks_while_running stg st :
  running st = true →
  runTasks stg st =
    Some (length (promises st),
          with_promises (promises st ++ [Rejected "runTasks already in progress"]) st).
Proof.
  intros Hrun. unfold runTasks, new_promise. simpl. rewrite Hrun.
  unfold settle. simpl. rewrite lookup_new_promise. simpl.
  rewrite insert_new_promise, app_nil_r.
  unfold with_microtasks, with_promises. simpl. done.
Qed.

Lemma runSingle_done fuel i st :
  i ∈ done st →
  runSingle (S fuel) i st =
    Some (length (promises st), with_promises (promises st ++ [Fulfilled]) st).
Proof.
  intros Hd. simpl. rewrite decide_True by done.
  unfold settle. simpl. rewrite lookup_new_promise. simpl.
  rewrite insert_new_promise, app_nil_r.
  unfold with_microtasks, with_promises. simpl. done.
Qed.

Lemma runSingle_unknown fuel i st :
  lookup_task i (tasks st) = None → i ∉ done st → cache st !! i = None →
  runSingle (S fuel) i st =
    Some (length (promises st),
          {| tasks := tasks st; done := done st ∪ {[i]}; cache := cache st;
             running := running st;
             promises := promises st ++ [Pending []; Fulfilled];
             remaining := remaining st;
             microtasks := microtasks st ++ [(KReturn (length (promises st)), RVoid)];
             timers := timers st; log := log st |}).
Proof.
  intros Hl Hd Hc. simpl. rewrite decide_False by done. rewrite Hc. unfold start. simpl. rewrite Hl. simpl.
  unfold settle. simpl.
  replace (S (length (promises st))) with (length (promises st ++ [Pending []])) at 1
    by (rewrite length_app; simpl; lia).
  rewrite lookup_new_promise. simpl.
  unfold await. simpl.
  replace (S (length (promises st))) with (length (promises st ++ [Pending []])) at 1
    by (rewrite length_app; simpl; lia).
  rewrite list_lookup_insert_eq by (rewrite !length_app; simpl; lia).
  unfold enqueue. simpl.
  replace (S (length (promises st))) with (length (promises st ++ [Pending []])) at 1
    by (rewrite length_app; simpl; lia).
  rewrite insert_new_promise, app_nil_r, <- app_assoc. simpl.
  rewrite delete_insert_eq. by rewrite delete_id.
Qed.

(** *** Counting invocations *)

Lemma count_runs_app i l1 l2 :
  count_runs i (l1 ++ l2) = count_runs i l1 + count_runs i l2.
Proof. unfold count_runs. by rewrite filter_app, length_app. Qed.

Lemma count_runs_other i j : j ≠ i → count_runs i [EvRun j] = 0.
Proof.
  intros Hne. unfold count_runs. rewrite filter_cons_False; [done |]. congruence.
Qed.

Lemma count_runs_same i : count_runs i [EvRun i] = 1.
Proof. unfold count_runs. by rewrite filter_cons_True. Qed.

(** *** A completed task stays untouched *)

Section Frames.
Context (PT : Task → nat → Prop) (PP : nat → Prop) (PJ : cont * resumed → Prop).
Hypothesis job_of_frame : ∀ k r, cont_all PT PP k → PJ (k, r).
Local Abbreviation frames := (frames_all PT PP PJ).

Lemma frames_new_promise st : frames st → frames (new_promise st).2.
Proof.
  intros (Hm & Ht & Hp). repeat split; simpl; try done.
  apply Forall_app. split; [done |]. by repeat constructor.
Qed.

Lemma frames_enqueue k r st :
  cont_all PT PP k → frames st → frames (enqueue k r st).
Proof.
  intros Hk (Hm & Ht & Hp). repeat split; simpl; try done.
  apply Forall_app. split; [done |]. repeat constructor. by apply job_of_frame.
Qed.

Lemma frames_settle p r st : frames st → frames (settle p r st).
Proof.
  intros (Hm & Ht & Hp). unfold settle.
  destruct (promises st !! p) as [[ks | | e] |] eqn:E; try done.
  pose proof (Forall_lookup_1 _ _ _ _ Hp E) as Hks. simpl in Hks.
  repeat split; simpl; try done.
  - apply Forall_app. split; [done |]. apply Forall_map.
    eapply Forall_impl; [exact Hks |]. intros k Hk. by apply job_of_frame.
  - apply Forall_insert; [done |]. by destruct r.
Qed.

Lemma frames_await p k st :
  cont_all PT PP k → frames st → frames (await p k st).
Proof.
  intros Hk Hq. unfold await.
  destruct (promises st !! p) as [[ks | | e] |] eqn:E; try done;
    try by apply frames_enqueue.
  destruct Hq as (Hm & Ht & Hp).
  pose proof (Forall_lookup_1 _ _ _ _ Hp E) as Hks. simpl in Hks.
  repeat split; simpl; try done.
  apply Forall_insert; [done |]. simpl. apply Forall_app. split; [done |].
  by repeat constructor.
Qed.

Lemma frames_foldl_await k ps : cont_all PT PP k → ∀ st,
  frames st → frames (foldl (λ s p, await p k s) st ps).
Proof.
  intros Hk. induction ps as [| p ps IH]; intros st Hq; simpl; [done |].
  by apply IH, frames_await.
Qed.

Lemma frames_promise_all ps st :
  PP (length (promises st)) →
  frames st → frames (promise_all ps st).2.
Proof.
  intros Hnew Hq. unfold promise_all.
  pose proof (frames_new_promise st Hq) as Hq1. simpl in Hq1. simpl.
  destruct ps as [| p ps]; simpl; [by apply frames_settle |].
  apply frames_foldl_await; [done |]. by apply frames_await.
Qed.

Lemma frames_on_failure t a p e st :
  PT t p → frames st → frames (on_failure t a p e st).
Proof.
  intros Hne Hq. unfold on_failure. case_decide.
  - destruct Hq as (Hm & Ht & Hp). repeat split; simpl; try done.
    apply Forall_app. split; [done |]. by repeat constructor.
  - by apply (frames_settle p (RThrow e) st).
Qed.

Lemma frames_attempt t a p st :
  PT t p → frames st → frames (attempt t a p st).
Proof.
  intros Hne Hq. unfold attempt.
  destruct (run t _) as [| e | e].
  - by apply frames_enqueue.
  - by apply (frames_on_failure t a p e (with_log _ st)).
  - by apply frames_enqueue.
Qed.

Lemma frames_after_deps t p st :
  PT t p → frames st → frames (after_deps t p st).
Proof.
  intros Hne Hq. unfold after_deps.
  destruct (when t) as [[| | e |] |]; try done; try by apply frames_enqueue.
  by apply frames_attempt.
Qed.

Lemma frames_resume k r st :
  cont_all PT PP k → frames st → frames (resume k r st).
Proof.
  intros Hk Hs. destruct k as [res | q | t p | t p | t a p | t a p | res]; simpl in *.
  - by apply frames_settle.
  - destruct r; try by apply frames_settle.
    + case_decide; [| done]. by apply (frames_settle q RVoid (with_remaining _ st)).
    + case_decide; [| done]. by apply (frames_settle q RVoid (with_remaining _ st)).
  - destruct r; try by apply frames_after_deps. done.
  - destruct r as [| [|] | e]; try done.
    + by apply (frames_settle p RVoid st).
    + by apply frames_attempt.
    + by apply (frames_settle p RVoid st).
  - destruct r; try by apply frames_on_failure.
    + by apply (frames_settle p RVoid (with_done _ st)).
    + by apply (frames_settle p RVoid (with_done _ st)).
  - by apply frames_attempt.
  - by apply (frames_settle res r (with_running false st)).
Qed.

Lemma frames_step st st' :
  step st = Some st' →
  (∀ k r rest, microtasks st = (k, r) :: rest → cont_all PT PP k) →
  frames st → frames st'.
Proof.
  unfold step. intros Hstep Hhead (Hm & Ht & Hp).
  destruct (microtasks st) as [| [k r] rest] eqn:Em.
  - destruct (timers st) as [| k rest] eqn:Et; [done |].
    injection Hstep as <-. inversion Ht as [| ? ? Hk Hrest]; subst.
    apply frames_enqueue; [done |]. repeat split; simpl; try done. by rewrite Em.
  - injection Hstep as <-. inversion Hm as [| ? ? Hk Hrest]; subst.
    apply frames_resume; [by eapply Hhead |]. repeat split; done.
Qed.

End Frames.

Lemma attempt_count i t a p st :
  id t ≠ i → count_runs i (log (attempt t a p st)) = count_runs i (log st).
Proof.
  intros Hne. rewrite attempt_log, count_runs_app, count_runs_other by done. lia.
Qed.

Lemma after_deps_count i t p st :
  id t ≠ i → count_runs i (log (after_deps t p st)) = count_runs i (log st).
Proof.
  intros Hne. unfold after_deps.
  destruct (when t) as [[| | e |] |]; try done. by apply attempt_count.
Qed.






Lemma settled_attempt i n t a p st :
  id t ≠ i → settled i n st → settled i n (attempt t a p st).
Proof.
  intros Hne (Hd & Hq & Hc). split; [by rewrite attempt_done |].
  split; [by apply frames_attempt | by rewrite attempt_count].
Qed.

Lemma settled_on_failure i n t a p e st :
  id t ≠ i → settled i n st → settled i n (on_failure t a p e st).
Proof.
  intros Hne (Hd & Hq & Hc). split; [by rewrite on_failure_done |].
  split; [by apply frames_on_failure | by rewrite on_failure_log].
Qed.

Lemma run_each_inv (P : state → Prop) call ids :
  (∀ j st p st', call j st = Some (p, st') → P st → P st') →
  ∀ st ps st', run_each call ids st = Some (ps, st') → P st → P st'.
Proof.
  intros Hcall. induction ids as [| j ids IH]; intros st ps st' Hrun HP; simpl in Hrun.
  - by injection Hrun as _ <-.
  - destruct (call j st) as [[p s1] |] eqn:Ec; simpl in Hrun; [| done].
    destruct (run_each call ids s1) as [[ps' s2] |] eqn:Er; simpl in Hrun; [| done].
    injection Hrun as _ <-. eapply IH; [exact Er |]. by eapply Hcall.
Qed.


Lemma runSingle_S fuel i st :
  runSingle (S fuel) i st =
  let res := length (promises st) in
  let st0 := (new_promise st).2 in
  let inflight := length (promises st0) in
  if decide (i ∈ done st) then Some (res, settle res RVoid st0)
  else
    match cache st !! i with
    | Some existed => Some (res, await existed (KReturn res) st0)
    | None =>
        st3 ← start (runSingle fuel) i inflight
                 (with_cache (<[i := inflight]> (cache st)) (new_promise st0).2);
        Some (res, await inflight (KReturn res) st3)
    end.
Proof. done. Qed.


Lemma done_resume k r st : done st ⊆ done (resume k r st).
Proof.
  destruct k as [res | q | t p | t p | t a p | t a p | res]; simpl;
    repeat case_match; rewrite ?settle_done, ?after_deps_done, ?attempt_done,
      ?on_failure_done; simpl; rewrite ?settle_done; simpl; set_solver.
Qed.

Lemma count_resume i k r st :
  cont_quiet i k → count_runs i (log (resume k r st)) = count_runs i (log st).
Proof.
  intros Hk.
  destruct k as [res | q | t p | t p | t a p | t a p | res]; simpl in *;
    repeat case_match; rewrite ?settle_log, ?after_deps_count, ?attempt_count,
      ?on_failure_log by done; simpl; rewrite ?settle_log; done.
Qed.

Lemma resume_settled i n k r st :
  cont_quiet i k → settled i n st → settled i n (resume k r st).
Proof.
  intros Hk (Hd & Hq & Hc). split; [by apply done_resume |].
  split; [by apply frames_resume | by rewrite count_resume].
Qed.




(** *** The synchronous part always returns *)

Lemma extends_refl st : extends st st.
Proof. by split. Qed.

Lemma extends_trans st1 st2 st3 : extends st1 st2 → extends st2 st3 → extends st1 st3.
Proof. intros [H1 H2] [H3 H4]. split; [congruence | set_solver]. Qed.

Lemma idle_tasks_mono st st' : extends st st' → idle_tasks st' ≤ idle_tasks st.
Proof.
  intros [Ht Hc]. unfold idle_tasks, task_ids. rewrite Ht.
  apply subseteq_size. set_solver.
Qed.

Lemma lookup_task_ids i st t : lookup_task i (tasks st) = Some t → i ∈ task_ids st.
Proof.
  intros H. pose proof (lookup_task_id _ _ _ H) as <-. apply lookup_task_In in H.
  unfold task_ids. apply elem_of_list_to_set, list_elem_of_In, in_map, H.
Qed.

Lemma idle_tasks_insert i p st t :
  lookup_task i (tasks st) = Some t → cache st !! i = None →
  idle_tasks (with_cache (<[i := p]> (cache st)) st) < idle_tasks st.
Proof.
  intros Hl Hc. unfold idle_tasks, task_ids. simpl.
  apply subset_size. apply lookup_task_ids in Hl. apply not_elem_of_dom in Hc.
  rewrite dom_insert_L. unfold task_ids in Hl. set_solver.
Qed.

Lemma idle_tasks_bound st : idle_tasks st ≤ length (tasks st).
Proof.
  unfold idle_tasks, task_ids.
  etrans; [apply subseteq_size; apply subseteq_difference_l; reflexivity |].
  replace (length (tasks st)) with (length (map id (tasks st))) by apply length_map.
  generalize (map id (tasks st)). clear. intros l.
  induction l as [| x l IH]; [by rewrite list_to_set_nil, size_empty |].
  rewrite list_to_set_cons, size_union_alt, size_singleton. simpl.
  assert (size (list_to_set l ∖ {[x]} : gset string) ≤ size (list_to_set l : gset string))
    by (apply subseteq_size; set_solver).
  lia.
Qed.

Lemma run_each_total (P : state → Prop) call ids :
  (∀ j s, P s → ∃ p s', call j s = Some (p, s') ∧ P s') →
  ∀ st, P st → ∃ ps st', run_each call ids st = Some (ps, st') ∧ P st'.
Proof.
  intros Hcall. induction ids as [| j ids IH]; intros st HP; simpl; [by eauto |].
  destruct (Hcall j st HP) as (p & s1 & -> & HP1). simpl.
  destruct (IH s1 HP1) as (ps & s2 & -> & HP2). simpl. eauto.
Qed.

Lemma on_failure_cache t a p e st :
  cache (on_failure t a p e st) = cache st ∨
  cache (on_failure t a p e st) = delete (id t) (cache st).
Proof.
  unfold on_failure. case_decide; simpl; [by left | right]. by rewrite settle_cache.
Qed.

Lemma attempt_cache t a p st :
  cache (attempt t a p st) = cache st ∨
  cache (attempt t a p st) = delete (id t) (cache st).
Proof.
  unfold attempt. destruct (run t _) as [| e | e]; simpl; try by left.
  apply (on_failure_cache t a p e (with_log _ st)).
Qed.

Lemma after_deps_cache t p st :
  cache (after_deps t p st) = cache st ∨
  cache (after_deps t p st) = delete (id t) (cache st).
Proof.
  unfold after_deps. destruct (when t) as [[| | e |] |]; simpl; try by left.
  apply attempt_cache.
Qed.

Lemma promise_all_extends ps st : extends st (promise_all ps st).2.
Proof. split; [apply promise_all_tasks | by rewrite promise_all_cache]. Qed.

Lemma runSingle_total : ∀ fuel j st,
  idle_tasks st < fuel →
  ∃ p st', runSingle fuel j st = Some (p, st') ∧ extends st st'.
Proof.
  induction fuel as [| fuel IH]; intros j st Hfuel; [lia |].
  rewrite runSingle_S. cbv zeta.
  case_decide as Hdone.
  { eexists _, _. split; [done |]. split; [by rewrite settle_tasks | by rewrite settle_cache]. }
  destruct (cache st !! j) as [existed |] eqn:Ec.
  { eexists _, _. split; [done |]. split; [by rewrite await_tasks | by rewrite await_cache]. }
  set (inflight := length (promises (new_promise st).2)).
  set (st2 := with_cache (<[j := inflight]> (cache st)) (new_promise (new_promise st).2).2).
  assert (Hnotin : j ∉ dom (cache st)) by (by apply not_elem_of_dom).
  assert (Hstart : ∃ st3, start (runSingle fuel) j inflight st2 = Some st3 ∧ extends st st3).
  { unfold start.
    destruct (lookup_task j (tasks st2)) as [t |] eqn:El.
    - pose proof (lookup_task_id _ _ _ El) as Hid.
      destruct (deps t) as [| d ds] eqn:Ed.
      + eexists. split; [done |]. split; [by rewrite after_deps_tasks |].
        destruct (after_deps_cache t inflight st2) as [-> | ->]; subst st2; simpl.
        * rewrite dom_insert_L. set_solver.
        * rewrite Hid, delete_insert_eq, dom_delete_L. set_solver.
      + assert (Hidle : idle_tasks st2 < fuel).
        { pose proof (idle_tasks_insert j inflight st t El Ec) as Hlt.
          unfold idle_tasks, task_ids in *. simpl in *. lia. }
        destruct (run_each_total (extends st2) (runSingle fuel) (d :: ds)) with (st := st2)
          as (ps & st3 & -> & Hext3).
        { intros i s Hs. destruct (IH i s) as (p & s' & Hr & Hext).
          - pose proof (idle_tasks_mono _ _ Hs). lia.
          - eexists _, _. split; [exact Hr |]. by eapply extends_trans. }
        { apply extends_refl. }
        simpl. pose proof (promise_all_extends ps st3) as Hext4.
        destruct (promise_all ps st3) as [q st4]. simpl in Hext4.
        eexists. split; [done |].
        assert (Hext : extends st st2).
        { split; [done |]. subst st2. simpl. rewrite dom_insert_L. set_solver. }
        eapply extends_trans; [exact Hext |]. eapply extends_trans; [exact Hext3 |].
        eapply extends_trans; [exact Hext4 |].
        split; [by rewrite await_tasks | by rewrite await_cache].
    - eexists. split; [done |]. split; [simpl; by rewrite settle_tasks |].
      simpl. rewrite settle_cache. simpl. rewrite delete_insert_eq, dom_delete_L. set_solver. }
  destruct Hstart as (st3 & -> & Hext). simpl.
  eexists _, _. split; [done |].
  eapply extends_trans; [exact Hext |].
  split; [by rewrite await_tasks | by rewrite await_cache].
Qed.

Lemma runTasks_total stg st : ∃ p st', runTasks stg st = Some (p, st').
Proof.
  unfold runTasks. simpl. destruct (running st); [by eauto |].
  match goal with |- context [run_each ?c ?l ?s] =>
    destruct (run_each_total (extends s) c l) with (st := s) as (ps & st2 & -> & _) end.
  - intros j s Hs. destruct (runSingle_total (S (length (tasks st))) j s) as (p & s' & Hr & Hext).
    + pose proof (idle_tasks_mono _ _ Hs) as Hle.
      match type of Hle with _ ≤ idle_tasks ?s0 =>
        pose proof (idle_tasks_bound s0) as Hb end. simpl in Hb. lia.
    + eexists _, _. split; [exact Hr |]. by eapply extends_trans.
  - apply extends_refl.
  - simpl. destruct (promise_all ps st2). by eauto.
Qed.

(** *** A task that is neither done nor in flight is run *)

Lemma on_failure_count_mono i c t a p e st :
  c ≤ count_runs i (log st) → c ≤ count_runs i (log (on_failure t a p e st)).
Proof. by rewrite on_failure_log. Qed.




Section Runnable.
Context (i : string) (t : Task) (ts : list Task) (c : nat).
Hypothesis Hlookup : lookup_task i ts = Some t.
Hypothesis Hdeps : deps t = [].
Hypothesis Hwhen : when t = None.

(** The registry is [ts], and [ran_or_runnable] holds. *)
Let progress (st : state) : Prop := tasks st = ts ∧ ran_or_runnable i c st.





End Runnable.

Lemma insert_sorted_In x t l : In x (insert_sorted t l) ↔ x = t ∨ In x l.
Proof.
  induction l as [| u l IH]; simpl; [naive_solver |].
  case_decide; simpl; [naive_solver |]. rewrite IH. naive_solver.
Qed.

Lemma sort_by_priority_In x l : In x (sort_by_priority l) ↔ In x l.
Proof.
  induction l as [| u l IH]; simpl; [done |].
  rewrite insert_sorted_In, IH. naive_solver.
Qed.

Lemma runTasks_unfold stg st :
  runTasks stg st =
  let res := length (promises st) in
  if running st then
    Some (res, settle res (RThrow "runTasks already in progress") (new_promise st).2)
  else
    '(ps, st2) ← run_each (runSingle (S (length (tasks st))))
                   (map id (sort_by_priority (List.filter (in_stage stg) (tasks st))))
                   (with_running true (new_promise st).2);
    Some (res, await (promise_all ps st2).1 (KFinally res) (promise_all ps st2).2).
Proof.
  unfold runTasks, new_promise. cbv zeta. cbn [fst snd].
  change (running (with_promises _ st)) with (running st).
  destruct (running st); [done |].
  change (tasks (with_running true (with_promises _ st))) with (tasks st).
  match goal with |- context [run_each ?f ?l ?s] =>
    destruct (run_each f l s) as [[ps st2] |] end; [| done].
  cbn [mbind option_bind]. by destruct (promise_all ps st2).
Qed.


(** *** At most one execution of a task is suspended at a time *)

Lemma omap_submseteq {A B} (f : A → option B) (l k : list A) :
  l ⊆+ k → omap f l ⊆+ omap f k.
Proof.
  induction 1 as [| x l k _ IH | x y l | x l k _ IH | l k m _ IH1 _ IH2]; simpl.
  - done.
  - destruct (f x); [by apply submseteq_skip | done].
  - destruct (f x), (f y); try done. apply submseteq_swap.
  - destruct (f x); [by apply submseteq_cons | done].
  - by etrans.
Qed.

Lemma submseteq_NoDup {A} (l k : list A) : l ⊆+ k → NoDup k → NoDup l.
Proof.
  intros Hs Hk. apply submseteq_sublist_l in Hs as (m & Hlm & Hmk).
  eapply sublist_NoDup; [| exact Hlm]. by rewrite Hmk.
Qed.

Lemma fst_pair_with {A B} (r : B) (ks : list A) : (map (λ k, (k, r)) ks).*1 = ks.
Proof. induction ks as [| k ks IH]; [done |]. simpl. f_equal. exact IH. Qed.

Lemma reactions_settled (ps : list pstate) p ks x :
  ps !! p = Some (Pending ks) → reactions x = [] →
  concat (reactions <$> ps) ≡ₚ ks ++ concat (reactions <$> <[p := x]> ps).
Proof.
  revert p. induction ps as [| s ps IH]; intros [| p] E Hx; simpl in *; try done.
  - injection E as ->. simpl. by rewrite Hx.
  - rewrite (IH p E Hx). rewrite !app_assoc. f_equiv; [apply Permutation_app_comm | done].
Qed.

Lemma reactions_added (ps : list pstate) p ks k :
  ps !! p = Some (Pending ks) →
  concat (reactions <$> <[p := Pending (ks ++ [k])]> ps) ≡ₚ k :: concat (reactions <$> ps).
Proof.
  revert p. induction ps as [| s ps IH]; intros [| p] E; simpl in *; try done.
  - injection E as ->. simpl. rewrite <- app_assoc. simpl.
    by rewrite <- Permutation_middle.
  - rewrite (IH p E). by rewrite <- Permutation_middle.
Qed.

Lemma all_frames_new_promise st : all_frames (new_promise st).2 = all_frames st.
Proof.
  unfold all_frames. simpl. rewrite fmap_app, concat_app. simpl.
  by rewrite !app_nil_r.
Qed.

Lemma all_frames_enqueue k r st : all_frames (enqueue k r st) ≡ₚ k :: all_frames st.
Proof.
  unfold all_frames. simpl. rewrite fmap_app. simpl. rewrite <- app_assoc. simpl.
  by rewrite <- Permutation_middle.
Qed.

Lemma all_frames_settle p r st : all_frames (settle p r st) ≡ₚ all_frames st.
Proof.
  unfold settle. destruct (promises st !! p) as [[ks | | e] |] eqn:E; try done.
  unfold all_frames. simpl. rewrite fmap_app, fst_pair_with.
  rewrite (reactions_settled (promises st) p ks
             (match r with RThrow e => Rejected e | _ => Fulfilled end) E)
    by (by destruct r).
  rewrite <- !app_assoc. f_equiv. rewrite !app_assoc. f_equiv.
  apply Permutation_app_comm.
Qed.

Lemma all_frames_await p k st : all_frames (await p k st) ⊆+ k :: all_frames st.
Proof.
  unfold await. destruct (promises st !! p) as [[ks | | e] |] eqn:E.
  - unfold all_frames. simpl. rewrite (reactions_added _ _ _ _ E).
    rewrite <- !Permutation_middle. done.
  - by rewrite all_frames_enqueue.
  - by rewrite all_frames_enqueue.
  - by apply submseteq_cons.
Qed.

Lemma live_ids_cons_None k l : frame_id k = None → omap frame_id (k :: l) = omap frame_id l.
Proof. intros E. simpl. by rewrite E. Qed.

Lemma live_ids_cons_Some k i l :
  frame_id k = Some i → omap frame_id (k :: l) = i :: omap frame_id l.
Proof. intros E. simpl. by rewrite E. Qed.

Lemma no_new_frames_refl st : no_new_frames st st.
Proof. done. Qed.

Lemma no_new_frames_trans a b c : no_new_frames a b → no_new_frames b c → no_new_frames a c.
Proof.
  intros (H1 & H2 & H3) (H4 & H5 & H6). split; [by etrans | split; congruence].
Qed.

Lemma no_new_frames_new_promise st : no_new_frames st (new_promise st).2.
Proof. split; [| done]. unfold live_ids. by rewrite all_frames_new_promise. Qed.

Lemma no_new_frames_settle p r st : no_new_frames st (settle p r st).
Proof.
  split; [| by rewrite settle_done, settle_cache].
  unfold live_ids. by rewrite all_frames_settle.
Qed.

Lemma no_new_frames_await p k st : frame_id k = None → no_new_frames st (await p k st).
Proof.
  intros Hk. split; [| by rewrite await_done, await_cache].
  unfold live_ids. rewrite <- (live_ids_cons_None k (all_frames st) Hk).
  apply omap_submseteq, all_frames_await.
Qed.

Lemma no_new_frames_enqueue k r st : frame_id k = None → no_new_frames st (enqueue k r st).
Proof.
  intros Hk. split; [| done].
  unfold live_ids. rewrite all_frames_enqueue. by rewrite (live_ids_cons_None k _ Hk).
Qed.

Lemma no_new_frames_foldl_await k ps : frame_id k = None → ∀ st,
  no_new_frames st (foldl (λ s p, await p k s) st ps).
Proof.
  intros Hk. induction ps as [| p ps IH]; intros st; simpl; [done |].
  eapply no_new_frames_trans; [by apply no_new_frames_await | apply IH].
Qed.

Lemma no_new_frames_promise_all ps st : no_new_frames st (promise_all ps st).2.
Proof.
  unfold promise_all. simpl. destruct ps as [| p ps]; simpl.
  - eapply no_new_frames_trans; [apply no_new_frames_new_promise |].
    apply no_new_frames_settle.
  - eapply no_new_frames_trans; [| by apply no_new_frames_foldl_await].
    eapply no_new_frames_trans; [| by apply no_new_frames_await].
    apply (no_new_frames_new_promise st).
Qed.

Lemma exec_step_continue i k r st :
  frame_id k = Some i → exec_step i st (enqueue k r st).
Proof.
  intros Hk. left. split; [| done].
  unfold live_ids. rewrite all_frames_enqueue. by rewrite (live_ids_cons_Some k i _ Hk).
Qed.

Lemma exec_step_end i st st' :
  no_new_frames st st' → exec_step i st (with_cache (delete i (cache st')) st').
Proof.
  intros (Hl & Hd & Hc). right. split; [done |]. simpl. split; [set_solver |].
  intros j Hj. by rewrite lookup_delete_ne, Hc.
Qed.

Lemma all_frames_timer k st :
  all_frames (with_timers (timers st ++ [k]) st) ≡ₚ k :: all_frames st.
Proof.
  unfold all_frames. simpl. rewrite <- app_assoc. simpl.
  by rewrite <- !Permutation_middle.
Qed.

Lemma on_failure_exec t a p e st : exec_step (id t) st (on_failure t a p e st).
Proof.
  unfold on_failure. case_decide.
  - left. split; [| done]. unfold live_ids. rewrite all_frames_timer.
    by rewrite (live_ids_cons_Some _ (id t)).
  - apply exec_step_end, no_new_frames_settle.
Qed.

Lemma attempt_exec t a p st : exec_step (id t) st (attempt t a p st).
Proof.
  unfold attempt. destruct (run t _) as [| e | e].
  - by apply (exec_step_continue (id t) _ _ (with_log _ st)).
  - apply (on_failure_exec t a p e (with_log _ st)).
  - by apply (exec_step_continue (id t) _ _ (with_log _ st)).
Qed.

Lemma after_deps_exec t p st : exec_step (id t) st (after_deps t p st).
Proof.
  unfold after_deps. destruct (when t) as [[| | e |] |];
    try by apply exec_step_continue.
  - left. split; [by apply submseteq_cons | done].
  - apply attempt_exec.
Qed.

Lemma run_succeeded_exec t p st :
  exec_step (id t) st
    (let st1 := with_done (done st ∪ {[id t]}) st in
     let st2 := settle p RVoid st1 in
     with_cache (delete (id t) (cache st2)) st2).
Proof.
  pose proof (no_new_frames_settle p RVoid (with_done (done st ∪ {[id t]}) st))
    as (Hl & Hd & Hc).
  right. split; [exact Hl |]. simpl. split; [by rewrite Hd |].
  intros j Hj. by rewrite lookup_delete_ne, Hc.
Qed.

Lemma resume_exec k r i st : frame_id k = Some i → exec_step i st (resume k r st).
Proof.
  intros Hk.
  destruct k as [res | q | t p | t p | t a p | t a p | res]; simpl in Hk;
    try done; injection Hk as <-; simpl.
  - destruct r; try apply after_deps_exec. apply (exec_step_end (id t) st st), no_new_frames_refl.
  - destruct r as [| [|] | e].
    + apply exec_step_end, no_new_frames_settle.
    + apply attempt_exec.
    + apply exec_step_end, no_new_frames_settle.
    + apply (exec_step_end (id t) st st), no_new_frames_refl.
  - destruct r; try apply on_failure_exec.
    + apply run_succeeded_exec.
    + apply run_succeeded_exec.
  - apply attempt_exec.
Qed.

Lemma resume_no_new_frames k r st : frame_id k = None → no_new_frames st (resume k r st).
Proof.
  intros Hk.
  destruct k as [res | q | t p | t p | t a p | t a p | res]; simpl in Hk;
    try done; simpl.
  - apply no_new_frames_settle.
  - destruct r; try apply no_new_frames_settle.
    + case_decide; [| done]. apply (no_new_frames_settle q RVoid (with_remaining _ st)).
    + case_decide; [| done]. apply (no_new_frames_settle q RVoid (with_remaining _ st)).
  - apply (no_new_frames_settle res r (with_running false st)).
Qed.

Lemma one_execution_no_new st st' :
  no_new_frames st st' → one_execution_each st → one_execution_each st'.
Proof.
  intros (Hl & Hd & Hc) (Hn & Hi). split; [by eapply submseteq_NoDup |].
  intros i Hin. rewrite Hd, Hc. apply Hi. by eapply elem_of_submseteq.
Qed.

Lemma starting_no_new j st st' : no_new_frames st st' → starting j st → starting j st'.
Proof.
  intros (Hl & Hd & Hc) (Hn & Hi). unfold starting. rewrite Hd, Hc. split; [| done].
  intros Hin. apply Hn. by eapply elem_of_submseteq.
Qed.

Lemma one_execution_exec i st st' :
  exec_step i st st' → starting i st → one_execution_each st → one_execution_each st'.
Proof.
  intros [(Hl & Hd & Hc) | (Hl & Hd & Hc)] (Hni & Hnd & Hsc) (Hn & Hi).
  - split.
    + eapply submseteq_NoDup; [exact Hl |]. by apply NoDup_cons.
    + intros j Hin. rewrite Hd, Hc.
      apply (elem_of_submseteq _ _ _ Hin) in Hl. apply elem_of_cons in Hl as [-> | Hl]; [done |].
      by apply Hi.
  - split; [by eapply submseteq_NoDup |].
    intros j Hin. apply (elem_of_submseteq _ _ _ Hin) in Hl.
    assert (j ≠ i) by congruence. destruct (Hi j Hl) as [Hjd Hjc].
    rewrite Hc by done. split; [set_solver | done].
Qed.

Lemma starting_exec i j st st' :
  exec_step i st st' → j ≠ i → starting j st → starting j st'.
Proof.
  intros [(Hl & Hd & Hc) | (Hl & Hd & Hc)] Hne (Hni & Hnd & Hsc).
  - unfold starting. rewrite Hd, Hc. split; [| done]. intros Hin.
    apply (elem_of_submseteq _ _ _ Hin) in Hl. apply elem_of_cons in Hl as [-> | Hl]; done.
  - unfold starting. rewrite Hc by done. split; [| split; [set_solver | done]].
    intros Hin. by apply (elem_of_submseteq _ _ _ Hin) in Hl.
Qed.

Lemma step_one_execution st st' :
  step st = Some st' → one_execution_each st → one_execution_each st'.
Proof.
  unfold step. intros Hstep Hinv.
  destruct (microtasks st) as [| [k r] rest] eqn:Em.
  - destruct (timers st) as [| k rest] eqn:Et; [done |]. injection Hstep as <-.
    eapply one_execution_no_new; [| exact Hinv].
    split; [| done]. unfold live_ids. rewrite all_frames_enqueue.
    unfold all_frames. simpl. by rewrite Em, Et.
  - injection Hstep as <-.
    assert (Hl : live_ids st = omap frame_id (k :: all_frames (with_microtasks rest st))).
    { unfold live_ids, all_frames. simpl. by rewrite Em. }
    destruct (frame_id k) as [i |] eqn:Ek.
    + rewrite (live_ids_cons_Some k i _ Ek) in Hl.
      destruct Hinv as (Hn & Hi). rewrite Hl in Hn, Hi. apply NoDup_cons in Hn as [Hni Hn].
      destruct (Hi i) as [Hid Hic]; [by left |].
      apply (one_execution_exec i (with_microtasks rest st)); [by apply resume_exec | done |].
      split; [done |]. intros j Hj. apply Hi. by right.
    + rewrite (live_ids_cons_None k _ Ek) in Hl.
      apply (one_execution_no_new (with_microtasks rest st)); [by apply resume_no_new_frames |].
      destruct Hinv as (Hn & Hi). rewrite Hl in Hn, Hi. done.
Qed.

Lemma guarded_no_new S st st' : no_new_frames st st' → guarded S st → guarded S st'.
Proof.
  intros Hn [Hinv HS]. split; [by eapply one_execution_no_new |].
  intros j Hj. eapply starting_no_new; [exact Hn | by apply HS].
Qed.

Lemma guarded_exec S i st st' :
  exec_step i st st' → (∀ j, S j → j ≠ i) → starting i st →
  guarded S st → guarded S st'.
Proof.
  intros He Hne Hi [Hinv HS]. split; [by eapply one_execution_exec |].
  intros j Hj. eapply starting_exec; [exact He | by apply Hne | by apply HS].
Qed.

Lemma await_exec i p k st : frame_id k = Some i → exec_step i st (await p k st).
Proof.
  intros Hk. left. split; [| by rewrite await_done, await_cache].
  unfold live_ids. rewrite <- (live_ids_cons_Some k i (all_frames st) Hk).
  apply omap_submseteq, all_frames_await.
Qed.

Lemma marked_done_exec i p st :
  exec_step i st
    (let st1 := with_done (done st ∪ {[i]}) st in
     let st2 := settle p RVoid st1 in
     with_cache (delete i (cache st2)) st2).
Proof.
  pose proof (no_new_frames_settle p RVoid (with_done (done st ∪ {[i]}) st))
    as (Hl & Hd & Hc).
  right. split; [exact Hl |]. simpl. split; [by rewrite Hd |].
  intros j Hj. by rewrite lookup_delete_ne, Hc.
Qed.

Lemma start_guarded S call i inflight st st' :
  (∀ S' j st p st', call j st = Some (p, st') → guarded S' st → guarded S' st') →
  (∀ j, S j → j ≠ i) →
  start call i inflight st = Some st' → starting i st → guarded S st → guarded S st'.
Proof.
  intros Hcall Hne Hstart Hi Hg. unfold start in Hstart.
  destruct (lookup_task i (tasks st)) as [t |] eqn:El.
  - apply lookup_task_id in El. subst i.
    destruct (deps t) as [| d ds] eqn:Ed.
    + injection Hstart as <-. eapply guarded_exec; [apply after_deps_exec | done..].
    + destruct (run_each call (d :: ds) st) as [[ps st1] |] eqn:Er; simpl in Hstart; [| done].
      assert (Hg1 : guarded (λ j, S j ∨ j = id t) st1).
      { eapply (run_each_inv (guarded (λ j, S j ∨ j = id t))); [apply Hcall | exact Er |].
        destruct Hg as [Hinv HS]. split; [done |]. intros j [Hj | ->]; [by apply HS | done]. }
      pose proof (no_new_frames_promise_all ps st1) as Hn.
      destruct (promise_all ps st1) as [q st2]. simpl in Hn. injection Hstart as <-.
      apply (guarded_no_new _ _ _ Hn) in Hg1. destruct Hg1 as [Hinv HS].
      eapply (guarded_exec S (id t) st2); [by apply await_exec | done | |].
      * apply HS. by right.
      * split; [done |]. intros j Hj. apply HS. by left.
  - injection Hstart as <-.
    eapply guarded_exec; [apply marked_done_exec | done..].
Qed.

Lemma runSingle_guarded : ∀ fuel S i st p st',
  runSingle fuel i st = Some (p, st') → guarded S st → guarded S st'.
Proof.
  induction fuel as [| fuel IH]; intros S i st p st' Hrun Hg; [done |].
  rewrite runSingle_S in Hrun. cbv zeta in Hrun.
  pose proof (no_new_frames_new_promise st) as Hn0.
  case_decide as Hdone.
  - injection Hrun as _ <-. eapply guarded_no_new; [| exact Hg].
    eapply no_new_frames_trans; [exact Hn0 | apply no_new_frames_settle].
  - destruct (cache st !! i) as [existed |] eqn:Ec.
    + injection Hrun as _ <-. eapply guarded_no_new; [| exact Hg].
      eapply no_new_frames_trans; [exact Hn0 | by apply no_new_frames_await].
    + match type of Hrun with context [start ?c ?j ?f ?s] =>
        destruct (start c j f s) as [st3 |] eqn:Es end; simpl in Hrun; [| done].
      injection Hrun as _ <-.
      eapply guarded_no_new; [by apply no_new_frames_await |].
      destruct Hg as [[Hnd Hlive] HS].
      assert (Hni : i ∉ live_ids st).
      { intros Hin. destruct (Hlive i Hin) as [_ [x Hx]]. congruence. }
      assert (HneS : ∀ j, S j → j ≠ i).
      { intros j Hj ->. destruct (HS i Hj) as (_ & _ & [x Hx]). congruence. }
      assert (Hl2 : live_ids (new_promise (new_promise st).2).2 = live_ids st).
      { unfold live_ids. by rewrite !all_frames_new_promise. }
      eapply (start_guarded S); [exact IH | exact HneS | exact Es | |].
      * split; [by rewrite <- Hl2 in Hni |]. split; [done |]. simpl.
        rewrite lookup_insert_eq. by eexists.
      * split; [split |].
        -- by rewrite <- Hl2 in Hnd.
        -- intros j Hj. change (live_ids _) with (live_ids (new_promise (new_promise st).2).2) in Hj.
           rewrite Hl2 in Hj. destruct (Hlive j Hj) as [Hjd Hjc]. split; [done |]. simpl.
           rewrite lookup_insert_ne by congruence. done.
        -- intros j Hj. destruct (HS j Hj) as (Hjl & Hjd & Hjc).
           split; [by rewrite <- Hl2 in Hjl |]. split; [done |]. simpl.
           rewrite lookup_insert_ne; [done |]. intros ->. by apply (HneS j).
Qed.

Lemma runTasks_one_execution stg st p st' :
  runTasks stg st = Some (p, st') → one_execution_each st → one_execution_each st'.
Proof.
  rewrite runTasks_unfold. cbv zeta. intros Hrun Hinv.
  pose proof (no_new_frames_new_promise st) as Hn0.
  destruct (running st).
  - injection Hrun as _ <-. eapply one_execution_no_new; [| exact Hinv].
    eapply no_new_frames_trans; [exact Hn0 | apply no_new_frames_settle].
  - match type of Hrun with context [run_each ?c ?l ?s] =>
      destruct (run_each c l s) as [[ps st2] |] eqn:Er end; simpl in Hrun; [| done].
    injection Hrun as _ <-.
    eapply one_execution_no_new.
    { eapply no_new_frames_trans; [apply no_new_frames_promise_all |].
      by apply no_new_frames_await. }
    assert (Hg : guarded (λ _, False) st2); [| by destruct Hg].
    eapply (run_each_inv (guarded (λ _, False))); [apply runSingle_guarded | exact Er |].
    split; [| done]. by apply (one_execution_no_new st).
Qed.

Lemma orderly_one_execution st : orderly st → one_execution_each st.
Proof.
  induction 1 as [| t st _ IH | stg st p st' _ IH Hr | st st' _ IH Hs | st _ IH Hidle].
  - split; [constructor |]. intros i Hi. by apply elem_of_nil in Hi.
  - done.
  - by eapply runTasks_one_execution.
  - by eapply step_one_execution.
  - change (live_ids (resetTasks st)) with (live_ids st) in *.
    split; change (live_ids (resetTasks st)) with (live_ids st); rewrite Hidle;
      [constructor |]. intros i Hi. by apply elem_of_nil in Hi.
Qed.



Lemma orderly_reachable st : orderly st → reachable st.
Proof.
  induction 1; [apply reach_init | by apply reach_registerTask | by eapply reach_runTasks
               | by eapply reach_step | by apply reach_resetTasks].
Qed.

Lemma reachable_drain fuel : ∀ st, reachable st → reachable (drain fuel st).
Proof.
  induction fuel as [| fuel IH]; intros st Hr; simpl; [done |].
  destruct (step st) as [st' |] eqn:E; [| done]. apply IH. by eapply reach_step.
Qed.


(** *** A call for other tasks starts no execution of a done task *)















(** *** A settled promise nobody awaits does not disturb the event loop *)

Lemma settle_extra x p r st :
  x ≠ Pending [] → (∀ ks, x ≠ Pending ks) →
  settle p r (with_extra_promise x st) = with_extra_promise x (settle p r st).
Proof.
  intros _ Hx. unfold settle, with_extra_promise. simpl.
  destruct (promises st !! p) as [s |] eqn:E.
  - rewrite (lookup_app_l_Some _ _ _ _ E).
    destruct s as [ks | | e]; try done.
    pose proof (lookup_lt_Some _ _ _ E) as Hlt.
    rewrite insert_app_l by done. done.
  - apply lookup_ge_None in E. rewrite lookup_app_r by done.
    destruct (p - length (promises st)) as [| m]; simpl.
    + destruct x as [ks | | e]; try done. by destruct (Hx ks).
    + done.
Qed.

Lemma on_failure_extra x t a p e st :
  (∀ ks, x ≠ Pending ks) →
  on_failure t a p e (with_extra_promise x st) = with_extra_promise x (on_failure t a p e st).
Proof.
  intros Hx. unfold on_failure. case_decide; [done |].
  rewrite settle_extra; [done | by apply Hx | done].
Qed.

Lemma attempt_extra x t a p st :
  (∀ ks, x ≠ Pending ks) →
  attempt t a p (with_extra_promise x st) = with_extra_promise x (attempt t a p st).
Proof.
  intros Hx. unfold attempt. simpl. destruct (run t _) as [| e | e]; try done.
  by apply (on_failure_extra x t a p e (with_log _ st)).
Qed.

Lemma after_deps_extra x t p st :
  (∀ ks, x ≠ Pending ks) →
  after_deps t p (with_extra_promise x st) = with_extra_promise x (after_deps t p st).
Proof.
  intros Hx. unfold after_deps. destruct (when t) as [[| | e |] |]; try done.
  by apply attempt_extra.
Qed.

Lemma resume_extra x k r st :
  (∀ ks, x ≠ Pending ks) →
  resume k r (with_extra_promise x st) = with_extra_promise x (resume k r st).
Proof.
  intros Hx. assert (Hx0 : x ≠ Pending []) by apply Hx.
  destruct k as [res | q | t p | t p | t a p | t a p | res]; simpl.
  - by apply settle_extra.
  - destruct r; try by apply settle_extra.
    + case_decide; [| done]. by apply (settle_extra x q RVoid (with_remaining _ st)).
    + case_decide; [| done]. by apply (settle_extra x q RVoid (with_remaining _ st)).
  - destruct r; try by apply after_deps_extra. done.
  - destruct r as [| [|] | e]; try done.
    + by rewrite settle_extra.
    + by apply attempt_extra.
    + by rewrite settle_extra.
  - destruct r; try by apply on_failure_extra.
    + change (with_done ?d (with_extra_promise x st))
        with (with_extra_promise x (with_done d st)).
      by rewrite settle_extra.
    + change (with_done ?d (with_extra_promise x st))
        with (with_extra_promise x (with_done d st)).
      by rewrite settle_extra.
  - by apply attempt_extra.
  - by apply (settle_extra x res r (with_running false st)).
Qed.

Lemma step_extra x st :
  (∀ ks, x ≠ Pending ks) →
  step (with_extra_promise x st) = with_extra_promise x <$> step st.
Proof.
  intros Hx. unfold step. simpl.
  destruct (microtasks st) as [| [k r] rest].
  - by destruct (timers st).
  - simpl. f_equal. by apply (resume_extra x k r (with_microtasks rest st)).
Qed.

Lemma drain_extra x fuel : ∀ st,
  (∀ ks, x ≠ Pending ks) →
  drain fuel (with_extra_promise x st) = with_extra_promise x (drain fuel st).
Proof.
  induction fuel as [| fuel IH]; intros st Hx; simpl; [done |].
  rewrite step_extra by done. destruct (step st); simpl; [by apply IH | done].
Qed.

(** C8.  [runTasks] called while a batch is in progress returns a promise
    that is already rejected; no task is looked at, nothing is logged, the
    [running] flag stays set, and the state differs from the one before
    only by that promise.  The batch in progress then goes on exactly as
    it would have without the call. *)
Theorem C8_runTasks_reentrant stg st :
  running st = true →
  ∃ p st',
    runTasks stg st = Some (p, st') ∧
    promises st' !! p = Some (Rejected "runTasks already in progress") ∧
    st' = with_extra_promise (Rejected "runTasks already in progress") st ∧
    log st' = log st ∧ running st' = true ∧
    ∀ fuel, drain fuel st' =
            with_extra_promise (Rejected "runTasks already in progress") (drain fuel st).
Proof.
  intros Hrun. eexists _, _. split; [by apply runTasks_while_running |].
  split; [simpl; apply lookup_new_promise |].
  split; [done |]. split; [done |]. split; [done |].
  intros fuel. by apply (drain_extra (Rejected "runTasks already in progress")).
Qed.

(** *** A promise nobody else refers to is fulfilled by its own job *)

Lemma drain_add a : ∀ b st, drain (a + b) st = drain b (drain a st).
Proof.
  induction a as [| a IH]; intros b st; simpl; [done |].
  destruct (step st) as [st' |] eqn:E; [apply IH |].
  destruct b; simpl; [done | by rewrite E].
Qed.

Lemma done_drain fuel : ∀ st, done st ⊆ done (drain fuel st).
Proof.
  induction fuel as [| fuel IH]; intros st; simpl; [done |].
  destruct (step st) as [st' |] eqn:E; [| done].
  etrans; [| apply IH]. unfold step in E.
  destruct (microtasks st) as [| [k r] rest].
  - destruct (timers st) as [| k rest]; [done |]. by injection E as <-.
  - injection E as <-. apply (done_resume k r (with_microtasks rest st)).
Qed.

(** What a turn of the event loop leaves of the promise [p], when the frame
    resumed does not refer to [p] or [p] is settled already. *)
Section Lookup.
Context (p : nat) (x : pstate).
Local Abbreviation kept q := (q ≠ p ∨ ∀ ks, x ≠ Pending ks).

Lemma settle_lookup q r st :
  kept q → promises st !! p = Some x → promises (settle q r st) !! p = Some x.
Proof.
  intros Hq Hx. unfold settle.
  destruct (promises st !! q) as [[ks | | e] |] eqn:E; try done.
  simpl. destruct (decide (q = p)) as [-> | Hne].
  - destruct Hq as [Hq | Hq]; [done |]. rewrite Hx in E. injection E as ->.
    by destruct (Hq ks).
  - by rewrite list_lookup_insert_ne.
Qed.

Lemma on_failure_lookup t a q e st :
  kept q → promises st !! p = Some x → promises (on_failure t a q e st) !! p = Some x.
Proof.
  intros Hq Hx. unfold on_failure. case_decide; [done |]. simpl.
  by apply settle_lookup.
Qed.

Lemma attempt_lookup t a q st :
  kept q → promises st !! p = Some x → promises (attempt t a q st) !! p = Some x.
Proof.
  intros Hq Hx. unfold attempt. destruct (run t _) as [| e | e]; try done.
  by apply (on_failure_lookup t a q e (with_log _ st)).
Qed.

Lemma after_deps_lookup t q st :
  kept q → promises st !! p = Some x → promises (after_deps t q st) !! p = Some x.
Proof.
  intros Hq Hx. unfold after_deps. destruct (when t) as [[| | e |] |]; try done.
  by apply attempt_lookup.
Qed.

Lemma resume_lookup k r st :
  cont_unref p k ∨ (∀ ks, x ≠ Pending ks) →
  promises st !! p = Some x → promises (resume k r st) !! p = Some x.
Proof.
  intros Hk Hx.
  destruct k as [res | q | t q | t q | t a q | t a q | res]; simpl in *;
    assert (Hq : kept _) by (destruct Hk as [Hk | Hk]; [left; exact Hk | by right]).
  - by apply settle_lookup.
  - destruct r; try by apply settle_lookup.
    + case_decide; [| done]. by apply (settle_lookup q RVoid (with_remaining _ st)).
    + case_decide; [| done]. by apply (settle_lookup q RVoid (with_remaining _ st)).
  - destruct r; try by apply after_deps_lookup. done.
  - destruct r as [| [|] | e]; try done.
    + by apply (settle_lookup q RVoid st).
    + by apply attempt_lookup.
    + by apply (settle_lookup q RVoid st).
  - destruct r; try by apply on_failure_lookup.
    + by apply (settle_lookup q RVoid (with_done _ st)).
    + by apply (settle_lookup q RVoid (with_done _ st)).
  - by apply attempt_lookup.
  - by apply (settle_lookup res r (with_running false st)).
Qed.

Lemma step_lookup st st' :
  (∀ ks, x ≠ Pending ks) → step st = Some st' →
  promises st !! p = Some x → promises st' !! p = Some x.
Proof.
  intros Hs Hstep Hx. unfold step in Hstep.
  destruct (microtasks st) as [| [k r] rest].
  - destruct (timers st) as [| k rest]; [done |]. by injection Hstep as <-.
  - injection Hstep as <-. apply resume_lookup; [by right | done].
Qed.

Lemma drain_lookup fuel : ∀ st,
  (∀ ks, x ≠ Pending ks) →
  promises st !! p = Some x → promises (drain fuel st) !! p = Some x.
Proof.
  induction fuel as [| fuel IH]; intros st Hs Hx; simpl; [done |].
  destruct (step st) as [st' |] eqn:E; [| done].
  apply IH; [done |]. by eapply step_lookup.
Qed.

End Lookup.

(** Resuming a frame leaves the jobs already queued where they are. *)

Lemma settle_queue q r st : microtasks st `prefix_of` microtasks (settle q r st).
Proof.
  unfold settle. destruct (promises st !! q) as [[ks | | e] |]; try done.
  simpl. by apply prefix_app_r.
Qed.

Lemma on_failure_queue t a q e st : microtasks st `prefix_of` microtasks (on_failure t a q e st).
Proof. unfold on_failure. case_decide; [done |]. simpl. apply settle_queue. Qed.

Lemma attempt_queue t a q st : microtasks st `prefix_of` microtasks (attempt t a q st).
Proof.
  unfold attempt. destruct (run t _) as [| e | e]; simpl; try by apply prefix_app_r.
  apply (on_failure_queue t a q e (with_log _ st)).
Qed.

Lemma after_deps_queue t q st : microtasks st `prefix_of` microtasks (after_deps t q st).
Proof.
  unfold after_deps. destruct (when t) as [[| | e |] |]; simpl; try done;
    try by apply prefix_app_r.
  apply attempt_queue.
Qed.

Lemma resume_queue k r st : microtasks st `prefix_of` microtasks (resume k r st).
Proof.
  destruct k as [res | q | t q | t q | t a q | t a q | res]; simpl;
    repeat case_match; simpl;
    try done; try apply settle_queue; try apply after_deps_queue;
    try apply attempt_queue; try apply on_failure_queue.
  - apply (settle_queue q RVoid (with_remaining _ st)).
  - apply (settle_queue q RVoid (with_remaining _ st)).
  - apply (settle_queue q RVoid (with_done _ st)).
  - apply (settle_queue q RVoid (with_done _ st)).
  - apply (settle_queue res r (with_running false st)).
Qed.

Lemma returning_resume p k r st :
  cont_unref p k → returning p st → returning p (resume k r st).
Proof.
  intros Hk (Hp & Hf). split.
  - apply resume_lookup; [by left | done].
  - apply frames_resume; [by left | done | done].
Qed.

Lemma returning_fulfils p m : ∀ st,
  returning p st → microtasks st !! m = Some (KReturn p, RVoid) →
  promises (drain (S m) st) !! p = Some Fulfilled.
Proof.
  assert (Hrun : ∀ rest st, promises st !! p = Some (Pending []) →
    promises (resume (KReturn p) RVoid (with_microtasks rest st)) !! p = Some Fulfilled).
  { intros rest st Hp. simpl. unfold settle. simpl. rewrite Hp. simpl.
    apply list_lookup_insert_eq. by eapply lookup_lt_Some. }
  induction m as [| m IH]; intros st Hr Hm.
  - destruct Hr as (Hp & _). simpl. unfold step.
    destruct (microtasks st) as [| j rest]; [done |].
    injection Hm as ->. by apply Hrun.
  - change (drain (S (S m)) st)
      with (match step st with Some st' => drain (S m) st' | None => st end).
    unfold step. destruct (microtasks st) as [| [k r] rest] eqn:Em; [done |].
    simpl in Hm. destruct Hr as (Hp & Hj & Ht & Hps).
    rewrite Em in Hj. inversion Hj as [| ? ? [Hk | Hk] Hrest]; subst.
    + apply IH.
      * apply returning_resume; [done |]. by repeat split.
      * destruct (resume_queue k r (with_microtasks rest st)) as [new ->].
        by apply lookup_app_l_Some.
    + injection Hk as -> ->. apply drain_lookup; [done |]. by apply Hrun.
Qed.

Lemma unknown_returning i st :
  unreferenced (length (promises st)) st →
  returning (length (promises st))
    {| tasks := tasks st; done := done st ∪ {[i]}; cache := cache st;
       running := running st;
       promises := promises st ++ [Pending []; Fulfilled];
       remaining := remaining st;
       microtasks := microtasks st ++ [(KReturn (length (promises st)), RVoid)];
       timers := timers st; log := log st |}.
Proof.
  intros (Hm & Ht & Hp). split; simpl.
  - rewrite lookup_app_r by done. by rewrite Nat.sub_diag.
  - split; [| split; [done |]]; simpl.
    + apply Forall_app. split.
      * eapply Forall_impl; [exact Hm |]. intros j Hj. by left.
      * constructor; [by right | constructor].
    + apply Forall_app. split; [done |]. by repeat constructor.
Qed.

(** *** Frames hold allocated promises only *)

Lemma cont_all_impl (PT PT' : Task → nat → Prop) (PP PP' : nat → Prop) k :
  (∀ t p, PT t p → PT' t p) → (∀ r, PP r → PP' r) →
  cont_all PT PP k → cont_all PT' PP' k.
Proof. intros HT HP. destruct k; simpl; auto. Qed.

Lemma frames_all_impl (PT PT' : Task → nat → Prop) (PP PP' : nat → Prop)
    (PJ PJ' : cont * resumed → Prop) st :
  (∀ t p, PT t p → PT' t p) → (∀ r, PP r → PP' r) → (∀ j, PJ j → PJ' j) →
  frames_all PT PP PJ st → frames_all PT' PP' PJ' st.
Proof.
  intros HT HP HJ (Hm & Ht & Hp). split; [| split].
  - eapply Forall_impl; [exact Hm | done].
  - eapply Forall_impl; [exact Ht |]. intros k. by apply cont_all_impl.
  - eapply Forall_impl; [exact Hp |]. intros [ks | | e]; simpl; try done.
    intros Hks. eapply Forall_impl; [exact Hks |]. intros k. by apply cont_all_impl.
Qed.

Lemma bounded_mono L L' st : L ≤ L' → bounded L st → bounded L' st.
Proof.
  intros Hle. apply frames_all_impl.
  - intros _ p. lia.
  - intros r. lia.
  - intros [k r]. apply cont_all_impl; intros; lia.
Qed.

Lemma on_failure_length t a p e st :
  length (promises (on_failure t a p e st)) = length (promises st).
Proof. unfold on_failure. case_decide; simpl; [done | apply settle_length]. Qed.

Lemma attempt_length t a p st : length (promises (attempt t a p st)) = length (promises st).
Proof.
  unfold attempt. destruct (run t _) as [| e | e]; simpl; try done.
  apply (on_failure_length t a p e (with_log _ st)).
Qed.

Lemma after_deps_length t p st :
  length (promises (after_deps t p st)) = length (promises st).
Proof.
  unfold after_deps. destruct (when t) as [[| | e |] |]; simpl; try done.
  apply attempt_length.
Qed.

Lemma resume_length k r st : length (promises (resume k r st)) = length (promises st).
Proof.
  destruct k as [res | q | t p | t p | t a p | t a p | res]; simpl;
    repeat case_match; simpl;
    rewrite ?settle_length, ?after_deps_length, ?attempt_length, ?on_failure_length;
    done.
Qed.

Lemma step_length st st' : step st = Some st' → length (promises st') = length (promises st).
Proof.
  unfold step. intros Hs. destruct (microtasks st) as [| [k r] rest].
  - destruct (timers st); [done |]. by injection Hs as <-.
  - injection Hs as <-. apply (resume_length k r (with_microtasks rest st)).
Qed.

Lemma foldl_await_length k ps : ∀ st,
  length (promises (foldl (λ s p, await p k s) st ps)) = length (promises st).
Proof.
  induction ps as [| p ps IH]; intros st; simpl; [done |]. by rewrite IH, await_length.
Qed.

Lemma promise_all_length ps st :
  (promise_all ps st).1 = length (promises st) ∧
  length (promises (promise_all ps st).2) = S (length (promises st)).
Proof.
  unfold promise_all. simpl. destruct ps as [| p ps]; simpl.
  - rewrite settle_length. simpl. rewrite length_app. simpl. split; [done | lia].
  - rewrite foldl_await_length, await_length. simpl. rewrite length_app. simpl.
    split; [done | lia].
Qed.

Lemma bounded_new_promise L st : bounded L st → bounded L (new_promise st).2.
Proof. by apply frames_new_promise. Qed.

Lemma allocated_step st st' : step st = Some st' → allocated st → allocated st'.
Proof.
  intros Hs Ha. unfold allocated. rewrite (step_length _ _ Hs).
  eapply frames_step; [| exact Hs | | exact Ha]; [done |].
  intros k r rest Em. destruct Ha as (Hm & _). rewrite Em in Hm. by inversion Hm.
Qed.

Lemma run_each_grows call ids :
  (∀ j st p st', call j st = Some (p, st') → allocated st → grows st st') →
  ∀ st ps st', run_each call ids st = Some (ps, st') → allocated st → grows st st'.
Proof.
  intros Hcall. induction ids as [| j ids IH]; intros st ps st' Hrun Ha; simpl in Hrun.
  - injection Hrun as _ <-. by split.
  - destruct (call j st) as [[p s1] |] eqn:Ec; simpl in Hrun; [| done].
    destruct (run_each call ids s1) as [[ps' s2] |] eqn:Er; simpl in Hrun; [| done].
    injection Hrun as _ <-.
    destruct (Hcall _ _ _ _ Ec Ha) as [Ha1 Hl1].
    destruct (IH _ _ _ Er Ha1) as [Ha2 Hl2]. split; [done | lia].
Qed.

Lemma allocated_settle p r st : allocated st → allocated (settle p r st).
Proof. intros Ha. unfold allocated. rewrite settle_length. by apply frames_settle. Qed.

Lemma allocated_await p k st :
  cont_all (λ _ q, q < length (promises st)) (λ r, r < length (promises st)) k →
  allocated st → allocated (await p k st).
Proof. intros Hk Ha. unfold allocated. rewrite await_length. by apply frames_await. Qed.

Lemma allocated_after_deps t p st :
  p < length (promises st) → allocated st → allocated (after_deps t p st).
Proof.
  intros Hp Ha. unfold allocated. rewrite after_deps_length. by apply frames_after_deps.
Qed.

Lemma allocated_new_promise st : allocated st → allocated (new_promise st).2.
Proof.
  intros Ha. unfold allocated. simpl. rewrite length_app. simpl.
  apply (bounded_mono (length (promises st))); [lia |]. by apply bounded_new_promise.
Qed.

Lemma allocated_promise_all ps st : allocated st → allocated (promise_all ps st).2.
Proof.
  intros Ha. unfold allocated. rewrite (proj2 (promise_all_length ps st)).
  apply frames_promise_all; [done | simpl; lia |].
  by apply (bounded_mono (length (promises st))); [lia |].
Qed.

Lemma start_grows call i inflight st st' :
  (∀ j st p st', call j st = Some (p, st') → allocated st → grows st st') →
  inflight < length (promises st) →
  start call i inflight st = Some st' → allocated st → grows st st'.
Proof.
  intros Hcall Hin Hstart Ha. unfold start in Hstart.
  destruct (lookup_task i (tasks st)) as [t |] eqn:El.
  - destruct (deps t) as [| d ds] eqn:Ed.
    + injection Hstart as <-. split; [by apply allocated_after_deps |].
      by rewrite after_deps_length.
    + destruct (run_each call (d :: ds) st) as [[ps st1] |] eqn:Er; simpl in Hstart; [| done].
      destruct (run_each_grows _ _ Hcall _ _ _ Er Ha) as [Ha1 Hl1].
      pose proof (allocated_promise_all ps st1 Ha1) as Ha2.
      destruct (promise_all_length ps st1) as [Hq Hl2].
      destruct (promise_all ps st1) as [q st2]. simpl in *. injection Hstart as <-.
      split; [| rewrite await_length; lia].
      apply allocated_await; [simpl; lia | done].
  - injection Hstart as <-. split.
    + apply (allocated_settle inflight RVoid (with_done (done st ∪ {[i]}) st)). exact Ha.
    + change (length (promises st) ≤
              length (promises (settle inflight RVoid (with_done (done st ∪ {[i]}) st)))).
      by rewrite settle_length.
Qed.

Local Ltac len := simpl in *; rewrite ?length_app in *; simpl in *; lia.

Lemma runSingle_grows : ∀ fuel i st p st',
  runSingle fuel i st = Some (p, st') → allocated st → grows st st'.
Proof.
  induction fuel as [| fuel IH]; intros i st p st' Hrun Ha; [done |].
  rewrite runSingle_S in Hrun. cbv zeta in Hrun.
  pose proof (allocated_new_promise st Ha) as Ha0.
  assert (Hl0 : length (promises (new_promise st).2) = S (length (promises st))).
  { simpl. rewrite length_app. simpl. lia. }
  case_decide as Hdone.
  - injection Hrun as _ <-. split; [by apply allocated_settle |].
    rewrite settle_length. len.
  - destruct (cache st !! i) as [existed |] eqn:Ec.
    + injection Hrun as _ <-. split; [| rewrite await_length; len].
      apply allocated_await; [len | done].
    + match type of Hrun with context [start ?c ?j ?f ?s] =>
        destruct (start c j f s) as [st3 |] eqn:Es end; simpl in Hrun; [| done].
      injection Hrun as _ <-.
      pose proof (allocated_new_promise _ Ha0) as Ha1.
      apply (start_grows _ _ _ _ _ IH) in Es as [Ha3 Hl3].
      * split; [| rewrite await_length; len].
        apply allocated_await; [| done]. len.
      * len.
      * exact Ha1.
Qed.

Lemma runTasks_allocated stg st p st' :
  runTasks stg st = Some (p, st') → allocated st → allocated st'.
Proof.
  rewrite runTasks_unfold. cbv zeta. intros Hrun Ha.
  pose proof (allocated_new_promise st Ha) as Ha0.
  assert (Hl0 : length (promises (new_promise st).2) = S (length (promises st))).
  { simpl. rewrite length_app. simpl. lia. }
  destruct (running st).
  - injection Hrun as _ <-. by apply allocated_settle.
  - match type of Hrun with context [run_each ?c ?l ?s] =>
      destruct (run_each c l s) as [[ps st2] |] eqn:Er end; simpl in Hrun; [| done].
    injection Hrun as _ <-.
    apply (run_each_grows _ _ (runSingle_grows _)) in Er as [Ha2 Hl2]; [| exact Ha0].
    destruct (promise_all_length ps st2) as [Hq Hl3].
    apply allocated_await; [| by apply allocated_promise_all].
    rewrite Hl3. len.
Qed.

Lemma allocated_unreferenced st : allocated st → unreferenced (length (promises st)) st.
Proof.
  apply frames_all_impl.
  - intros _ p. lia.
  - intros r. lia.
  - intros [k r]. apply cont_all_impl; intros; lia.
Qed.

Lemma reachable_allocated st : reachable st → allocated st.
Proof.
  induction 1 as [| t st _ IH | stg st p st' _ IH Hr | st st' _ IH Hs | st _ IH].
  - split; [constructor | split; constructor].
  - exact IH.
  - by eapply runTasks_allocated.
  - by eapply allocated_step.
  - exact IH.
Qed.

(** C10.  [runSingle] on an id that has no registered task, is not done and
    not in flight: nothing is run and nothing fails; the id is added to the
    done set, the in-flight promise is fulfilled at once and the job that
    fulfils the promise returned is queued behind the jobs already there.
    When the frames of the state before the call hold promises of the
    promise table only (as they do in every reachable state and in the
    states in which [runTasks] and [runSingle] make their calls), or at
    least do not refer to the promise about to be allocated, the promise
    returned is fulfilled once the jobs queued before it have been run, and
    stays so.  However long the event loop
    goes on, the id stays done and [runSingle] of it returns a fulfilled
    promise without running or marking anything, also after a task has
    been registered under the id. *)
Theorem C10_unknown_task_is_marked_done fuel i st :
  lookup_task i (tasks st) = None → i ∉ done st → cache st !! i = None →
  ∃ p st',
    runSingle (S fuel) i st = Some (p, st') ∧
    done st' = done st ∪ {[i]} ∧ log st' = log st ∧ cache st' = cache st ∧
    promises st' = promises st ++ [Pending []; Fulfilled] ∧ p = length (promises st) ∧
    microtasks st' = microtasks st ++ [(KReturn p, RVoid)] ∧
    (allocated st ∨ unreferenced p st → ∀ n, length (microtasks st) < n →
       promises (drain n st') !! p = Some Fulfilled) ∧
    ∀ n t fuel', id t = i →
      ∃ p2 st2, runSingle (S fuel') i (registerTask t (drain n st')) = Some (p2, st2) ∧
                promises st2 !! p2 = Some Fulfilled ∧
                log st2 = log (drain n st') ∧ done st2 = done (drain n st') ∧
                i ∈ done st2.
Proof.
  intros Hl Hd Hc. eexists _, _. split; [by apply runSingle_unknown |].
  cbn [done log cache promises microtasks].
  repeat (split; [done |]). split.
  - intros Hreach n Hn.
    assert (Hu : unreferenced (length (promises st)) st).
    { destruct Hreach as [Hreach | Hu]; [by apply allocated_unreferenced | done]. }
    replace n with (S (length (microtasks st)) + (n - S (length (microtasks st)))) by lia.
    rewrite drain_add. apply drain_lookup; [done |].
    apply returning_fulfils; [by apply unknown_returning |].
    cbn [microtasks]. rewrite lookup_app_r by done. by rewrite Nat.sub_diag.
  - intros n t fuel' Hid.
    match goal with |- context [drain n ?s] => set (st' := s) end.
    assert (Hin : i ∈ done (drain n st')).
    { apply (done_drain n st'). subst st'. cbn [done]. set_solver. }
    eexists _, _.
    split; [apply runSingle_done; by cbn [done registerTask with_tasks] |].
    cbn [promises log done registerTask with_tasks with_promises].
    split; [apply lookup_new_promise | done].
Qed.

(** *** The retry loop *)



Lemma with_microtasks_id m st : microtasks st = m → with_microtasks m st = st.
Proof. intros <-. by destruct st. Qed.

Lemma with_timers_id l st : timers st = l → with_timers l st = st.
Proof. intros <-. by destruct st. Qed.





Section RetryLoop.
Context (t : Task) (p : nat).




End RetryLoop.








(** *** Scenarios *)

(** C1 fails when the dependency is not itself part of the batch.  [A]
    (stage ui) depends on [B] (stage boot), whose [run] always fails.
    [runTasks('ui')]: [B] is invoked twice (one retry) and its failure
    reaches the inner function of [A], which removes the cache entry of [A]
    but never settles the in-flight promise of [A].  When the scheduler has
    nothing left to do, the promise of [runTasks] is still pending, the
    [running] flag is still set, and [A] is not done. *)
Theorem C1_dependency_failure_never_settles :
  ∃ p st1,
    runTasks (Some "ui"%string) (registerTask task_B (registerTask task_A init))
      = Some (p, st1) ∧
    quiescent (drain 20 st1) ∧
    log (drain 20 st1) = [EvRun "B"; EvRun "B"] ∧
    promises (drain 20 st1) !! p = Some (Pending []) ∧
    done (drain 20 st1) = ∅ ∧
    running (drain 20 st1) = true.
Proof. eexists _, _. split; [by vm_compute |]. by vm_compute. Qed.

(** When [B] is part of the batch as well, the batch is rejected through
    the entry of [B] itself. *)
Example dependency_failure_in_same_batch :
  ∃ p st1,
    runTasks None (registerTask task_B (registerTask task_A init)) = Some (p, st1) ∧
    quiescent (drain 20 st1) ∧
    promises (drain 20 st1) !! p = Some (Rejected "boom") ∧
    done (drain 20 st1) = ∅.
Proof. eexists _, _. split; [by vm_compute |]. by vm_compute. Qed.

(** The end-to-end scenario of the specification: [b] depends on [a]; after
    the batch the invocations are [a], then [b]. *)
Example end_to_end_order :
  let a := sample_task "a" None [] (λ _, Returns) None in
  let b := sample_task "b" None ["a"%string] (λ _, Returns) None in
  ∃ p st1,
    runTasks None (registerTask b (registerTask a init)) = Some (p, st1) ∧
    quiescent (drain 20 st1) ∧
    log (drain 20 st1) = [EvRun "a"; EvRun "b"] ∧
    promises (drain 20 st1) !! p = Some Fulfilled.
Proof. eexists _, _. split; [by vm_compute |]. by vm_compute. Qed.

(** A dependency on an id that was never registered: the batch is
    fulfilled, the id is done, and a task registered under it later is not
    run by the next batch. *)
Example unknown_dependency :
  let a := sample_task "a" None ["ghost"%string] (λ _, Returns) None in
  let g := sample_task "ghost" None [] (λ _, Returns) None in
  ∃ p st1 p' st2,
    runTasks None (registerTask a init) = Some (p, st1) ∧
    promises (drain 20 st1) !! p = Some Fulfilled ∧
    log (drain 20 st1) = [EvRun "a"] ∧
    runTasks None (registerTask g (drain 20 st1)) = Some (p', st2) ∧
    promises (drain 20 st2) !! p' = Some Fulfilled ∧
    log (drain 20 st2) = [EvRun "a"].
Proof.
  eexists _, _, _, _. split; [by vm_compute |]. split; [by vm_compute |].
  split; [by vm_compute |]. split; [by vm_compute |]. by vm_compute.
Qed.





Lemma C8_witness :
  running mid_batch = true ∧
  ∃ p st',
    runTasks None mid_batch = Some (p, st') ∧
    promises st' !! p = Some (Rejected "runTasks already in progress") ∧
    st' = with_extra_promise (Rejected "runTasks already in progress") mid_batch ∧
    log st' = log mid_batch ∧ running st' = true ∧
    ∀ fuel, drain fuel st' =
            with_extra_promise (Rejected "runTasks already in progress")
              (drain fuel mid_batch).
Proof.
  split; [vm_compute; reflexivity |].
  apply (C8_runTasks_reentrant None mid_batch). vm_compute; reflexivity.
Defined.

(** The call made in the middle of the batch that runs [task_ok]: the
    promise of the second call (4) is rejected; the first batch goes on,
    its promise (0) is fulfilled, and [run] has been invoked once. *)
Example reentrant_call_mid_batch :
  let st' := state_after (runTasks None mid_batch) mid_batch in
  log mid_batch = [EvRun "ok"] ∧ length (microtasks mid_batch) = 1 ∧
  promises mid_batch !! 0 = Some (Pending []) ∧
  promises (drain 10 st') !! 4 = Some (Rejected "runTasks already in progress") ∧
  promises (drain 10 st') !! 0 = Some Fulfilled ∧
  log (drain 10 st') = [EvRun "ok"] ∧ running (drain 10 st') = false ∧
  "ok"%string ∈ done (drain 10 st').
Proof.
  split; [by vm_compute |]. split; [by vm_compute |]. split; [by vm_compute |].
  split; [by vm_compute |]. split; [by vm_compute |]. split; [by vm_compute |].
  split; [by vm_compute |]. apply (bool_decide_unpack _); vm_compute; exact I.
Qed.

Example mid_batch_reachable : reachable mid_batch.
Proof.
  destruct (runTasks_total None (registerTask task_ok init)) as (p & st' & Hr).
  unfold mid_batch. rewrite Hr. simpl.
  eapply reach_runTasks; [apply reach_registerTask, reach_init | exact Hr].
Qed.

Example mid_batch_orderly : orderly mid_batch.
Proof.
  destruct (runTasks_total None (registerTask task_ok init)) as (p & st' & Hr).
  unfold mid_batch. rewrite Hr. simpl.
  eapply orderly_runTasks; [apply orderly_registerTask, orderly_init | exact Hr].
Qed.

Example after_ok_batch_reachable : reachable after_ok_batch.
Proof. apply reachable_drain, mid_batch_reachable. Qed.

Example mid_batch_unreferenced : unreferenced (length (promises mid_batch)) mid_batch.
Proof. apply (bool_decide_unpack _); vm_compute; exact I. Qed.

Lemma C10_witness :
  lookup_task "ghost" (tasks mid_batch) = None ∧ ("ghost"%string ∉ done mid_batch) ∧
  cache mid_batch !! "ghost"%string = None ∧
  ∃ p st',
    runSingle 1 "ghost" mid_batch = Some (p, st') ∧
    done st' = done mid_batch ∪ {[ "ghost"%string ]} ∧ log st' = log mid_batch ∧
    cache st' = cache mid_batch ∧
    promises st' = promises mid_batch ++ [Pending []; Fulfilled] ∧
    p = length (promises mid_batch) ∧
    microtasks st' = microtasks mid_batch ++ [(KReturn p, RVoid)] ∧
    (allocated mid_batch ∨ unreferenced p mid_batch →
     ∀ n, length (microtasks mid_batch) < n →
       promises (drain n st') !! p = Some Fulfilled) ∧
    ∀ n t fuel', id t = "ghost"%string →
      ∃ p2 st2,
        runSingle (S fuel') "ghost" (registerTask t (drain n st')) = Some (p2, st2) ∧
        promises st2 !! p2 = Some Fulfilled ∧
        log st2 = log (drain n st') ∧ done st2 = done (drain n st') ∧
        "ghost"%string ∈ done st2.
Proof.
  split; [reflexivity |].
  split; [apply (bool_decide_unpack _); vm_compute; exact I |].
  split; [reflexivity |].
  apply (C10_unknown_task_is_marked_done 0 "ghost" mid_batch).
  - reflexivity.
  - apply (bool_decide_unpack _); vm_compute; exact I.
  - reflexivity.
Defined.

End TasksFacts.
(* ===================================================================== *)
(** * Store: merging, the array operations and the message listener      *)
(* ===================================================================== *)

Section MergeFacts.
Import Store StoreWorker.

Local Ltac compute_it := apply (bool_decide_unpack _); vm_compute; exact I.

Lemma prefix_of_lookup {A} (l1 l2 : list A) :
  (∀ i, i < length l1 → l2 !! i = l1 !! i) → l1 `prefix_of` l2.
Proof.
  intros H. assert (E : take (length l1) l2 = l1); [| rewrite <- E; apply prefix_take].
  apply list_eq. intros i. destruct (decide (i < length l1)) as [Hi | Hi].
  - rewrite lookup_take_lt by done. by apply H.
  - rewrite lookup_take_ge by lia. symmetry. apply lookup_ge_None. lia.
Qed.

Lemma isObject_prefix h h' v :
  h `prefix_of` h' → value_ok h v → isObject h' v = isObject h v.
Proof.
  intros [ext ->] Hok. destruct v; try done. simpl in *. by rewrite lookup_app_l.
Qed.

Lemma own_keys_prefix h h' v :
  h `prefix_of` h' → value_ok h v → own_keys h' v = own_keys h v.
Proof.
  intros [ext ->] Hok. destruct v; try done. simpl in *. by rewrite lookup_app_l.
Qed.

Lemma own_keys_lookup h l fs k :
  h !! l = Some (OObj fs) → k ∈ own_keys h (VRef l) ↔ is_Some (fs !! k).
Proof.
  intros E. simpl. rewrite E. rewrite list_elem_of_fmap. split.
  - intros [[k' v] [-> Hin]]. apply elem_of_map_to_list in Hin. by eexists.
  - intros [v Hv]. exists (k, v). split; [done |]. by apply elem_of_map_to_list.
Qed.

Lemma own_keys_NoDup h v : NoDup (own_keys h v).
Proof.
  destruct v; try apply NoDup_nil_2. simpl.
  destruct (h !! l) as [[] |]; try apply NoDup_nil_2. apply NoDup_fst_map_to_list.
Qed.

Lemma isObject_lookup h v :
  isObject h v = true → ∃ l fs, v = VRef l ∧ h !! l = Some (OObj fs).
Proof.
  destruct v; try done. simpl. destruct (h !! l) as [[] |] eqn:E; try done. eauto.
Qed.

(** *** The loop over the keys of the patch *)

Section MergeLoop.
Context (h0 : heap) (a b : value) (out : loc).
Context (item : heap → value → value → option (value * heap)).
Context (Q : heap → value → value → value → Prop).
Hypothesis Hc : heap_closed h0.
Hypothesis Ha : value_ok h0 a.
Hypothesis Hb : value_ok h0 b.
Hypothesis Hout : length h0 ≤ out.
Hypothesis item_spec : ∀ hk av bv m hk',
  h0 `prefix_of` hk → value_ok h0 av → value_ok h0 bv →
  item hk av bv = Some (m, hk') →
  hk `prefix_of` hk' ∧
  ∀ h2, (∀ l, length hk ≤ l → l < length hk' → h2 !! l = hk' !! l) → Q h2 av bv m.

Lemma merge_keys_spec ks : NoDup ks → ∀ h fs hfin,
  h0 `prefix_of` h → h !! out = Some (OObj fs) →
  merge_keys item a b out ks h = Some hfin →
  h0 `prefix_of` hfin ∧ length h ≤ length hfin ∧
  (∀ l, l ≠ out → l < length h → hfin !! l = h !! l) ∧
  ∃ fs', hfin !! out = Some (OObj fs') ∧
    (∀ k, k ∉ ks → fs' !! k = fs !! k) ∧
    (∀ k, k ∈ ks → ∃ m, fs' !! k = Some m ∧
       ∀ h2, (∀ l, length h ≤ l → l < length hfin → h2 !! l = hfin !! l) →
             Q h2 (get_prop h0 a (KStr k)) (get_prop h0 b (KStr k)) m).
Proof.
  induction ks as [| k ks IH]; intros Hnd h fs hfin Hpre Hfs Hm.
  - injection Hm as <-. split_and!; [done | done | done |].
    exists fs. split_and!; [done | done |]. intros k Hk. by apply elem_of_nil in Hk.
  - apply NoDup_cons in Hnd as [Hk Hnd]. cbn [merge_keys] in Hm.
    rewrite !(get_prop_prefix h0 h) in Hm by done.
    destruct (item h _ _) as [[m h1] |] eqn:Ei; [| done]. cbn in Hm.
    destruct (item_spec _ _ _ _ _ Hpre (get_prop_ok _ _ _ Hc) (get_prop_ok _ _ _ Hc) Ei)
      as [Hp1 HQ].
    assert (Hlt : out < length h) by (by eapply lookup_lt_Some).
    assert (Hlen1 : length h ≤ length h1) by (by apply prefix_length).
    assert (Hfs1 : h1 !! out = Some (OObj fs)) by (by eapply prefix_lookup_Some).
    assert (Hpre1 : h0 `prefix_of` store h1 out (KStr k) m).
    { apply store_prefix; [by etrans | done]. }
    destruct (IH Hnd _ (<[k := m]> fs) _ Hpre1 (store_lookup_eq _ _ _ _ _ Hfs1) Hm)
      as (Hpf & Hlenf & Hframe & fs' & Hout' & Hother & Hin).
    rewrite store_length in Hlenf.
    assert (Hfr : ∀ l, l ≠ out → l < length h1 → hfin !! l = h1 !! l).
    { intros l Hne Hl. rewrite Hframe, store_lookup_ne; [done | done | done |].
      by rewrite store_length. }
    split_and!; [done | lia | |].
    + intros l Hne Hl. rewrite Hfr by lia.
      destruct (lookup_lt_is_Some_2 h l Hl) as [o Ho].
      rewrite Ho. by eapply prefix_lookup_Some.
    + exists fs'. split_and!; [done | |].
      * intros k' Hk'. apply not_elem_of_cons in Hk' as [Hne Hk'].
        rewrite Hother by done. by apply lookup_insert_ne.
      * intros k' Hk'. apply elem_of_cons in Hk' as [-> | Hk'].
        -- exists m. rewrite Hother by done. rewrite lookup_insert_eq. split; [done |].
           intros h2 H2. apply HQ. intros l Hl1 Hl2. rewrite H2 by lia. apply Hfr; lia.
        -- destruct (Hin _ Hk') as (m' & Hm' & HQ'). exists m'. split; [done |].
           intros h2 H2. apply HQ'. intros l Hl1 Hl2. apply H2; [| done].
           rewrite store_length in Hl1. lia.
Qed.

Lemma merge_keys_total ks :
  (∀ hk k, k ∈ ks → h0 `prefix_of` hk →
           is_Some (item hk (get_prop h0 a (KStr k)) (get_prop h0 b (KStr k)))) →
  ∀ h, h0 `prefix_of` h → is_Some (merge_keys item a b out ks h).
Proof.
  induction ks as [| k ks IH]; intros Htot h Hpre; [by eexists |].
  cbn [merge_keys]. rewrite !(get_prop_prefix h0 h) by done.
  destruct (Htot h k ltac:(by left) Hpre) as [[m h1] Ei]. rewrite Ei. cbn.
  apply IH; [intros; apply Htot; [by right | done] |]. apply store_prefix; [| done].
  etrans; [exact Hpre |].
  by destruct (item_spec _ _ _ _ _ Hpre (get_prop_ok _ _ _ Hc) (get_prop_ok _ _ _ Hc) Ei).
Qed.

(** Two ways of merging a property that agree on the keys of the loop give
    the same heap. *)
Lemma merge_keys_ext item' ks :
  (∀ hk k y, k ∈ ks → h0 `prefix_of` hk →
             item hk (get_prop h0 a (KStr k)) (get_prop h0 b (KStr k)) = Some y →
             item' hk (get_prop h0 a (KStr k)) (get_prop h0 b (KStr k)) = Some y) →
  ∀ h hfin, h0 `prefix_of` h →
    merge_keys item a b out ks h = Some hfin →
    merge_keys item' a b out ks h = Some hfin.
Proof.
  induction ks as [| k ks IH]; intros Hext h hfin Hpre Hm; [done |].
  cbn [merge_keys] in *. rewrite !(get_prop_prefix h0 h) in * by done.
  destruct (item h _ _) as [[m h1] |] eqn:Ei; [| done]. cbn in Hm.
  rewrite (Hext _ _ _ ltac:(by left) Hpre Ei). cbn.
  apply IH; [intros; apply Hext; [by right | done | done] | | done].
  apply store_prefix; [| done]. etrans; [exact Hpre |].
  by destruct (item_spec _ _ _ _ _ Hpre (get_prop_ok _ _ _ Hc) (get_prop_ok _ _ _ Hc) Ei).
Qed.

End MergeLoop.

(** What the loop leaves in [out], read back through [get_prop]. *)
Lemma merged_object leaf n h0 h h2 a b fs' :
  let out := length h in
  let nested h2 av bv m :=
    if isObject h0 av && isObject h0 bv then merged leaf n h0 h2 av bv m
    else m = leaf bv av in
  heap_closed h0 → value_ok h0 a → value_ok h0 b → h0 `prefix_of` h →
  isObject h0 a = true → isObject h0 b = true →
  h2 !! out = Some (OObj fs') →
  (∀ k, k ∉ own_keys h0 b → fs' !! k = match spread h0 a with OObj fs => fs !! k | _ => None end) →
  (∀ k, k ∈ own_keys h0 b → ∃ m, fs' !! k = Some m ∧
        nested h2 (get_prop h0 a (KStr k)) (get_prop h0 b (KStr k)) m) →
  merged leaf (S n) h0 h2 a b (VRef out).
Proof.
  intros out nested Hc Ha Hb Hpre Hoa Hob Hout Hother Hin.
  cbn [merged]. rewrite Hoa, Hob. cbn [andb].
  destruct (isObject_lookup _ _ Hoa) as (la & fa & -> & Hla).
  destruct (isObject_lookup _ _ Hob) as (lb & fb & -> & Hlb).
  cbn [spread] in Hother. rewrite Hla in Hother.
  split; [exists out; split; [done | by apply prefix_length] |].
  split; [by (cbn [isObject]; rewrite Hout) |].
  intros k. split.
  - rewrite (own_keys_lookup _ _ _ _ Hout), (own_keys_lookup _ _ _ _ Hla).
    destruct (decide (k ∈ own_keys h0 (VRef lb))) as [Hk | Hk].
    + destruct (Hin _ Hk) as (m & -> & _). split; [by right | by eexists].
    + rewrite Hother by done. split; [by left | by intros [|]].
  - cbv zeta. destruct (decide (k ∈ own_keys h0 (VRef lb))) as [Hk | Hk].
    + destruct (Hin _ Hk) as (m & Hm & HQ).
      assert (Hr : get_prop h2 (VRef out) (KStr k) = m).
      { cbn [get_prop]. rewrite Hout. cbn [read_obj prop_name]. by rewrite Hm. }
      rewrite Hr. exact HQ.
    + cbn [get_prop]. rewrite Hout, Hla. cbn [read_obj prop_name]. by rewrite Hother.
Qed.

(** *** The worker's [deepMerge] *)

Lemma deepMerge_spec n : ∀ h0 h a b r h',
  heap_closed h0 → value_ok h0 a → value_ok h0 b → h0 `prefix_of` h →
  deepMerge n h a b = Some (r, h') →
  h `prefix_of` h' ∧
  ∀ h2, (∀ l, length h ≤ l → l < length h' → h2 !! l = h' !! l) →
        merged (λ bv _, bv) n h0 h2 a b r.
Proof.
  induction n as [| n IH]; intros h0 h a b r h' Hc Ha Hb Hpre Hm; [done |].
  cbn [deepMerge] in Hm.
  rewrite !(isObject_prefix h0 h) in Hm by done.
  destruct (isObject h0 a && isObject h0 b) eqn:Eo.
  2:{ injection Hm as <- <-. split; [done |]. intros h2 _. cbn [merged]. by rewrite Eo. }
  apply andb_prop in Eo as [Hoa Hob].
  unfold alloc in Hm.
  destruct (merge_keys _ a b (length h) _ _) as [hfin |] eqn:Ek; [| done].
  injection Hm as <- <-.
  rewrite (own_keys_prefix h0 h) in Ek by done.
  assert (Hsp : (h ++ [spread h a]) !! length h = Some (spread h0 a)).
  { rewrite lookup_app_r, Nat.sub_diag by lia. cbn.
    destruct (isObject_lookup _ _ Hoa) as (la & fa & -> & Hla).
    cbn [spread]. by rewrite (prefix_lookup_Some _ _ _ _ Hla Hpre), Hla. }
  assert (Hsp' : ∃ fa, spread h0 a = OObj fa).
  { destruct (isObject_lookup _ _ Hoa) as (la & fa & -> & Hla).
    cbn [spread]. rewrite Hla. by eexists. }
  destruct Hsp' as [fa Hfa]. rewrite Hfa in Hsp.
  pose (Q := λ h2 av bv m,
          if isObject h0 av && isObject h0 bv
          then merged (λ bv _ : value, bv) n h0 h2 av bv m else m = bv).
  set (item := λ hk av bv, if isObject hk av && isObject hk bv then _ else _) in Ek.
  assert (Hitem : ∀ hk av bv m hk',
    h0 `prefix_of` hk → value_ok h0 av → value_ok h0 bv →
    item hk av bv = Some (m, hk') →
    hk `prefix_of` hk' ∧
    ∀ h2, (∀ l, length hk ≤ l → l < length hk' → h2 !! l = hk' !! l) → Q h2 av bv m).
  { intros hk av bv m hk' Hpk Hav Hbv Hi. unfold item in Hi.
    rewrite !(isObject_prefix h0 hk) in Hi by done. unfold Q.
    destruct (isObject h0 av && isObject h0 bv).
    - by apply (IH h0).
    - injection Hi as <- <-. split; [done |]. by intros. }
  assert (Hpre' : h0 `prefix_of` h ++ [spread h a]) by (etrans; [exact Hpre | by eexists]).
  destruct (merge_keys_spec h0 a b (length h) item Q Hc Ha Hb (prefix_length _ _ Hpre) Hitem
              (own_keys h0 b) (own_keys_NoDup _ _) _ fa hfin Hpre' Hsp Ek)
    as (Hpf & Hlenf & Hframe & fs' & Hout' & Hother & Hin).
  rewrite length_app in Hlenf. cbn in Hlenf.
  split.
  - apply prefix_of_lookup. intros l Hl.
    rewrite Hframe; [by apply lookup_app_l | lia | rewrite length_app; lia].
  - intros h2 H2.
    apply (merged_object _ n h0 h h2 a b fs'); try done.
    + rewrite H2 by lia. done.
    + intros k Hk. rewrite Hfa. by apply Hother.
    + intros k Hk. destruct (Hin _ Hk) as (m & Hm & HQ). exists m. split; [done |].
      apply HQ. intros l Hl1 Hl2. apply H2; [| done]. rewrite length_app in Hl1. lia.
Qed.

(** *** [deepMerge] of the main thread *)

Lemma main_deepMerge_spec n : ∀ h0 h a b r h',
  heap_closed h0 → value_ok h0 a → value_ok h0 b → h0 `prefix_of` h →
  StoreMain.deepMerge n h a b = Some (r, h') →
  h `prefix_of` h' ∧
  ∀ h2, (∀ l, length h ≤ l → l < length h' → h2 !! l = h' !! l) →
        merged coalesce n h0 h2 a b r.
Proof.
  induction n as [| n IH]; intros h0 h a b r h' Hc Ha Hb Hpre Hm; [done |].
  cbn [StoreMain.deepMerge] in Hm.
  rewrite !(isObject_prefix h0 h) in Hm by done.
  destruct (isObject h0 a) eqn:Hoa; cbn [negb] in Hm.
  2:{ injection Hm as <- <-. split; [done |]. intros h2 _. cbn [merged]. by rewrite Hoa. }
  destruct (isObject h0 b) eqn:Hob; cbn [negb] in Hm.
  2:{ injection Hm as <- <-. split; [done |]. intros h2 _. cbn [merged].
      by rewrite Hoa, Hob. }
  unfold alloc in Hm.
  destruct (merge_keys _ a b (length h) _ _) as [hfin |] eqn:Ek; [| done].
  injection Hm as <- <-.
  rewrite (own_keys_prefix h0 h) in Ek by done.
  assert (Hsp : (h ++ [spread h a]) !! length h = Some (spread h0 a)).
  { rewrite lookup_app_r, Nat.sub_diag by lia. cbn.
    destruct (isObject_lookup _ _ Hoa) as (la & fa & -> & Hla).
    cbn [spread]. by rewrite (prefix_lookup_Some _ _ _ _ Hla Hpre), Hla. }
  assert (Hsp' : ∃ fa, spread h0 a = OObj fa).
  { destruct (isObject_lookup _ _ Hoa) as (la & fa & -> & Hla).
    cbn [spread]. rewrite Hla. by eexists. }
  destruct Hsp' as [fa Hfa]. rewrite Hfa in Hsp.
  pose (Q := λ h2 av bv m,
          if isObject h0 av && isObject h0 bv
          then merged coalesce n h0 h2 av bv m else m = coalesce bv av).
  assert (Hitem : ∀ hk av bv m hk',
    h0 `prefix_of` hk → value_ok h0 av → value_ok h0 bv →
    StoreMain.deepMerge n hk av bv = Some (m, hk') →
    hk `prefix_of` hk' ∧
    ∀ h2, (∀ l, length hk ≤ l → l < length hk' → h2 !! l = hk' !! l) → Q h2 av bv m).
  { intros hk av bv m hk' Hpk Hav Hbv Hi.
    destruct (IH h0 hk av bv m hk' Hc Hav Hbv Hpk Hi) as [Hp HQ]. split; [done |].
    intros h2 H2. specialize (HQ h2 H2). unfold Q.
    destruct (isObject h0 av && isObject h0 bv) eqn:Eo; [done |].
    destruct n as [| n']; [done |]. cbn [merged] in HQ. by rewrite Eo in HQ. }
  assert (Hpre' : h0 `prefix_of` h ++ [spread h a]) by (etrans; [exact Hpre | by eexists]).
  destruct (merge_keys_spec h0 a b (length h) _ Q Hc Ha Hb (prefix_length _ _ Hpre) Hitem
              (own_keys h0 b) (own_keys_NoDup _ _) _ fa hfin Hpre' Hsp Ek)
    as (Hpf & Hlenf & Hframe & fs' & Hout' & Hother & Hin).
  rewrite length_app in Hlenf. cbn in Hlenf.
  split.
  - apply prefix_of_lookup. intros l Hl.
    rewrite Hframe; [by apply lookup_app_l | lia | rewrite length_app; lia].
  - intros h2 H2.
    apply (merged_object _ n h0 h h2 a b fs'); try done.
    + rewrite H2 by lia. done.
    + intros k Hk. rewrite Hfa. by apply Hother.
    + intros k Hk. destruct (Hin _ Hk) as (m & Hm & HQ). exists m. split; [done |].
      apply HQ. intros l Hl1 Hl2. apply H2; [| done]. rewrite length_app in Hl1. lia.
Qed.

(** *** Both return on data of finite depth *)

Lemma shallow_property n h l fs k :
  h !! l = Some (OObj fs) → shallow (S n) h (VRef l) →
  shallow n h (get_prop h (VRef l) (KStr k)) ∨ isObject h (get_prop h (VRef l) (KStr k)) = false.
Proof.
  intros E Hs. cbn [shallow] in Hs. rewrite Forall_forall in Hs.
  destruct (fs !! k) as [v |] eqn:Ek.
  - left. apply Hs. apply (own_keys_lookup _ _ _ _ E). by eexists.
  - right. cbn [get_prop]. rewrite E. cbn [read_obj prop_name]. by rewrite Ek.
Qed.

Lemma deepMerge_total n : ∀ fuel h0 h a b,
  n < fuel → heap_closed h0 → value_ok h0 a → value_ok h0 b → h0 `prefix_of` h →
  shallow n h0 a ∨ shallow n h0 b →
  is_Some (deepMerge fuel h a b).
Proof.
  induction n as [| n IH]; intros fuel h0 h a b Hf Hc Ha Hb Hpre Hs;
    (destruct fuel as [| fuel]; [lia |]); cbn [deepMerge];
    rewrite !(isObject_prefix h0 h) by done.
  - cbn [shallow] in Hs. destruct Hs as [-> | ->]; [by eexists |].
    rewrite andb_false_r. by eexists.
  - destruct (isObject h0 a && isObject h0 b) eqn:Eo; [| by eexists].
    apply andb_prop in Eo as [Hoa Hob]. unfold alloc.
    rewrite (own_keys_prefix h0 h) by done.
    match goal with |- is_Some (?m ≫= _) => assert (Hk : is_Some m) end;
      [| destruct Hk as [? ->]; by eexists].
    apply (merge_keys_total h0 a b (length h) _ (λ _ _ _ _, True) Hc Ha Hb (prefix_length _ _ Hpre)).
    + intros hk av bv m hk' Hpk Hav Hbv Hi.
      rewrite !(isObject_prefix h0 hk) in Hi by done.
      destruct (isObject h0 av && isObject h0 bv).
      * split; [| done]. by destruct (deepMerge_spec _ h0 _ _ _ _ _ Hc Hav Hbv Hpk Hi).
      * by injection Hi as <- <-.
    + intros hk k Hk Hpk.
      rewrite !(isObject_prefix h0 hk) by (done || by apply get_prop_ok).
      destruct (isObject h0 (get_prop h0 a _) && isObject h0 (get_prop h0 b _)) eqn:Eo;
        [| by eexists].
      apply andb_prop in Eo as [Hoav Hobv].
      apply (IH _ h0); [lia | done | by apply get_prop_ok | by apply get_prop_ok | done |].
      destruct (isObject_lookup _ _ Hoa) as (la & fa & -> & Hla).
      destruct (isObject_lookup _ _ Hob) as (lb & fb & -> & Hlb).
      destruct Hs as [Hs | Hs].
      * destruct (shallow_property _ _ _ _ k Hla Hs) as [? | Hn]; [by left | congruence].
      * destruct (shallow_property _ _ _ _ k Hlb Hs) as [? | Hn]; [by right | congruence].
    + etrans; [exact Hpre | by eexists].
Qed.

Lemma main_deepMerge_total n : ∀ fuel h0 h a b,
  n < fuel → heap_closed h0 → value_ok h0 a → value_ok h0 b → h0 `prefix_of` h →
  shallow n h0 a ∨ shallow n h0 b →
  is_Some (StoreMain.deepMerge fuel h a b).
Proof.
  induction n as [| n IH]; intros fuel h0 h a b Hf Hc Ha Hb Hpre Hs;
    (destruct fuel as [| fuel]; [lia |]); cbn [StoreMain.deepMerge];
    rewrite !(isObject_prefix h0 h) by done.
  - cbn [shallow] in Hs. destruct Hs as [-> | ->]; cbn [negb]; cbv iota; [by eexists |].
    destruct (isObject h0 a); cbn [negb]; cbv iota; by eexists.
  - destruct (isObject h0 a) eqn:Hoa; [| by eexists].
    destruct (isObject h0 b) eqn:Hob; [| by eexists]. cbn [negb]. unfold alloc.
    rewrite (own_keys_prefix h0 h) by done.
    match goal with |- is_Some (?m ≫= _) => assert (Hk : is_Some m) end;
      [| destruct Hk as [? ->]; by eexists].
    apply (merge_keys_total h0 a b (length h) _ (λ _ _ _ _, True) Hc Ha Hb (prefix_length _ _ Hpre)).
    + intros hk av bv m hk' Hpk Hav Hbv Hi.
      split; [| done]. by destruct (main_deepMerge_spec _ h0 _ _ _ _ _ Hc Hav Hbv Hpk Hi).
    + intros hk k Hk Hpk.
      destruct (isObject_lookup _ _ Hoa) as (la & fa & -> & Hla).
      destruct (isObject_lookup _ _ Hob) as (lb & fb & -> & Hlb).
      assert (Hcases : (shallow n h0 (get_prop h0 (VRef la) (KStr k)) ∨
                        shallow n h0 (get_prop h0 (VRef lb) (KStr k))) ∨
                       isObject h0 (get_prop h0 (VRef la) (KStr k)) = false ∨
                       isObject h0 (get_prop h0 (VRef lb) (KStr k)) = false).
      { destruct Hs as [Hs | Hs].
        - destruct (shallow_property _ _ _ _ k Hla Hs); [left; by left | right; by left].
        - destruct (shallow_property _ _ _ _ k Hlb Hs); [left; by right | right; by right]. }
      destruct Hcases as [Hsh | Hno].
      * apply (IH _ h0); [lia | done | by apply get_prop_ok | by apply get_prop_ok | done | done].
      * destruct fuel as [| fuel]; [lia |]. cbn [StoreMain.deepMerge].
        rewrite !(isObject_prefix h0 hk) by (done || by apply get_prop_ok).
        destruct Hno as [-> | ->]; cbn [negb]; cbv iota; [by eexists |].
        destruct (isObject h0 (get_prop h0 (VRef la) _)); cbn [negb]; cbv iota; by eexists.
    + etrans; [exact Hpre | by eexists].
Qed.

(** *** Where the two agree *)

Lemma main_deepMerge_S fuel h a b :
  StoreMain.deepMerge (S fuel) h a b =
  if negb (isObject h a) then Some (coalesce b a, h)
  else if negb (isObject h b) then Some (coalesce b a, h)
  else
    let '(out, h1) := alloc h (spread h a) in
    h2 ← merge_keys (StoreMain.deepMerge fuel) a b out (own_keys h b) h1;
    Some (VRef out, h2).
Proof. done. Qed.

Lemma deepMerge_agree n : ∀ h0 h a b x,
  heap_closed h0 → value_ok h0 a → value_ok h0 b → h0 `prefix_of` h →
  no_nulls n h0 a b →
  deepMerge n h a b = Some x → StoreMain.deepMerge (S n) h a b = Some x.
Proof.
  induction n as [| n IH]; intros h0 h a b x Hc Ha Hb Hpre Hnn Hm; [done |].
  cbn [deepMerge] in Hm. rewrite !(isObject_prefix h0 h) in Hm by done.
  rewrite main_deepMerge_S. rewrite !(isObject_prefix h0 h) by done.
  destruct (isObject h0 a) eqn:Hoa; cbn [andb negb] in *; [| done].
  destruct (isObject h0 b) eqn:Hob; cbn [andb negb] in *; [| done].
  unfold alloc in *.
  rewrite (own_keys_prefix h0 h) in * by done.
  destruct (merge_keys _ a b (length h) _ _) as [hfin |] eqn:Ek; [| done].
  cbn [no_nulls] in Hnn. rewrite Hoa, Hob in Hnn. specialize (Hnn eq_refl).
  rewrite Forall_forall in Hnn.
  set (item := λ hk av bv, if isObject hk av && isObject hk bv then _ else _) in Ek.
  assert (Hitem : ∀ hk av bv m hk',
    h0 `prefix_of` hk → value_ok h0 av → value_ok h0 bv →
    item hk av bv = Some (m, hk') →
    hk `prefix_of` hk' ∧
    ∀ h2 : heap, (∀ l, length hk ≤ l → l < length hk' → h2 !! l = hk' !! l) → True).
  { intros hk av bv m hk' Hpk Hav Hbv Hi. unfold item in Hi.
    rewrite !(isObject_prefix h0 hk) in Hi by done.
    destruct (isObject h0 av && isObject h0 bv).
    - split; [| done]. by destruct (deepMerge_spec _ h0 _ _ _ _ _ Hc Hav Hbv Hpk Hi).
    - by injection Hi as <- <-. }
  assert (Hext : ∀ hk k y, k ∈ own_keys h0 b → h0 `prefix_of` hk →
    item hk (get_prop h0 a (KStr k)) (get_prop h0 b (KStr k)) = Some y →
    StoreMain.deepMerge (S n) hk (get_prop h0 a (KStr k)) (get_prop h0 b (KStr k)) = Some y).
  { intros hk k y Hk Hpk Hi. specialize (Hnn k Hk). cbv zeta in Hnn. unfold item in Hi.
    rewrite !(isObject_prefix h0 hk) in Hi by (done || by apply get_prop_ok).
    destruct (isObject h0 (get_prop h0 a _) && isObject h0 (get_prop h0 b _)) eqn:Eo.
    - apply (IH h0); [done | by apply get_prop_ok | by apply get_prop_ok | done | done | done].
    - injection Hi as <-. cbn [StoreMain.deepMerge].
      rewrite !(isObject_prefix h0 hk) by (done || by apply get_prop_ok).
      unfold coalesce. rewrite Hnn.
      apply andb_false_iff in Eo as [-> | ->]; [done |].
      by destruct (isObject h0 (get_prop h0 a _)). }
  assert (Hpre' : h0 `prefix_of` h ++ [spread h a]) by (etrans; [exact Hpre | by eexists]).
  by rewrite (merge_keys_ext h0 a b (length h) item (λ _ _ _ _, True) Hc Ha Hb
                (prefix_length _ _ Hpre) Hitem (StoreMain.deepMerge (S n)) _ Hext _ _ Hpre' Ek).
Qed.

(** ** The operations keep the heap *)

(** *** Closed heaps stay closed *)

Lemma write_obj_ok h o k v : object_ok h o → value_ok h v → object_ok h (write_obj o k v).
Proof.
  intros Ho Hv. destruct o as [es ps | fs]; [destruct k as [n | s] |]; cbn [write_obj].
  - destruct Ho as [He Hp]. split; [| done]. unfold set_slot. case_decide.
    + by apply Forall_insert.
    + apply Forall_app. split; [done |]. apply Forall_app. split.
      * by apply Forall_replicate.
      * by constructor.
  - destruct Ho as [He Hp]. case_decide.
    + split; [| done]. unfold set_length. destruct (array_length v); [| done].
      by apply Forall_resize.
    + split; [done |]. by apply map_Forall_insert_2.
  - by apply map_Forall_insert_2.
Qed.

Lemma heap_closed_same_length h h' :
  length h = length h' → Forall (object_ok h) h' → heap_closed h'.
Proof.
  intros Hlen Hall. eapply Forall_impl; [exact Hall |].
  intros o. apply object_ok_mono. lia.
Qed.

Lemma store_closed h l k v : heap_closed h → value_ok h v → heap_closed (store h l k v).
Proof.
  intros Hc Hv. unfold store. destruct (h !! l) as [o |] eqn:E; [| done].
  apply (heap_closed_same_length h); [by rewrite length_insert |].
  apply Forall_insert; [done |]. apply write_obj_ok; [| done]. by eapply heap_closed_lookup.
Qed.

Lemma empty_for_ok h k : object_ok h (empty_for k).
Proof. destruct k; simpl; [split; [done |] |]; intros ? ?; by rewrite lookup_empty. Qed.

Lemma copy_for_ok h cur k : heap_closed h → object_ok h (copy_for h cur k).
Proof.
  intros Hc. destruct cur; try apply empty_for_ok. simpl.
  destruct (h !! l) as [[es ps | fs] |] eqn:E; try apply empty_for_ok.
  - destruct (heap_closed_lookup _ _ _ Hc E) as [He _]. split; [done |].
    intros ? ?. by rewrite lookup_empty.
  - apply (heap_closed_lookup _ _ _ Hc E).
Qed.

Lemma next_for_closed h cur k rest v next ha :
  heap_closed h → value_ok h v → next_for h cur k rest v = (next, ha) →
  heap_closed ha ∧ value_ok ha next.
Proof.
  intros Hc Hv. unfold next_for, alloc. destruct rest as [| k' rest]; [by intros [= <- <-] |].
  destruct (nullish (opt_get h cur k)).
  - intros [= <- <-]. split; [apply heap_closed_alloc; [done | apply empty_for_ok] |].
    simpl. rewrite length_app. simpl. lia.
  - intros [= <- <-]. split; [done | by apply opt_get_ok].
Qed.

Lemma copy_down_closed parts : ∀ h cur v h1 stack,
  heap_closed h → value_ok h v → copy_down h cur parts v = (h1, stack) → heap_closed h1.
Proof.
  induction parts as [| k rest IH]; intros h cur v h1 stack Hc Hv Hcd; cbn [copy_down] in Hcd.
  - by injection Hcd as <- <-.
  - destruct (next_for h cur k rest v) as [next ha] eqn:Hnext.
    pose proof (next_for_prefix _ _ _ _ _ _ _ Hnext) as Hha.
    destruct (next_for_closed _ _ _ _ _ _ _ Hc Hv Hnext) as [Hca Hna].
    unfold alloc in Hcd.
    destruct (copy_down _ _ rest v) as [h4 st'] eqn:Hrec.
    injection Hcd as <- <-.
    assert (Hlen : length ha ≤ length (ha ++ [copy_for ha cur k]))
      by (rewrite length_app; lia).
    eapply IH; [| | exact Hrec].
    + apply store_closed; [apply heap_closed_alloc; [done | by apply copy_for_ok] |].
      by eapply value_ok_mono.
    + eapply value_ok_mono; [| exact Hv]. rewrite store_length.
      apply prefix_length in Hha. lia.
Qed.

Lemma link_up_closed stack : ∀ h,
  heap_closed h → Forall (λ ck : nat * key, ck.1 < length h) stack →
  heap_closed (link_up h stack).
Proof.
  induction stack as [| [c k] rest IH]; intros h Hc Hall; [done |].
  destruct rest as [| [c' k'] rest']; [done |].
  rewrite link_up_cons. inversion Hall as [| ? ? _ Hrest]; subst.
  apply store_closed; [by apply IH |].
  inversion Hrest as [| ? ? Hc' _]; subst. unfold value_ok. by rewrite link_up_length.
Qed.

Lemma set_parts_closed h root parts v :
  heap_closed h → value_ok h root → value_ok h v →
  heap_closed (set_parts h root parts v).2 ∧
  value_ok (set_parts h root parts v).2 (set_parts h root parts v).1.
Proof.
  intros Hc Hroot Hv. unfold set_parts.
  destruct (copy_down h root parts v) as [h1 stack] eqn:Hcd.
  pose proof (copy_down_props _ _ _ _ _ _ Hcd) as (Hpre & _ & Hlocs).
  pose proof (copy_down_closed _ _ _ _ _ _ Hc Hv Hcd) as Hc1.
  assert (Hlt : Forall (λ ck : nat * key, ck.1 < length h1) stack).
  { eapply Forall_impl; [exact Hlocs |]. simpl. intros ? ?. lia. }
  assert (Hc2 : heap_closed (link_up h1 stack)) by (by apply link_up_closed).
  destruct stack as [| [c k] rest]; cbn [fst snd].
  - split; [done |]. eapply value_ok_mono; [| exact Hv]. by apply prefix_length.
  - split; [done |]. unfold value_ok. rewrite link_up_length. by inversion Hlt; subst.
Qed.

Lemma setAtPath_keeps h root path v :
  heap_closed h → value_ok h root → value_ok h v →
  h `prefix_of` (setAtPath h root path v).2 ∧
  heap_closed (setAtPath h root path v).2 ∧
  value_ok (setAtPath h root path v).2 (setAtPath h root path v).1.
Proof.
  intros Hc Hroot Hv. unfold setAtPath. split; [| by apply set_parts_closed].
  unfold set_parts.
  destruct (copy_down h root (splitPath path) v) as [h1 stack] eqn:Hcd.
  pose proof (copy_down_props _ _ _ _ _ _ Hcd) as (Hpre & _ & Hlocs).
  assert (Hlink : h `prefix_of` link_up h1 stack).
  { apply link_up_prefix; [done |]. eapply Forall_impl; [exact Hlocs |]. simpl. intros ? ?. lia. }
  by destruct stack as [| [c k] rest].
Qed.

Lemma get_parts_ok h parts : ∀ cur,
  heap_closed h → value_ok h cur → value_ok h (get_parts h cur parts).
Proof.
  induction parts as [| k rest IH]; intros cur Hc Hok; simpl; [done |].
  destruct (nullish cur); [done |]. apply IH; [done |]. by apply get_prop_ok.
Qed.

Lemma deleteAtPath_keeps h root path :
  heap_closed h → value_ok h root →
  h `prefix_of` (deleteAtPath h root path).2 ∧
  heap_closed (deleteAtPath h root path).2 ∧
  value_ok (deleteAtPath h root path).2 (deleteAtPath h root path).1.
Proof.
  intros Hc Hroot. unfold deleteAtPath.
  destruct (splitPath path) as [| k0 parts0] eqn:Hparts; [done |].
  set (parentPath := join_dot _). set (parent := if decide _ then _ else _).
  set (lst := List.last _ _).
  destruct (nullish parent); [done |]. unfold alloc.
  set (o := remove_key (shallow_copy h parent) lst).
  assert (Ho : object_ok h o) by (by apply remove_key_ok, shallow_copy_ok).
  assert (Hc1 : heap_closed (h ++ [o])) by (by apply heap_closed_alloc).
  assert (Hlen : length h < length (h ++ [o])) by (rewrite length_app; simpl; lia).
  destruct (decide (parentPath = EmptyString)).
  - simpl. split; [by eexists | done].
  - destruct (setAtPath_keeps (h ++ [o]) root parentPath (VRef (length h)) Hc1)
      as (Hp & Hc2 & Hv2); [eapply value_ok_mono; [| exact Hroot]; lia | done |].
    split; [etrans; [| exact Hp]; by eexists | done].
Qed.

(** *** [deepMerge] keeps the heap closed *)

Lemma merge_keys_closed item a b out ks :
  (∀ hk av bv m hk', heap_closed hk → value_ok hk av → value_ok hk bv →
     item hk av bv = Some (m, hk') →
     heap_closed hk' ∧ value_ok hk' m ∧ length hk ≤ length hk') →
  ∀ h hfin, heap_closed h → value_ok h a → value_ok h b →
    merge_keys item a b out ks h = Some hfin →
    heap_closed hfin ∧ length h ≤ length hfin.
Proof.
  intros Hitem. induction ks as [| k ks IH]; intros h hfin Hc Ha Hb Hm.
  - by injection Hm as <-.
  - cbn [merge_keys] in Hm.
    destruct (item h _ _) as [[m h1] |] eqn:Ei; [| done]. cbn in Hm.
    destruct (Hitem _ _ _ _ _ Hc (get_prop_ok _ _ _ Hc) (get_prop_ok _ _ _ Hc) Ei)
      as (Hc1 & Hm1 & Hlen1).
    destruct (IH _ hfin (store_closed _ out (KStr k) _ Hc1 Hm1)) as [Hcf Hlenf]; [| | done |].
    + eapply value_ok_mono; [| exact Ha]. by rewrite store_length.
    + eapply value_ok_mono; [| exact Hb]. by rewrite store_length.
    + split; [done |]. rewrite store_length in Hlenf. lia.
Qed.

Lemma coalesce_ok h a b : value_ok h a → value_ok h b → value_ok h (coalesce b a).
Proof. unfold coalesce. by destruct (nullish b). Qed.

Lemma deepMerge_closed n : ∀ h a b r h',
  heap_closed h → value_ok h a → value_ok h b →
  deepMerge n h a b = Some (r, h') →
  heap_closed h' ∧ value_ok h' r ∧ length h ≤ length h'.
Proof.
  induction n as [| n IH]; intros h a b r h' Hc Ha Hb Hm; [done |].
  cbn [deepMerge] in Hm.
  destruct (isObject h a && isObject h b).
  2:{ injection Hm as <- <-. split; [done |]. split; [by apply coalesce_ok | done]. }
  unfold alloc in Hm.
  destruct (merge_keys _ a b (length h) _ _) as [hfin |] eqn:Ek; [| done].
  injection Hm as <- <-.
  assert (Hlen : length h < length (h ++ [spread h a])) by (rewrite length_app; simpl; lia).
  apply merge_keys_closed in Ek as [Hcf Hlenf].
  - split; [done |]. simpl. lia.
  - intros hk av bv m hk' Hck Hav Hbv Hi.
    destruct (isObject hk av && isObject hk bv); [by apply (IH hk av bv) |].
    by injection Hi as <- <-.
  - apply heap_closed_alloc; [done | by apply spread_ok].
  - eapply value_ok_mono; [| exact Ha]. lia.
  - eapply value_ok_mono; [| exact Hb]. lia.
Qed.

(** *** [op:add] and [op:remove] *)

Lemma elems_of_prefix h h' v :
  h `prefix_of` h' → value_ok h v → elems_of h' v = elems_of h v.
Proof.
  intros [ext ->] Hok. destruct v; try done. simpl in *. by rewrite lookup_app_l.
Qed.

Lemma elems_of_ok h v es : heap_closed h → elems_of h v = Some es → Forall (slot_ok h) es.
Proof.
  intros Hc. destruct v; try done. simpl.
  destruct (h !! l) as [[es' ps | fs] |] eqn:E; try done. intros [= <-].
  by destruct (heap_closed_lookup _ _ _ Hc E).
Qed.

Lemma alloc_array_keeps h es :
  heap_closed h → Forall (slot_ok h) es →
  let h1 := h ++ [OArr es ∅] in
  h `prefix_of` h1 ∧ heap_closed h1 ∧ value_ok h1 (VRef (length h)) ∧
  elems_of h1 (VRef (length h)) = Some es.
Proof.
  intros Hc Hes h1. split; [by eexists |]. split; [| split].
  - apply heap_closed_alloc; [done |]. split; [done |]. intros ? ?. by rewrite lookup_empty.
  - simpl. unfold h1. rewrite length_app. simpl. lia.
  - simpl. unfold h1. by rewrite lookup_app_r, Nat.sub_diag by lia.
Qed.

Lemma add_item_keeps h arr item :
  heap_closed h → value_ok h arr → value_ok h item →
  h `prefix_of` (add_item h arr item).2 ∧ heap_closed (add_item h arr item).2 ∧
  value_ok (add_item h arr item).2 (add_item h arr item).1 ∧
  match elems_of h arr with
  | Some es =>
      if decide (Some item ∈ es) then (add_item h arr item).1 = arr
      else elems_of (add_item h arr item).2 (add_item h arr item).1
           = Some (dense es ++ [Some item])
  | None => elems_of (add_item h arr item).2 (add_item h arr item).1 = Some [Some item]
  end.
Proof.
  intros Hc Harr Hitem. unfold add_item, alloc.
  destruct (elems_of h arr) as [es |] eqn:Ees.
  - destruct (decide (Some item ∈ es)); [done |]. simpl.
    apply alloc_array_keeps; [done |]. apply Forall_app. split; [| by constructor].
    unfold dense. apply Forall_fmap, Forall_forall. intros [v |] Hv; simpl; [| done].
    pose proof (elems_of_ok _ _ _ Hc Ees) as Hes. rewrite Forall_forall in Hes.
    by apply (Hes (Some v)).
  - simpl. apply alloc_array_keeps; [done |]. by constructor.
Qed.

Lemma remove_item_keeps h arr item :
  heap_closed h → value_ok h arr →
  h `prefix_of` (remove_item h arr item).2 ∧ heap_closed (remove_item h arr item).2 ∧
  value_ok (remove_item h arr item).2 (remove_item h arr item).1 ∧
  match elems_of h arr with
  | Some es =>
      elems_of (remove_item h arr item).2 (remove_item h arr item).1
      = Some (Some <$> filter (λ x, x ≠ item) (omap id es))
  | None => (remove_item h arr item).1 = arr
  end.
Proof.
  intros Hc Harr. unfold remove_item, alloc.
  destruct (elems_of h arr) as [es |] eqn:Ees; [| done]. simpl.
  apply alloc_array_keeps; [done |].
  apply Forall_fmap, Forall_forall. intros v Hv. simpl.
  apply list_elem_of_filter in Hv as [_ Hv]. apply list_elem_of_omap in Hv as (e & He & Hev).
  destruct e as [v' |]; [| done]. injection Hev as ->.
  pose proof (elems_of_ok _ _ _ Hc Ees) as Hes. rewrite Forall_forall in Hes.
  by apply (Hes (Some v)).
Qed.

(** Reading the path that was just set, in the heap after the call. *)
Lemma get_after_set h root path v :
  heap_closed h → value_ok h root → data_path path →
  getAtPath (setAtPath h root path v).2 (setAtPath h root path v).1 path = v.
Proof.
  intros Hc Hroot Hdata. unfold setAtPath, getAtPath.
  destruct (set_parts_spec h root (splitPath path) v Hc Hroot (splitPath_nonempty path) Hdata)
    as (c & h' & -> & _ & Hspine).
  simpl. by eapply get_spine.
Qed.

Lemma op_add_keeps h s path item :
  heap_closed h → value_ok h s → value_ok h item →
  let r := op_add h s path item in
  h `prefix_of` r.2 ∧ heap_closed r.2 ∧ value_ok r.2 r.1.
Proof.
  intros Hc Hs Hitem r. unfold r, op_add.
  assert (Harr : value_ok h (getAtPath h s path)) by (by apply get_parts_ok).
  pose proof (add_item_keeps h _ item Hc Harr Hitem) as (Hp1 & Hc1 & Hv1 & _).
  destruct (add_item h (getAtPath h s path) item) as [next h1]. simpl in *.
  assert (Hs1 : value_ok h1 s) by (eapply value_ok_mono; [by apply prefix_length | done]).
  destruct (setAtPath_keeps h1 s path next Hc1 Hs1 Hv1) as (Hp2 & Hc2 & Hv2).
  split; [by etrans |]. by split.
Qed.

Lemma op_add_spec h s path item :
  heap_closed h → value_ok h s → value_ok h item → data_path path →
  let r := op_add h s path item in
  match elems_of h (getAtPath h s path) with
  | Some es =>
      if decide (Some item ∈ es) then getAtPath r.2 r.1 path = getAtPath h s path
      else elems_of r.2 (getAtPath r.2 r.1 path) = Some (dense es ++ [Some item])
  | None => elems_of r.2 (getAtPath r.2 r.1 path) = Some [Some item]
  end.
Proof.
  intros Hc Hs Hitem Hdata r. unfold r, op_add.
  assert (Harr : value_ok h (getAtPath h s path)) by (by apply get_parts_ok).
  pose proof (add_item_keeps h _ item Hc Harr Hitem) as (Hp1 & Hc1 & Hv1 & Hcontent).
  destruct (add_item h (getAtPath h s path) item) as [next h1]. simpl in *.
  assert (Hs1 : value_ok h1 s) by (eapply value_ok_mono; [by apply prefix_length | done]).
  destruct (setAtPath_keeps h1 s path next Hc1 Hs1 Hv1) as (Hp2 & Hc2 & Hv2).
  rewrite (get_after_set h1 s path next Hc1 Hs1 Hdata).
  destruct (elems_of h (getAtPath h s path)) as [es |].
  - destruct (decide (Some item ∈ es)); [done |].
    by rewrite (elems_of_prefix h1 _ next Hp2 Hv1).
  - by rewrite (elems_of_prefix h1 _ next Hp2 Hv1).
Qed.

Lemma op_remove_keeps h s path item :
  heap_closed h → value_ok h s →
  let r := op_remove h s path item in
  h `prefix_of` r.2 ∧ heap_closed r.2 ∧ value_ok r.2 r.1.
Proof.
  intros Hc Hs r. unfold r, op_remove.
  assert (Harr : value_ok h (getAtPath h s path)) by (by apply get_parts_ok).
  pose proof (remove_item_keeps h _ item Hc Harr) as (Hp1 & Hc1 & Hv1 & _).
  destruct (remove_item h (getAtPath h s path) item) as [next h1]. simpl in *.
  assert (Hs1 : value_ok h1 s) by (eapply value_ok_mono; [by apply prefix_length | done]).
  destruct (setAtPath_keeps h1 s path next Hc1 Hs1 Hv1) as (Hp2 & Hc2 & Hv2).
  split; [by etrans |]. by split.
Qed.

Lemma op_remove_spec h s path item :
  heap_closed h → value_ok h s → data_path path →
  let r := op_remove h s path item in
  match elems_of h (getAtPath h s path) with
  | Some es =>
      elems_of r.2 (getAtPath r.2 r.1 path)
      = Some (Some <$> filter (λ x, x ≠ item) (omap id es))
  | None => getAtPath r.2 r.1 path = getAtPath h s path
  end.
Proof.
  intros Hc Hs Hdata r. unfold r, op_remove.
  assert (Harr : value_ok h (getAtPath h s path)) by (by apply get_parts_ok).
  pose proof (remove_item_keeps h _ item Hc Harr) as (Hp1 & Hc1 & Hv1 & Hcontent).
  destruct (remove_item h (getAtPath h s path) item) as [next h1]. simpl in *.
  assert (Hs1 : value_ok h1 s) by (eapply value_ok_mono; [by apply prefix_length | done]).
  destruct (setAtPath_keeps h1 s path next Hc1 Hs1 Hv1) as (Hp2 & Hc2 & Hv2).
  rewrite (get_after_set h1 s path next Hc1 Hs1 Hdata).
  destruct (elems_of h (getAtPath h s path)) as [es |]; [| done].
  by rewrite (elems_of_prefix h1 _ next Hp2 Hv1).
Qed.

Lemma arrives_not_held h v es l :
  elems_of h v = Some es → arrives h (VRef l) → Some (VRef l) ∉ es.
Proof.
  destruct v as [| | | | | l0]; try done. simpl.
  destruct (h !! l0) as [[es' ps | fs] |] eqn:E; try done. intros [= <-] Harr Hin.
  pose proof (Forall_lookup_1 _ _ _ _ Harr E) as Hno. apply Hno. simpl.
  apply elem_of_app. left. apply list_elem_of_omap. by exists (Some (VRef l)).
Qed.

(** *** [pickKeys] *)

Lemma pick_loop h obj paths : value_ok h obj → ∀ fs,
  foldl (λ hk path, store hk (length h) (KStr (top_of path))
                          (get_prop hk obj (key_of_name (top_of path))))
        (h ++ [OObj fs]) paths
  = h ++ [OObj (foldl (λ fs path, <[top_of path := get_prop h obj (key_of_name (top_of path))]> fs)
                      fs paths)].
Proof.
  intros Hobj. induction paths as [| path paths IH]; intros fs; [done |].
  cbn [foldl]. rewrite <- IH. f_equal.
  rewrite (get_prop_prefix h) by (done || by eexists).
  unfold store. rewrite lookup_app_r, Nat.sub_diag by lia. cbn.
  rewrite insert_app_r_alt, Nat.sub_diag by lia. done.
Qed.

Lemma pick_fields (f : string → value) paths : ∀ (fs : gmap string value) k,
  foldl (λ fs path, <[top_of path := f (top_of path)]> fs) fs paths !! k
  = if decide (k ∈ tops paths) then Some (f k) else fs !! k.
Proof.
  induction paths as [| path paths IH]; intros fs k; cbn [foldl tops fmap list_fmap].
  - by rewrite decide_False by apply not_elem_of_nil.
  - rewrite IH. fold (tops paths). destruct (decide (k ∈ tops paths)) as [Hin | Hin].
    + by rewrite decide_True by (by right).
    + destruct (decide (k = top_of path)) as [-> | Hne].
      * rewrite decide_True by (by left). by rewrite lookup_insert_eq.
      * rewrite decide_False by (intros [? | ?]%elem_of_cons; done).
        by rewrite lookup_insert_ne.
Qed.

Lemma pickKeys_spec h obj paths :
  value_ok h obj → nullish obj = false →
  ∃ fs, pickKeys h obj paths = Some (VRef (length h), h ++ [OObj fs]) ∧
        ∀ k, fs !! k = if decide (k ∈ tops paths) then Some (get_prop h obj (key_of_name k))
                       else None.
Proof.
  intros Hobj Hnn. unfold pickKeys, alloc. rewrite Hnn.
  exists (foldl (λ fs path, <[top_of path := get_prop h obj (key_of_name (top_of path))]> fs)
                ∅ paths).
  split.
  - destruct paths as [| path paths]; [done |]. by rewrite (pick_loop h obj _ Hobj).
  - intros k. rewrite (pick_fields (λ t, get_prop h obj (key_of_name t))).
    destruct (decide (k ∈ tops paths)); [done | apply lookup_empty].
Qed.

Lemma pickKeys_keeps h obj paths r h' :
  heap_closed h → value_ok h obj → pickKeys h obj paths = Some (r, h') →
  h `prefix_of` h' ∧ heap_closed h' ∧ value_ok h' r.
Proof.
  intros Hc Hobj Hp.
  assert (Hgen : ∀ fs, map_Forall (λ _, value_ok h) fs →
            h `prefix_of` h ++ [OObj fs] ∧ heap_closed (h ++ [OObj fs]) ∧
            value_ok (h ++ [OObj fs]) (VRef (length h))).
  { intros fs Hfs. split; [by eexists |]. split; [by apply heap_closed_alloc |].
    simpl. rewrite length_app. simpl. lia. }
  destruct paths as [| path paths].
  - injection Hp as <- <-. apply Hgen. intros ? ?. by rewrite lookup_empty.
  - destruct (nullish obj) eqn:Hnn.
    + unfold pickKeys, alloc in Hp. by rewrite Hnn in Hp.
    + destruct (pickKeys_spec h obj (path :: paths) Hobj Hnn) as (fs & E & Hfs).
      rewrite E in Hp. injection Hp as <- <-. apply Hgen.
      intros k v Hk. rewrite Hfs in Hk. case_decide; [| done].
      injection Hk as <-. by apply get_prop_ok.
Qed.

(** *** The listener *)

Section ListenerFacts.
Context (stringify : heap → value → option string).

Lemma run_keeps j w :
  worker_ok w → value_ok (mem w) j.1.1 →
  let w' := run stringify j w in
  worker_ok w' ∧ mem w `prefix_of` mem w' ∧ posted w `prefix_of` posted w' ∧
  STATE w' = STATE w ∧ NAME w' = NAME w ∧ PERSIST w' = PERSIST w ∧
  persistTimer w' = persistTimer w.
Proof.
  intros (Hc & Hs & Ht) Hj. destruct j as [[state p] name]. cbn [fst] in Hj.
  unfold run.
  set (picked := match keys p with Some (k :: ks) => _ | _ => _ end).
  assert (Hpick : ∀ toSave h1, picked = Some (toSave, h1) →
            mem w `prefix_of` h1 ∧ heap_closed h1 ∧ value_ok h1 toSave).
  { intros toSave h1. unfold picked. destruct (keys p) as [[| k ks] |].
    - by intros [= <- <-].
    - apply pickKeys_keeps; done.
    - by intros [= <- <-]. }
  destruct picked as [[toSave h1] |]; [| by split_and!].
  destruct (Hpick _ _ eq_refl) as (Hp1 & Hc1 & Hv1). clear Hpick.
  set (fields := match version p with Some v => _ | None => _ end). unfold alloc.
  assert (Hf : object_ok h1 (OObj fields)).
  { unfold fields. intros k v Hk.
    destruct (version p) as [n |]; [case_decide |].
    - apply lookup_singleton_Some in Hk as [_ <-]. done.
    - apply lookup_insert_Some in Hk as [[_ <-] | [_ Hk]]; [done |].
      apply lookup_singleton_Some in Hk as [_ <-]. done.
    - apply lookup_singleton_Some in Hk as [_ <-]. done. }
  assert (Hc2 : heap_closed (h1 ++ [OObj fields])) by (by apply heap_closed_alloc).
  assert (Hp2 : mem w `prefix_of` h1 ++ [OObj fields]) by (etrans; [exact Hp1 | by eexists]).
  assert (Hok : worker_ok (with_mem (h1 ++ [OObj fields]) w)).
  { split; [done |]. cbn. split.
    - eapply value_ok_mono; [by apply prefix_length | done].
    - destruct (persistTimer w); [| done].
      eapply value_ok_mono; [by apply prefix_length | done]. }
  destruct (stringify _ _) as [payload |]; cbv zeta.
  - destruct (backend p); (split; [exact Hok |]); split_and!; try done; cbn; by eexists.
  - split; [exact Hok |]. by split_and!.
Qed.

Lemma postState_keeps w :
  worker_ok w →
  let w' := postState stringify w in
  worker_ok w' ∧ mem w `prefix_of` mem w' ∧ posted w `prefix_of` posted w' ∧
  STATE w' = STATE w ∧ NAME w' = NAME w ∧ PERSIST w' = PERSIST w.
Proof.
  intros Hw. unfold postState.
  assert (Hw1 : worker_ok (post (OState (STATE w)) w)) by done.
  assert (Hpp : posted w `prefix_of` posted (post (OState (STATE w)) w)) by (by eexists).
  destruct (PERSIST w) as [p |] eqn:Ep; cbv zeta.
  2:{ split; [exact Hw1 |]. by split_and!. }
  unfold persistSave. case_decide.
  - destruct Hw as (Hc & Hs & _). split; [by split_and! |]. by split_and!.
  - destruct (run_keeps (STATE w, p, NAME w) _ Hw1) as (H1 & H2 & H3 & H4 & H5 & H6 & _);
      [by destruct Hw as (_ & ? & _) |].
    split; [exact H1 |]. split; [exact H2 |]. split; [by etrans |].
    split; [exact H4 |]. split; [exact H5 | by rewrite H6].
Qed.

Lemma assign_ok r w :
  worker_ok w → mem w `prefix_of` r.2 → heap_closed r.2 → value_ok r.2 r.1 →
  worker_ok (assign r w).
Proof.
  intros (_ & _ & Ht) Hp Hc Hv. split; [done |]. split; [done |]. cbn.
  destruct (persistTimer w); [| done].
  eapply value_ok_mono; [by apply prefix_length | done].
Qed.

Lemma on_message_keeps fuel msg w :
  worker_ok w → msg_ok (mem w) msg →
  let w' := on_message stringify fuel msg w in
  worker_ok w' ∧ mem w `prefix_of` mem w' ∧ posted w `prefix_of` posted w' ∧
  NAME w' = NAME w ∧ PERSIST w' = PERSIST w.
Proof.
  intros Hw Hmsg.
  assert (Hstep : ∀ r, mem w `prefix_of` r.2 → heap_closed r.2 → value_ok r.2 r.1 →
            let w' := postState stringify (assign r w) in
            worker_ok w' ∧ mem w `prefix_of` mem w' ∧ posted w `prefix_of` posted w' ∧
            NAME w' = NAME w ∧ PERSIST w' = PERSIST w).
  { intros r Hp Hc Hv.
    destruct (postState_keeps (assign r w) (assign_ok r w Hw Hp Hc Hv))
      as (H1 & H2 & H3 & _ & H5 & H6).
    cbv zeta. split; [exact H1 |]. split; [by etrans |]. split; [exact H3 |].
    split; [exact H5 | exact H6]. }
  destruct Hw as (Hc & Hs & Ht).
  destruct msg as [| path v | patch | path item | path item | path];
    cbn [on_message msg_ok] in *.
  - destruct (postState_keeps w) as (H1 & H2 & H3 & _ & H5 & H6); [done |].
    cbv zeta. split; [exact H1 |]. split; [exact H2 |]. split; [exact H3 |].
    split; [exact H5 | exact H6].
  - destruct (setAtPath_keeps _ _ path v Hc Hs Hmsg) as (Hp & Hc' & Hv'). by apply Hstep.
  - destruct (deepMerge fuel (mem w) (STATE w) patch) as [[r h'] |] eqn:Em.
    + destruct (deepMerge_closed _ _ _ _ _ _ Hc Hs Hmsg Em) as (Hc' & Hv' & _).
      destruct (deepMerge_spec _ _ _ _ _ _ _ Hc Hs Hmsg ltac:(done) Em) as [Hp _].
      by apply (Hstep (r, h')).
    + cbv zeta. split; [done |]. split_and!; try done. by eexists.
  - destruct (op_add_keeps _ _ path item Hc Hs Hmsg) as (Hp & Hc' & Hv'). by apply Hstep.
  - destruct (op_remove_keeps _ _ path item Hc Hs) as (Hp & Hc' & Hv'). by apply Hstep.
  - destruct (deleteAtPath_keeps _ _ path Hc Hs) as (Hp & Hc' & Hv'). by apply Hstep.
Qed.

Lemma fire_timer_keeps w :
  worker_ok w →
  let w' := fire_timer stringify w in
  worker_ok w' ∧ mem w `prefix_of` mem w' ∧ posted w `prefix_of` posted w'.
Proof.
  intros Hw. unfold fire_timer. destruct (persistTimer w) as [j |] eqn:Et; [| done].
  destruct Hw as (Hc & Hs & Ht). rewrite Et in Ht.
  destruct (run_keeps j (with_timer None w)) as (H1 & H2 & H3 & _); [done | done |].
  cbv zeta. split; [exact H1 |]. by split.
Qed.

Lemma msg_ok_mono h h' msg : length h ≤ length h' → msg_ok h msg → msg_ok h' msg.
Proof. intros Hlen. destruct msg; simpl; try done; by apply value_ok_mono. Qed.

Lemma handle_all_keep fuel evs : ∀ w,
  worker_ok w → Forall (event_ok (mem w)) evs →
  let w' := foldl (λ w ev, handle stringify fuel ev w) w evs in
  worker_ok w' ∧ mem w `prefix_of` mem w' ∧ posted w `prefix_of` posted w'.
Proof.
  induction evs as [| ev evs IH]; intros w Hw Hall; cbn [foldl]; [done |].
  inversion Hall as [| ? ? Hev Hrest]; subst.
  assert (H1 : worker_ok (handle stringify fuel ev w) ∧
               mem w `prefix_of` mem (handle stringify fuel ev w) ∧
               posted w `prefix_of` posted (handle stringify fuel ev w)).
  { destruct ev as [msg |]; cbn [handle].
    - destruct (on_message_keeps fuel msg w Hw Hev) as (? & ? & ? & _). done.
    - by apply fire_timer_keeps. }
  destruct H1 as (Hw1 & Hp1 & Hpp1).
  destruct (IH _ Hw1) as (Hw2 & Hp2 & Hpp2).
  { eapply Forall_impl; [exact Hrest |]. intros [m |]; [| done].
    apply msg_ok_mono. by apply prefix_length. }
  split; [done |]. split; by etrans.
Qed.

(** With a delay, the listener answers and leaves the save to the timer. *)
Lemma on_message_debounced fuel msg w p :
  PERSIST w = Some p → (0 < debounceMs p)%N →
  let w' := on_message stringify fuel msg w in
  idb_saves w' = idb_saves w ∧
  (posted w' = posted w ++ [OState (STATE w')] ∧
   persistTimer w' = Some (STATE w', p, NAME w)
   ∨ posted w' = posted w ++ [OError] ∧ STATE w' = STATE w ∧
     persistTimer w' = persistTimer w).
Proof.
  intros Ep Hd.
  assert (Hpost : ∀ w0, PERSIST w0 = Some p → NAME w0 = NAME w →
            postState stringify w0 =
            with_timer (Some (STATE w0, p, NAME w)) (post (OState (STATE w0)) w0)).
  { intros w0 E0 En. unfold postState, persistSave. rewrite E0, En.
    by rewrite decide_True by done. }
  destruct msg as [| path v | patch | path item | path item | path]; cbn [on_message];
    try (rewrite Hpost by done; split; [done | by left]).
  destruct (deepMerge fuel (mem w) (STATE w) patch) as [r |].
  - rewrite Hpost by done. split; [done | by left].
  - split; [done | by right].
Qed.

Lemma on_messages_debounced fuel p msgs : ∀ w,
  PERSIST w = Some p → (0 < debounceMs p)%N →
  let w' := foldl (λ w msg, on_message stringify fuel msg w) w msgs in
  idb_saves w' = idb_saves w ∧ NAME w' = NAME w ∧ PERSIST w' = PERSIST w ∧
  ∃ answers, posted w' = posted w ++ answers ∧ length answers = length msgs ∧
             Forall answer answers ∧
             if decide (Forall (λ o, o = OError) answers)
             then STATE w' = STATE w ∧ persistTimer w' = persistTimer w
             else persistTimer w' = Some (STATE w', p, NAME w).
Proof.
  induction msgs as [| msg msgs IH]; intros w Ep Hd; cbn [foldl].
  - split; [done |]. split; [done |]. split; [done |]. exists [].
    rewrite app_nil_r. split; [done |]. split; [done |]. split; [done |].
    by rewrite decide_True by done.
  - destruct (on_message_debounced fuel msg w p Ep Hd) as [Hidb Hcase].
    set (w1 := on_message stringify fuel msg w) in *.
    assert (Hn1 : NAME w1 = NAME w ∧ PERSIST w1 = PERSIST w).
    { unfold w1. destruct msg; cbn [on_message]; unfold postState, persistSave;
        cbn [PERSIST NAME assign post]; rewrite ?Ep, ?decide_True by done; try done.
      destruct (deepMerge _ _ _ _); cbn [PERSIST NAME assign post];
        rewrite ?Ep, ?decide_True by done; done. }
    destruct Hn1 as [Hn1 Hp1].
    destruct (IH w1) as (Hidb2 & Hn2 & Hp2 & answers & Hposted & Hlen & Hans & Hlast);
      [by rewrite Hp1 | done |].
    split; [by rewrite Hidb2 |]. split; [by rewrite Hn2 |]. split; [by rewrite Hp2 |].
    destruct Hcase as [[Hpo Ht] | (Hpo & Hst & Ht)].
    + exists (OState (STATE w1) :: answers).
      split; [by rewrite Hposted, Hpo, <- app_assoc |]. split; [simpl; lia |].
      split; [constructor; [right; by eexists | done] |].
      rewrite decide_False by (intros Hall; by inversion Hall).
      destruct (decide (Forall (λ o, o = OError) answers)).
      * destruct Hlast as [-> ->]. by rewrite Ht.
      * by rewrite Hlast, Hn1.
    + exists (OError :: answers).
      split; [by rewrite Hposted, Hpo, <- app_assoc |]. split; [simpl; lia |].
      split; [constructor; [by left | done] |].
      destruct (decide (Forall (λ o, o = OError) answers)) as [Ha | Ha].
      * rewrite decide_True by (by constructor). destruct Hlast as [-> ->]. done.
      * rewrite decide_False by (intros Hall; by inversion Hall). by rewrite Hlast, Hn1.
Qed.

End ListenerFacts.

(** ** What the operations do *)

(** The state [{a: 1, n: {x: 2}}] at address 0 and the patch
    [{n: {y: 3, x: null}, b: null}] at address 2. *)
Definition merge_heap : list object :=
  [OObj {[ "a"%string := VNum 1; "n"%string := VRef 1 ]};
   OObj {[ "x"%string := VNum 2 ]};
   OObj {[ "n"%string := VRef 3; "b"%string := VNull ]};
   OObj {[ "y"%string := VNum 3; "x"%string := VNull ]}].

(** The same state and the patch [{n: {y: 3}, c: 5}]. *)
Definition patch_heap : list object :=
  [OObj {[ "a"%string := VNum 1; "n"%string := VRef 1 ]};
   OObj {[ "x"%string := VNum 2 ]};
   OObj {[ "n"%string := VRef 3; "c"%string := VNum 5 ]};
   OObj {[ "y"%string := VNum 3 ]}].

(** Persist in [localStorage], written 300 ms after the last change. *)
Definition sample_persist : NormalizedPersist :=
  {| backend := LocalStorage; namespace := Some "shop"%string; version := None;
     debounceMs := 300; keys := None |}.

(** A worker whose state is [{a: [1, 2, 3]}]. *)
Definition sample_worker : worker :=
  {| NAME := "cart"; STATE := VRef 1; PERSIST := Some sample_persist; mem := sample_heap;
     posted := []; persistTimer := None; idb_saves := [] |}.

(** A [JSON.stringify] that always yields the same text. *)
Definition sample_stringify (h : list object) (v : value) : option string :=
  Some "{}"%string.

(** X18.  Where no object has an own key that a prototype defines as well,
    [deepMerge] of the worker changes no object that existed before the
    call, and its result is the merge of [a] and [b]: a new object with the
    keys of both when both are plain objects, where a key of [b] holds
    [b]'s property (also when that is [null], [undefined] or an array)
    unless both properties are plain objects, which are merged in the same
    way; [b ?? a] when one of the two is not a plain object. *)
Theorem worker_deepMerge_result n h a b r h' :
  heap_closed h → data_heap h → value_ok h a → value_ok h b →
  deepMerge n h a b = Some (r, h') →
  h `prefix_of` h' ∧ merged (λ bv _, bv) n h h' a b r.
Proof.
  intros Hc _ Ha Hb Hm.
  destruct (deepMerge_spec n h h a b r h' Hc Ha Hb ltac:(done) Hm) as [Hp Hs].
  split; [done |]. by apply Hs.
Qed.

Lemma worker_deepMerge_result_witness :
  heap_closed merge_heap ∧ data_heap merge_heap ∧
  value_ok merge_heap (VRef 0) ∧ value_ok merge_heap (VRef 2) ∧
  ∃ r h', deepMerge 3 merge_heap (VRef 0) (VRef 2) = Some (r, h') ∧
          merge_heap `prefix_of` h' ∧
          merged (λ bv _, bv) 3 merge_heap h' (VRef 0) (VRef 2) r.
Proof.
  split; [compute_it |]. split; [compute_it |]. split; [simpl; lia |]. split; [simpl; lia |].
  destruct (deepMerge 3 merge_heap (VRef 0) (VRef 2)) as [[r h'] |] eqn:E;
    [| by vm_compute in E].
  exists r, h'. split; [done |].
  apply (worker_deepMerge_result 3 merge_heap (VRef 0) (VRef 2) r h').
  - compute_it.
  - compute_it.
  - simpl; lia.
  - simpl; lia.
  - exact E.
Defined.

(** X19.  Where no object has an own key that a prototype defines as well,
    [deepMerge] of the main thread changes no object that existed before
    the call, and merges like the worker's except where one of two
    properties is not a plain object: there the result holds [bv ?? av], so
    a [null] or [undefined] in the patch keeps the old value. *)
Theorem main_deepMerge_result n h a b r h' :
  heap_closed h → data_heap h → value_ok h a → value_ok h b →
  StoreMain.deepMerge n h a b = Some (r, h') →
  h `prefix_of` h' ∧ merged coalesce n h h' a b r.
Proof.
  intros Hc _ Ha Hb Hm.
  destruct (main_deepMerge_spec n h h a b r h' Hc Ha Hb ltac:(done) Hm) as [Hp Hs].
  split; [done |]. by apply Hs.
Qed.

Lemma main_deepMerge_result_witness :
  heap_closed merge_heap ∧ data_heap merge_heap ∧
  value_ok merge_heap (VRef 0) ∧ value_ok merge_heap (VRef 2) ∧
  ∃ r h', StoreMain.deepMerge 3 merge_heap (VRef 0) (VRef 2) = Some (r, h') ∧
          merge_heap `prefix_of` h' ∧
          merged coalesce 3 merge_heap h' (VRef 0) (VRef 2) r.
Proof.
  split; [compute_it |]. split; [compute_it |]. split; [simpl; lia |]. split; [simpl; lia |].
  destruct (StoreMain.deepMerge 3 merge_heap (VRef 0) (VRef 2)) as [[r h'] |] eqn:E;
    [| by vm_compute in E].
  exists r, h'. split; [done |].
  apply (main_deepMerge_result 3 merge_heap (VRef 0) (VRef 2) r h').
  - compute_it.
  - compute_it.
  - simpl; lia.
  - simpl; lia.
  - exact E.
Defined.

(** X20.  Where no object has an own key that a prototype defines as well,
    both versions of [deepMerge] return when plain objects nest at most [n]
    deep under one of the two arguments: a call stack of more than [n]
    frames is enough, whatever the other argument is. *)
Theorem deepMerge_returns_on_finite_depth n fuel h a b :
  heap_closed h → data_heap h → value_ok h a → value_ok h b →
  shallow n h a ∨ shallow n h b → n < fuel →
  is_Some (deepMerge fuel h a b) ∧ is_Some (StoreMain.deepMerge fuel h a b).
Proof.
  intros Hc _ Ha Hb Hs Hf. split.
  - by apply (deepMerge_total n fuel h).
  - by apply (main_deepMerge_total n fuel h).
Qed.

Lemma deepMerge_returns_on_finite_depth_witness :
  heap_closed merge_heap ∧ data_heap merge_heap ∧ shallow 2 merge_heap (VRef 2) ∧
  is_Some (deepMerge 3 merge_heap (VRef 0) (VRef 2)) ∧
  is_Some (StoreMain.deepMerge 3 merge_heap (VRef 0) (VRef 2)).
Proof.
  split; [compute_it |]. split; [compute_it |]. split; [compute_it |].
  apply (deepMerge_returns_on_finite_depth 2 3 merge_heap (VRef 0) (VRef 2)).
  - compute_it.
  - compute_it.
  - simpl; lia.
  - simpl; lia.
  - right. compute_it.
  - lia.
Defined.

(** X21.  Where no object has an own key that a prototype defines as well
    and the patch holds no [null] and no [undefined] at the places the
    merge takes from it, the two versions of [deepMerge] build the same
    result, object for object. *)
Theorem deepMerge_versions_agree_without_nulls n h a b x :
  heap_closed h → data_heap h → value_ok h a → value_ok h b →
  no_nulls n h a b →
  deepMerge n h a b = Some x → StoreMain.deepMerge (S n) h a b = Some x.
Proof. intros Hc _ Ha Hb Hnn Hm. by apply (deepMerge_agree n h). Qed.

Lemma deepMerge_versions_agree_without_nulls_witness :
  heap_closed patch_heap ∧ data_heap patch_heap ∧ no_nulls 3 patch_heap (VRef 0) (VRef 2) ∧
  ∃ x, deepMerge 3 patch_heap (VRef 0) (VRef 2) = Some x ∧
       StoreMain.deepMerge 4 patch_heap (VRef 0) (VRef 2) = Some x.
Proof.
  split; [compute_it |]. split; [compute_it |]. split; [compute_it |].
  destruct (deepMerge 3 patch_heap (VRef 0) (VRef 2)) as [x |] eqn:E;
    [| by vm_compute in E].
  exists x. split; [done |].
  apply (deepMerge_versions_agree_without_nulls 3 patch_heap (VRef 0) (VRef 2) x).
  - compute_it.
  - compute_it.
  - simpl; lia.
  - simpl; lia.
  - compute_it.
  - exact E.
Defined.

(** X22.  Where no object has an own key that a prototype defines as well,
    for a key of the patch that holds [null] or [undefined]: the worker's
    [deepMerge] stores that value, the main thread's keeps the property of
    [a]. *)
Theorem deepMerge_null_in_patch n m h a b k r h1 r' h2 :
  heap_closed h → data_heap h → value_ok h a → value_ok h b →
  isObject h a = true → isObject h b = true →
  k ∈ own_keys h b → nullish (get_prop h b (KStr k)) = true →
  deepMerge n h a b = Some (r, h1) →
  StoreMain.deepMerge m h a b = Some (r', h2) →
  get_prop h1 r (KStr k) = get_prop h b (KStr k) ∧
  get_prop h2 r' (KStr k) = get_prop h a (KStr k).
Proof.
  intros Hc _ Ha Hb Hoa Hob Hk Hnull Hw Hm.
  assert (Hno : isObject h (get_prop h b (KStr k)) = false).
  { by destruct (get_prop h b (KStr k)). }
  destruct (deepMerge_spec n h h a b r h1 Hc Ha Hb ltac:(done) Hw) as [_ Hs1].
  destruct (main_deepMerge_spec m h h a b r' h2 Hc Ha Hb ltac:(done) Hm) as [_ Hs2].
  specialize (Hs1 h1 ltac:(done)). specialize (Hs2 h2 ltac:(done)).
  destruct n as [| n]; [done |]. destruct m as [| m]; [done |].
  cbn [merged] in Hs1, Hs2. rewrite Hoa, Hob in Hs1, Hs2. cbn [andb] in Hs1, Hs2.
  destruct Hs1 as (_ & _ & Hs1). destruct Hs2 as (_ & _ & Hs2).
  destruct (Hs1 k) as [_ H1]. destruct (Hs2 k) as [_ H2]. cbv zeta in H1, H2.
  rewrite decide_True in H1, H2 by done.
  rewrite Hno, andb_false_r in H1, H2. split; [done |].
  rewrite H2. unfold coalesce. by rewrite Hnull.
Qed.

Lemma deepMerge_null_in_patch_witness :
  heap_closed merge_heap ∧ data_heap merge_heap ∧
  "b"%string ∈ own_keys merge_heap (VRef 2) ∧
  nullish (get_prop merge_heap (VRef 2) (KStr "b")) = true ∧
  ∃ r h1 r' h2,
    deepMerge 3 merge_heap (VRef 0) (VRef 2) = Some (r, h1) ∧
    StoreMain.deepMerge 3 merge_heap (VRef 0) (VRef 2) = Some (r', h2) ∧
    get_prop h1 r (KStr "b") = get_prop merge_heap (VRef 2) (KStr "b") ∧
    get_prop h2 r' (KStr "b") = get_prop merge_heap (VRef 0) (KStr "b").
Proof.
  split; [compute_it |]. split; [compute_it |]. split; [compute_it |].
  split; [by vm_compute |].
  destruct (deepMerge 3 merge_heap (VRef 0) (VRef 2)) as [[r h1] |] eqn:E1;
    [| by vm_compute in E1].
  destruct (StoreMain.deepMerge 3 merge_heap (VRef 0) (VRef 2)) as [[r' h2] |] eqn:E2;
    [| by vm_compute in E2].
  exists r, h1, r', h2. split; [done |]. split; [done |].
  apply (deepMerge_null_in_patch 3 3 merge_heap (VRef 0) (VRef 2) "b" r h1 r' h2).
  - compute_it.
  - compute_it.
  - simpl; lia.
  - simpl; lia.
  - by vm_compute.
  - by vm_compute.
  - compute_it.
  - by vm_compute.
  - exact E1.
  - exact E2.
Defined.

(** X23.  The [op:add] case, for a path whose segments are array indices or
    names that no prototype defines, and an item as a message brings it: no
    object that existed is changed; an array at the path that holds the
    item already stays the same array; an array that does not is replaced
    by a new one, its slots (a hole read as [undefined]) followed by the
    item; anything else at the path, a missing value included, is replaced
    by the array of the item alone.  In every case the path then holds an
    array with the item in it. *)
Theorem op_add_adds_once h s path item :
  heap_closed h → value_ok h s → value_ok h item →
  data_path path → arrives h item →
  let r := op_add h s path item in
  h `prefix_of` r.2 ∧
  match elems_of h (getAtPath h s path) with
  | Some es =>
      if decide (Some item ∈ es) then getAtPath r.2 r.1 path = getAtPath h s path
      else elems_of r.2 (getAtPath r.2 r.1 path) = Some (dense es ++ [Some item])
  | None => elems_of r.2 (getAtPath r.2 r.1 path) = Some [Some item]
  end ∧
  ∃ es', elems_of r.2 (getAtPath r.2 r.1 path) = Some es' ∧ Some item ∈ es'.
Proof.
  intros Hc Hs Hitem Hdata _ r.
  destruct (op_add_keeps h s path item Hc Hs Hitem) as (Hp & _ & _).
  pose proof (op_add_spec h s path item Hc Hs Hitem Hdata) as Hcase.
  fold r in Hp, Hcase. split; [done |]. split; [done |].
  destruct (elems_of h (getAtPath h s path)) as [es |] eqn:Ees.
  - destruct (decide (Some item ∈ es)) as [Hin | Hin].
    + exists es. split; [| done]. rewrite Hcase, <- Ees.
      apply elems_of_prefix; [done | by apply get_parts_ok].
    + eexists. split; [exact Hcase |]. apply elem_of_app. right. by left.
  - eexists. split; [exact Hcase |]. by left.
Qed.

Lemma op_add_adds_once_witness :
  heap_closed sample_heap ∧ value_ok sample_heap (VRef 1) ∧ value_ok sample_heap (VNum 4) ∧
  data_path "a" ∧ arrives sample_heap (VNum 4) ∧
  let r := op_add sample_heap (VRef 1) "a" (VNum 4) in
  sample_heap `prefix_of` r.2 ∧
  match elems_of sample_heap (getAtPath sample_heap (VRef 1) "a") with
  | Some es =>
      if decide (Some (VNum 4) ∈ es)
      then getAtPath r.2 r.1 "a" = getAtPath sample_heap (VRef 1) "a"
      else elems_of r.2 (getAtPath r.2 r.1 "a") = Some (dense es ++ [Some (VNum 4)])
  | None => elems_of r.2 (getAtPath r.2 r.1 "a") = Some [Some (VNum 4)]
  end ∧
  ∃ es', elems_of r.2 (getAtPath r.2 r.1 "a") = Some es' ∧ Some (VNum 4) ∈ es'.
Proof.
  split; [compute_it |]. split; [simpl; lia |]. split; [done |].
  split; [compute_it |]. split; [done |].
  apply (op_add_adds_once sample_heap (VRef 1) "a" (VNum 4)).
  - compute_it.
  - simpl; lia.
  - done.
  - compute_it.
  - done.
Defined.

(** X24.  A second [op:add] at the same path, which is made of array
    indices and of names that no prototype defines.  With a primitive item
    (a number, a string, a boolean, [null]) it leaves the array at the path
    as it is: the item is found and the same array is stored again.  With
    an object it appends once more: every message brings a clone of its
    own, which no array holds yet, so the array that the first [op:add]
    left gets the second clone as a further element. *)
Theorem op_add_twice h s path item :
  heap_closed h → value_ok h s → value_ok h item → data_path path →
  let r1 := op_add h s path item in
  ((∀ l, item ≠ VRef l) →
   let r2 := op_add r1.2 r1.1 path item in
   getAtPath r2.2 r2.1 path = getAtPath r1.2 r1.1 path) ∧
  (∀ h2 l2 es1,
     r1.2 `prefix_of` h2 → heap_closed h2 → value_ok h2 (VRef l2) → arrives h2 (VRef l2) →
     elems_of r1.2 (getAtPath r1.2 r1.1 path) = Some es1 →
     let r2 := op_add h2 r1.1 path (VRef l2) in
     elems_of r2.2 (getAtPath r2.2 r2.1 path) = Some (dense es1 ++ [Some (VRef l2)])).
Proof.
  intros Hc Hs Hitem Hdata r1.
  destruct (op_add_keeps h s path item Hc Hs Hitem) as (Hp & Hc1 & Hv1).
  pose proof (op_add_spec h s path item Hc Hs Hitem Hdata) as Hcase.
  fold r1 in Hp, Hc1, Hv1, Hcase. split.
  - intros _ r2.
    assert (Hin : ∃ es', elems_of r1.2 (getAtPath r1.2 r1.1 path) = Some es' ∧ Some item ∈ es').
    { destruct (elems_of h (getAtPath h s path)) as [es |] eqn:Ees.
      - destruct (decide (Some item ∈ es)) as [Hin | Hin].
        + exists es. split; [| done]. rewrite Hcase, <- Ees.
          apply elems_of_prefix; [done | by apply get_parts_ok].
        + eexists. split; [exact Hcase |]. apply elem_of_app. right. by left.
      - eexists. split; [exact Hcase |]. by left. }
    destruct Hin as (es' & Hes' & Hin).
    assert (Hitem1 : value_ok r1.2 item)
      by (eapply value_ok_mono; [by apply prefix_length | done]).
    pose proof (op_add_spec r1.2 r1.1 path item Hc1 Hv1 Hitem1 Hdata) as Hcase2.
    fold r2 in Hcase2. rewrite Hes' in Hcase2. by rewrite decide_True in Hcase2.
  - intros h2 l2 es1 Hp2 Hc2 Hl2 Harr Hes1 r2.
    assert (Hv2 : value_ok h2 r1.1)
      by (eapply value_ok_mono; [by apply prefix_length | done]).
    pose proof (op_add_spec h2 r1.1 path (VRef l2) Hc2 Hv2 Hl2 Hdata) as Hcase2.
    fold r2 in Hcase2.
    assert (Hsame : getAtPath h2 r1.1 path = getAtPath r1.2 r1.1 path)
      by (by apply get_parts_prefix).
    assert (Hes2 : elems_of h2 (getAtPath h2 r1.1 path) = Some es1).
    { rewrite Hsame, <- Hes1. apply elems_of_prefix; [done | by apply get_parts_ok]. }
    rewrite Hes2 in Hcase2. rewrite decide_False in Hcase2; [done |].
    by eapply arrives_not_held.
Qed.

(** The state [{a: [1, 2, 3]}] and, at address 2, the clone of an item [{}]
    that a message brings. *)
Definition clone_heap : list object := sample_heap ++ [OObj ∅].

Lemma op_add_twice_witness :
  heap_closed clone_heap ∧ value_ok clone_heap (VRef 1) ∧ value_ok clone_heap (VNum 4) ∧
  data_path "a" ∧
  let r1 := op_add clone_heap (VRef 1) "a" (VNum 4) in
  ((∀ l, VNum 4 ≠ VRef l) →
   let r2 := op_add r1.2 r1.1 "a" (VNum 4) in
   getAtPath r2.2 r2.1 "a" = getAtPath r1.2 r1.1 "a") ∧
  (∀ h2 l2 es1,
     r1.2 `prefix_of` h2 → heap_closed h2 → value_ok h2 (VRef l2) → arrives h2 (VRef l2) →
     elems_of r1.2 (getAtPath r1.2 r1.1 "a") = Some es1 →
     let r2 := op_add h2 r1.1 "a" (VRef l2) in
     elems_of r2.2 (getAtPath r2.2 r2.1 "a") = Some (dense es1 ++ [Some (VRef l2)])).
Proof.
  split; [compute_it |]. split; [simpl; lia |]. split; [done |]. split; [compute_it |].
  apply (op_add_twice clone_heap (VRef 1) "a" (VNum 4)).
  - compute_it.
  - simpl; lia.
  - done.
  - compute_it.
Defined.

(** Two [op:add] messages with the item [{}]: the array [[1, 2, 3]] at
    ["a"] ends with both clones. *)
Example op_add_object_twice :
  let r1 := op_add clone_heap (VRef 1) "a" (VRef 2) in
  let h2 := r1.2 ++ [OObj ∅] in
  let r2 := op_add h2 r1.1 "a" (VRef (length r1.2)) in
  arrives clone_heap (VRef 2) ∧ arrives h2 (VRef (length r1.2)) ∧
  elems_of r2.2 (getAtPath r2.2 r2.1 "a")
  = Some [Some (VNum 1); Some (VNum 2); Some (VNum 3); Some (VRef 2); Some (VRef (length r1.2))].
Proof. split; [compute_it |]. split; [compute_it |]. by vm_compute. Qed.

(** X25.  The [op:remove] case, for a path whose segments are array indices
    or names that no prototype defines, and an item as a message brings it:
    no object that existed is changed; an array at the path is replaced by
    a new array of its elements other than the item, in their order and
    without the holes; anything else at the path is stored again as it is.
    No array at the path holds the item afterwards. *)
Theorem op_remove_removes_all h s path item :
  heap_closed h → value_ok h s → data_path path → arrives h item →
  let r := op_remove h s path item in
  h `prefix_of` r.2 ∧
  match elems_of h (getAtPath h s path) with
  | Some es =>
      elems_of r.2 (getAtPath r.2 r.1 path)
      = Some (Some <$> filter (λ x, x ≠ item) (omap id es))
  | None => getAtPath r.2 r.1 path = getAtPath h s path
  end ∧
  ∀ es', elems_of r.2 (getAtPath r.2 r.1 path) = Some es' → Some item ∉ es'.
Proof.
  intros Hc Hs Hdata _ r.
  destruct (op_remove_keeps h s path item Hc Hs) as (Hp & _ & _).
  pose proof (op_remove_spec h s path item Hc Hs Hdata) as Hcase.
  fold r in Hp, Hcase. split; [done |]. split; [done |].
  intros es' Hes'.
  destruct (elems_of h (getAtPath h s path)) as [es |] eqn:Ees.
  - rewrite Hcase in Hes'. injection Hes' as <-.
    intros Hin. apply list_elem_of_fmap in Hin as (v & [= <-] & Hin).
    by apply list_elem_of_filter in Hin as [Hne _].
  - rewrite Hcase in Hes'.
    rewrite (elems_of_prefix h) in Hes'; [congruence | done | by apply get_parts_ok].
Qed.

Lemma op_remove_removes_all_witness :
  heap_closed sample_heap ∧ value_ok sample_heap (VRef 1) ∧
  data_path "a" ∧ arrives sample_heap (VNum 2) ∧
  let r := op_remove sample_heap (VRef 1) "a" (VNum 2) in
  sample_heap `prefix_of` r.2 ∧
  match elems_of sample_heap (getAtPath sample_heap (VRef 1) "a") with
  | Some es =>
      elems_of r.2 (getAtPath r.2 r.1 "a")
      = Some (Some <$> filter (λ x, x ≠ VNum 2) (omap id es))
  | None => getAtPath r.2 r.1 "a" = getAtPath sample_heap (VRef 1) "a"
  end ∧
  ∀ es', elems_of r.2 (getAtPath r.2 r.1 "a") = Some es' → Some (VNum 2) ∉ es'.
Proof.
  split; [compute_it |]. split; [simpl; lia |]. split; [compute_it |]. split; [done |].
  apply (op_remove_removes_all sample_heap (VRef 1) "a" (VNum 2)).
  - compute_it.
  - simpl; lia.
  - compute_it.
  - done.
Defined.

(** X26.  Whatever messages ([get], [op:*]) the worker handles and whenever
    the timer of [persistSave] elapses, with any persist setting and
    whatever [JSON.stringify] yields: the worker stays well formed, what it
    posted stays posted, and it changes no object that existed, so that a
    state posted earlier, or any other value of the old heap, reads the same
    at every path afterwards. *)
Theorem worker_keeps_posted_states stringify fuel evs w :
  worker_ok w → Forall (event_ok (mem w)) evs →
  let w' := foldl (λ w ev, handle stringify fuel ev w) w evs in
  worker_ok w' ∧ posted w `prefix_of` posted w' ∧
  ∀ s path, value_ok (mem w) s →
            getAtPath (mem w') s path = getAtPath (mem w) s path.
Proof.
  intros Hw Hall w'.
  destruct (handle_all_keep stringify fuel evs w Hw Hall) as (Hw' & Hp & Hpp).
  fold w' in Hw', Hp, Hpp. split; [done |]. split; [done |].
  intros s path Hs. apply get_parts_prefix; [by destruct Hw | done | done].
Qed.

Lemma worker_keeps_posted_states_witness :
  let evs := [EMessage (MAdd "a" (VNum 4)); ETimer; EMessage (MDel "a.0"); EMessage MGet] in
  worker_ok sample_worker ∧ Forall (event_ok (mem sample_worker)) evs ∧
  let w' := foldl (λ w ev, handle sample_stringify 5 ev w) sample_worker evs in
  worker_ok w' ∧ posted sample_worker `prefix_of` posted w' ∧
  ∀ s path, value_ok (mem sample_worker) s →
            getAtPath (mem w') s path = getAtPath (mem sample_worker) s path.
Proof.
  split; [compute_it |]. split; [compute_it |].
  apply (worker_keeps_posted_states sample_stringify 5
           [EMessage (MAdd "a" (VNum 4)); ETimer; EMessage (MDel "a.0"); EMessage MGet]
           sample_worker).
  - compute_it.
  - compute_it.
Defined.

(** X27.  With a delay ([debounceMs > 0]) the listener saves nothing while it
    handles messages: each message gets one answer, a state or an error, no
    [persist:ls:set] is posted and [idbSave] is not called; the timer that
    is pending after a message that posted a state is the one for the
    current state, so that when it elapses [run] is called once, for the
    latest state. *)
Theorem persistSave_debounces stringify fuel p msgs w :
  PERSIST w = Some p → (0 < debounceMs p)%N →
  let w' := foldl (λ w msg, on_message stringify fuel msg w) w msgs in
  idb_saves w' = idb_saves w ∧
  ∃ answers, posted w' = posted w ++ answers ∧ length answers = length msgs ∧
    Forall answer answers ∧
    ((∃ s, OState s ∈ answers) →
     persistTimer w' = Some (STATE w', p, NAME w) ∧
     fire_timer stringify w' = run stringify (STATE w', p, NAME w) (with_timer None w')).
Proof.
  intros Ep Hd w'.
  destruct (on_messages_debounced stringify fuel p msgs w Ep Hd)
    as (Hidb & _ & _ & answers & Hposted & Hlen & Hans & Hlast).
  fold w' in Hidb, Hposted, Hlast. split; [done |]. exists answers.
  split; [done |]. split; [done |]. split; [done |].
  intros [s Hs]. rewrite decide_False in Hlast.
  - split; [done |]. unfold fire_timer. by rewrite Hlast.
  - intros Hall. rewrite Forall_forall in Hall. by specialize (Hall _ Hs).
Qed.

Lemma persistSave_debounces_witness :
  let msgs := [MSet "a.0" (VNum 9); MGet] in
  PERSIST sample_worker = Some sample_persist ∧ (0 < debounceMs sample_persist)%N ∧
  let w' := foldl (λ w msg, on_message sample_stringify 5 msg w) sample_worker msgs in
  idb_saves w' = idb_saves sample_worker ∧
  ∃ answers, posted w' = posted sample_worker ++ answers ∧ length answers = length msgs ∧
    Forall answer answers ∧
    ((∃ s, OState s ∈ answers) →
     persistTimer w' = Some (STATE w', sample_persist, NAME sample_worker) ∧
     fire_timer sample_stringify w'
     = run sample_stringify (STATE w', sample_persist, NAME sample_worker)
           (with_timer None w')).
Proof.
  split; [done |]. split; [done |].
  by apply (persistSave_debounces sample_stringify 5 sample_persist
              [MSet "a.0" (VNum 9); MGet] sample_worker).
Defined.

(** X28.  [pickKeys] looks at the first segment of each path only: where no
    first segment is a name that a prototype defines, for a value that is
    neither [null] nor [undefined] it returns a new object whose keys are
    the first segments, each holding the whole property of that name (for
    an object: the same reference); what follows the first dot of a path
    makes no difference. *)
Theorem pickKeys_takes_top_level_keys h obj paths :
  value_ok h obj → nullish obj = false →
  Forall (λ k, k ∉ inherited_names) (tops paths) →
  (∃ fs, pickKeys h obj paths = Some (VRef (length h), h ++ [OObj fs]) ∧
         ∀ k, fs !! k = if decide (k ∈ tops paths)
                        then Some (get_prop h obj (key_of_name k)) else None) ∧
  pickKeys h obj (tops paths) = pickKeys h obj paths.
Proof.
  intros Hobj Hnn _.
  destruct (pickKeys_spec h obj paths Hobj Hnn) as (fs & E & Hfs).
  split; [by exists fs |].
  destruct (pickKeys_spec h obj (tops paths) Hobj Hnn) as (fs' & E' & Hfs').
  rewrite E, E'. assert (Heq : fs' = fs); [| by rewrite Heq].
  apply map_eq. intros k. rewrite Hfs, Hfs'.
  assert (Htops : tops (tops paths) = tops paths).
  { unfold tops. rewrite <- list_fmap_compose. apply list_fmap_ext. intros _ path _.
    simpl. unfold top_of at 1.
    assert (Hnd : no_dot (top_of path)).
    { unfold top_of. pose proof (split_dot_no_dot path) as Hall.
      pose proof (split_dot_nonempty path) as Hne.
      destruct (split_dot path) as [| q qs]; [done |]. by inversion Hall. }
    by rewrite (split_dot_one _ Hnd). }
  by rewrite Htops.
Qed.

Lemma pickKeys_takes_top_level_keys_witness :
  value_ok merge_heap (VRef 0) ∧ nullish (VRef 0) = false ∧
  Forall (λ k, k ∉ inherited_names) (tops ["n.x"; "a"]%string) ∧
  (∃ fs, pickKeys merge_heap (VRef 0) ["n.x"; "a"]%string
         = Some (VRef (length merge_heap), merge_heap ++ [OObj fs]) ∧
         ∀ k, fs !! k = if decide (k ∈ tops ["n.x"; "a"]%string)
                        then Some (get_prop merge_heap (VRef 0) (key_of_name k)) else None) ∧
  pickKeys merge_heap (VRef 0) (tops ["n.x"; "a"]%string)
  = pickKeys merge_heap (VRef 0) ["n.x"; "a"]%string.
Proof.
  split; [simpl; lia |]. split; [done |]. split; [compute_it |].
  apply (pickKeys_takes_top_level_keys merge_heap (VRef 0) ["n.x"; "a"]%string).
  - simpl; lia.
  - done.
  - compute_it.
Defined.

End MergeFacts.

Section StorageKey.
Import Store StoreWorker.
Local Open Scope string_scope.

Lemma append_empty_r (s : string) : s ++ "" = s.
Proof.
  induction s as [| c s IH]; [done |].
  change (String c (s ++ "") = String c s). by rewrite IH.
Qed.

Lemma show_inj n m : show n = show m → n = m.
Proof.
  intros E.
  assert (H : key_of_segment (prop_name (KNum n)) = key_of_segment (prop_name (KNum m)))
    by (exact (f_equal key_of_segment E)).
  rewrite !key_of_prop_name in H. by injection H.
Qed.

(** X29.  With the same namespace and name, two persist settings give the
    same storage key exactly when their versions agree, an absent version
    and the version [0] counting as the same. *)
Theorem storageKeyFor_tells_versions_apart p q name :
  namespace p = namespace q →
  storageKeyFor p name = storageKeyFor q name ↔ effective_version p = effective_version q.
Proof.
  intros Hns. unfold storageKeyFor, effective_version. rewrite Hns.
  split.
  - intros E. do 3 apply String.app_inj in E.
    destruct (version p) as [n |], (version q) as [m |];
      repeat case_decide; try done.
    apply (String.app_inj ":v") in E. by rewrite (show_inj _ _ E).
  - intros E.
    destruct (version p) as [n |], (version q) as [m |];
      repeat case_decide; try done. by injection E as ->.
Qed.

Lemma storageKeyFor_tells_versions_apart_witness :
  let q := {| backend := Auto; namespace := Some "shop"%string; version := Some 0%N;
              debounceMs := 0; keys := None |} in
  namespace sample_persist = namespace q ∧
  (storageKeyFor sample_persist "cart" = storageKeyFor q "cart"
   ↔ effective_version sample_persist = effective_version q).
Proof.
  split; [done |].
  by apply (storageKeyFor_tells_versions_apart sample_persist
              {| backend := Auto; namespace := Some "shop"%string; version := Some 0%N;
                 debounceMs := 0; keys := None |} "cart").
Defined.

(** X30.  The key does not tell a version from a name that ends like one: a
    store without a version whose name is [name ++ ":v" ++ v] has the key
    of the store [name] with version [v]. *)
Theorem storageKeyFor_name_can_look_like_version p name v :
  version p = None → v ≠ 0%N →
  storageKeyFor p (name ++ ":v" ++ show v)
  = storageKeyFor {| backend := backend p; namespace := namespace p; version := Some v;
                     debounceMs := debounceMs p; keys := keys p |} name.
Proof.
  intros Hv Hne. unfold storageKeyFor. rewrite Hv. cbn [namespace version].
  rewrite decide_False by done. by rewrite append_empty_r.
Qed.

Lemma storageKeyFor_name_can_look_like_version_witness :
  version sample_persist = None ∧ 2%N ≠ 0%N ∧
  storageKeyFor sample_persist ("cart" ++ ":v" ++ show 2)%string
  = storageKeyFor {| backend := backend sample_persist; namespace := namespace sample_persist;
                     version := Some 2%N; debounceMs := debounceMs sample_persist;
                     keys := keys sample_persist |} "cart".
Proof.
  split; [done |]. split; [done |].
  by apply (storageKeyFor_name_can_look_like_version sample_persist "cart" 2%N).
Defined.

End StorageKey.

(* ===================================================================== *)
(** * Ports and workers: subscriptions and the proxy of a worker         *)
(* ===================================================================== *)

Section PortsMore.
Import Store Ports.

Local Ltac compute_it := apply (bool_decide_unpack _); vm_compute; exact I.

Lemma for_each_callbacks port v cs : ∀ st,
  (∀ c, c ∈ cs → Callback c ∈ default [] (listeners st !! port)) →
  for_each port (Callback <$> cs) v st = with_calls (λ l, l ++ delivered v cs) st.
Proof.
  induction cs as [| c cs IH]; intros st Hin; simpl.
  - unfold with_calls, delivered. simpl. rewrite app_nil_r. by destruct st.
  - rewrite decide_True by (apply Hin; by left).
    rewrite IH by (intros c' Hc'; simpl; apply Hin; by right).
    unfold with_calls, delivered. simpl. by rewrite <- app_assoc.
Qed.

Lemma emitPort_plain port v cs st :
  subscribers port cs st →
  emitPort port v st =
    {| listeners := listeners st; last := <[port := v]> (last st);
       workers := workers st; off_cell := off_cell st;
       next_wrapper := next_wrapper st;
       calls := calls st ++ delivered v cs;
       posted := posted st ++ map (λ w, (w, port, v)) (workers st) |}.
Proof.
  intros Hs. unfold emitPort, subscribers in *. cbv zeta.
  change (listeners (with_last _ st)) with (listeners st).
  rewrite Hs. rewrite for_each_callbacks.
  - done.
  - intros c Hc. change (listeners (with_last _ st)) with (listeners st).
    rewrite Hs. by apply list_elem_of_fmap_2.
Qed.

Lemma times_called_app c st l :
  times_called c (with_calls (λ cs, cs ++ l) st) =
  times_called c st + length (filter (λ x, x.1 = c) l).
Proof. unfold times_called. simpl. by rewrite filter_app, length_app. Qed.

Lemma count_delivered c v cs :
  length (filter (λ x : nat * value, x.1 = c) (delivered v cs)) =
  length (filter (λ x, x = c) cs).
Proof.
  induction cs as [| d cs IH]; simpl; [done |].
  destruct (decide (d = c)) as [-> | Hne].
  - rewrite !filter_cons_True by done. simpl. by rewrite IH.
  - rewrite !filter_cons_False by done. done.
Qed.


Lemma count_NoDup (c : nat) cs :
  NoDup cs → length (filter (λ x, x = c) cs) = if decide (c ∈ cs) then 1 else 0.
Proof.
  induction 1 as [| d cs Hd Hnd IH]; [done |].
  destruct (decide (d = c)) as [-> | Hne].
  - rewrite filter_cons_True by done. simpl. rewrite IH.
    rewrite decide_False by done. rewrite decide_True by (by left). done.
  - rewrite filter_cons_False by done. rewrite IH.
    destruct (decide (c ∈ cs)) as [Hin | Hin].
    + rewrite decide_True by (by right). done.
    + rewrite decide_False; [done |]. intros [-> | ?]%elem_of_cons; done.
Qed.

Lemma set_add_callbacks c cs :
  set_add (Callback c) (Callback <$> cs) =
  Callback <$> (if decide (c ∈ cs) then cs else cs ++ [c]).
Proof.
  unfold set_add. destruct (decide (c ∈ cs)) as [Hin | Hin].
  - rewrite decide_True; [done |]. by apply list_elem_of_fmap_2.
  - rewrite decide_False; [by rewrite fmap_app |].
    intros (d & [= <-] & Hd)%list_elem_of_fmap. done.
Qed.

Lemma set_delete_callbacks c cs :
  set_delete (Callback c) (Callback <$> cs) = Callback <$> filter (λ x, x ≠ c) cs.
Proof.
  unfold set_delete. induction cs as [| d cs IH]; [done |].
  rewrite fmap_cons, !filter_cons, IH.
  destruct (decide (d = c)) as [-> | Hne].
  - rewrite decide_False by (intros H; by apply H).
    rewrite decide_False by (intros H; by apply H). done.
  - rewrite decide_True by congruence. rewrite decide_True by done. done.
Qed.

Lemma onPort_subscribers port c replay cs st :
  subscribers port cs st →
  subscribers port (if decide (c ∈ cs) then cs else cs ++ [c])
    (onPort port (Callback c) replay st).2.
Proof.
  unfold subscribers, onPort. intros Hs. cbv zeta. cbn [snd].
  match goal with |- context [match replay with true => ?a | false => ?b end] =>
    assert (Hl : listeners (match replay with true => a | false => b end) = listeners b) end.
  { destruct replay; [| done]. by case_match. }
  rewrite Hl. cbn [listeners with_listeners].
  rewrite lookup_insert_eq. simpl.
  destruct (listeners st !! port) as [s |] eqn:E; simpl in *.
  - rewrite E. simpl. rewrite Hs. apply set_add_callbacks.
  - rewrite lookup_insert_eq. simpl. destruct cs; [| done]. done.
Qed.

Lemma onPort_times_called_other port c d replay st :
  d ≠ c → times_called d (onPort port (Callback c) replay st).2 = times_called d st.
Proof.
  intros Hne. unfold onPort. cbv zeta. cbn [snd].
  destruct replay; [| done]. case_match; [| done].
  simpl. rewrite times_called_app. simpl. rewrite filter_cons_False by (simpl; congruence).
  simpl. unfold times_called. simpl. lia.
Qed.

Lemma call_off_subscribers port c cs st :
  subscribers port cs st →
  subscribers port (filter (λ x, x ≠ c) cs) (call_off (port, Callback c) st).
Proof.
  unfold subscribers, call_off. intros Hs. simpl.
  destruct (listeners st !! port) as [s |] eqn:E; simpl in *.
  - rewrite lookup_insert_eq. simpl. rewrite Hs. apply set_delete_callbacks.
  - rewrite E. simpl. destruct cs; [done | done].
Qed.

Lemma times_called_emit port v c cs st :
  subscribers port cs st →
  times_called c (emitPort port v st) =
  times_called c st + length (filter (λ x, x = c) cs).
Proof.
  intros Hs. rewrite (emitPort_plain port v cs st Hs).
  unfold times_called. simpl. by rewrite filter_app, length_app, count_delivered.
Qed.

(** X2.  A callback subscribed with [onPort] is invoked once by every later
    [emitPort] on the port, also when it was subscribed already (the
    listeners are a [Set]); after the function [onPort] returned has been
    called, it is not invoked any more, and the other subscribers are
    served as before. *)
Theorem onPort_subscribes_until_off port c replay cs st :
  subscribers port cs st → NoDup cs →
  let off := (onPort port (Callback c) replay st).1 in
  let st1 := (onPort port (Callback c) replay st).2 in
  (∀ v, times_called c (emitPort port v st1) = S (times_called c st1)) ∧
  (∀ v, times_called c (emitPort port v (call_off off st1)) = times_called c st1) ∧
  (∀ v d, d ≠ c →
     times_called d (emitPort port v (call_off off st1)) =
     times_called d (emitPort port v st)).
Proof.
  intros Hs Hnd off st1.
  pose proof (onPort_subscribers port c replay cs st Hs) as Hs1. fold st1 in Hs1.
  set (cs1 := if decide (c ∈ cs) then cs else cs ++ [c]) in *.
  assert (Hnd1 : NoDup cs1).
  { subst cs1. case_decide; [done |]. apply NoDup_app. repeat split; [done | | apply NoDup_singleton].
    intros x Hx ->%list_elem_of_singleton. done. }
  assert (Hin1 : c ∈ cs1).
  { subst cs1. case_decide; [done |]. apply elem_of_app. right. by left. }
  assert (Hoff : off = (port, Callback c)) by done.
  pose proof (call_off_subscribers port c cs1 st1 Hs1) as Hs2. rewrite <- Hoff in Hs2.
  assert (Hc2 : ∀ d, times_called d (call_off off st1) = times_called d st1) by done.
  split; [| split].
  - intros v. rewrite (times_called_emit port v c cs1 st1 Hs1).
    rewrite count_NoDup by done. rewrite decide_True by done. lia.
  - intros v. rewrite (times_called_emit port v c _ _ Hs2), Hc2.
    rewrite count_NoDup by (by apply NoDup_filter).
    rewrite decide_False; [lia |]. intros [H _]%list_elem_of_filter. done.
  - intros v d Hne. rewrite (times_called_emit port v d _ _ Hs2), Hc2.
    rewrite (times_called_emit port v d cs st Hs).
    subst st1. rewrite onPort_times_called_other by done. f_equal.
    rewrite list_filter_filter. subst cs1. case_decide.
    + f_equal. apply list_filter_iff. intros x. naive_solver.
    + rewrite filter_app. rewrite (filter_cons_False _ c) by naive_solver.
      rewrite filter_nil, app_nil_r. f_equal. apply list_filter_iff. intros x. naive_solver.
Qed.

Lemma onPort_subscribes_until_off_witness :
  subscribers "p" [1; 2] sample_bus ∧ NoDup [1; 2] ∧
  let off := (onPort "p" (Callback 3) true sample_bus).1 in
  let st1 := (onPort "p" (Callback 3) true sample_bus).2 in
  (∀ v, times_called 3 (emitPort "p" v st1) = S (times_called 3 st1)) ∧
  (∀ v, times_called 3 (emitPort "p" v (call_off off st1)) = times_called 3 st1) ∧
  (∀ v d, d ≠ 3 →
     times_called d (emitPort "p" v (call_off off st1)) =
     times_called d (emitPort "p" v sample_bus)).
Proof.
  split; [by vm_compute |]. split; [compute_it |].
  apply (onPort_subscribes_until_off "p" 3 true [1; 2] sample_bus).
  - by vm_compute.
  - compute_it.
Defined.

Lemma invoke_callback_calls c v st : calls (invoke (Callback c) v st) = calls st ++ [(c, v)].
Proof. done. Qed.

(** X3.  A callback subscribed after a value was emitted is called at once
    with that value when [replay] is set (the default), and not called when
    it is not, or when the port never emitted. *)
Theorem onPort_replays_last_value port c v st :
  calls (onPort port (Callback c) true (emitPort port v st)).2
    = calls (emitPort port v st) ++ [(c, v)] ∧
  calls (onPort port (Callback c) false (emitPort port v st)).2
    = calls (emitPort port v st) ∧
  (last st !! port = None → calls (onPort port (Callback c) true st).2 = calls st).
Proof.
  split; [| split].
  - unfold onPort. cbv zeta. cbn [snd last with_listeners].
    assert (Hl : last (emitPort port v st) !! port = Some v).
    { unfold emitPort. simpl. rewrite for_each_last. simpl. apply lookup_insert_eq. }
    rewrite Hl. done.
  - done.
  - intros Hl. unfold onPort. cbv zeta. cbn [snd last with_listeners]. by rewrite Hl.
Qed.

Lemma emits_plain_nobody port vs : ∀ st,
  subscribers port [] st →
  calls (foldl (λ s x, emitPort port x s) st vs) = calls st ∧
  subscribers port [] (foldl (λ s x, emitPort port x s) st vs).
Proof.
  induction vs as [| v vs IH]; intros st Hs; simpl; [done |].
  pose proof (emitPort_plain port v [] st Hs) as He.
  destruct (IH (emitPort port v st)) as [Hc Hs'].
  { rewrite He. exact Hs. }
  split; [| done]. rewrite Hc, He. simpl. by rewrite app_nil_r.
Qed.

Lemma oncePort_fresh port c st :
  last st !! port = None → default [] (listeners st !! port) = [] →
  let w := next_wrapper st in
  let W := OnceWrapper w (Callback c) in
  oncePort port (Callback c) st =
    {| listeners := <[port := [W]]> (listeners st); last := last st;
       workers := workers st; off_cell := <[w := Some (port, W)]> (off_cell st);
       next_wrapper := S w; calls := calls st; posted := posted st |}.
Proof.
  intros Hl Hs. cbv zeta. unfold oncePort, onPort. cbv zeta.
  cbn [last with_listeners listeners with_off_cell with_last]. rewrite Hl.
  unfold with_off_cell, with_listeners. cbn.
  rewrite insert_insert_eq. f_equal.
  destruct (listeners st !! port) as [s |] eqn:E; simpl in Hs.
  - subst s. rewrite E. done.
  - rewrite lookup_insert_eq. simpl. by rewrite insert_insert_eq.
Qed.

Lemma emit_runs_wrapper port c v w st :
  listeners st !! port = Some [OnceWrapper w (Callback c)] →
  off_cell st !! w = Some (Some (port, OnceWrapper w (Callback c))) →
  calls (emitPort port v st) = calls st ++ [(c, v)] ∧
  listeners (emitPort port v st) !! port = Some [].
Proof.
  intros Hl Ho. unfold emitPort. cbv zeta.
  change (listeners (with_last _ st)) with (listeners st). rewrite Hl.
  change (default [] (Some ?x)) with x.
  cbn [for_each]. change (listeners (with_last _ st)) with (listeners st).
  rewrite Hl. change (default [] (Some ?x)) with x. rewrite decide_True by (by left).
  cbn [invoke]. change (off_cell (with_last _ st)) with (off_cell st). rewrite Ho.
  assert (Hd : set_delete (OnceWrapper w (Callback c)) [OnceWrapper w (Callback c)] = []).
  { unfold set_delete. rewrite filter_cons_False by (intros H; by apply H).
    by rewrite filter_nil. }
  unfold call_off.
  cbn [fst snd with_listeners with_last listeners calls with_calls with_posted for_each invoke].
  rewrite Hl, Hd. by rewrite lookup_insert_eq.
Qed.

(** X4.  [oncePort] on a port that has no last value and no other listener:
    the callback is invoked with the first value emitted and with no later
    one, and the wrapper is gone from the listeners. *)
Theorem oncePort_fires_on_first_emit_only port c v vs st :
  last st !! port = None → subscribers port [] st →
  let st' := foldl (λ s x, emitPort port x s) (oncePort port (Callback c) st) (v :: vs) in
  calls st' = calls st ++ [(c, v)] ∧ subscribers port [] st'.
Proof.
  intros Hl Hs. cbv zeta. simpl.
  set (st1 := emitPort port v (oncePort port (Callback c) st)).
  assert (H1 : calls st1 = calls st ++ [(c, v)] ∧ subscribers port [] st1).
  { subst st1. rewrite (oncePort_fresh port c st Hl Hs).
    match goal with |- context [emitPort port v ?s] =>
      destruct (emit_runs_wrapper port c v (next_wrapper st) s) as [Hc Hls] end.
    - cbn [listeners]. apply lookup_insert_eq.
    - cbn [off_cell]. apply lookup_insert_eq.
    - split; [exact Hc |]. unfold subscribers. by rewrite Hls. }
  destruct H1 as [Hc1 Hs1].
  destruct (emits_plain_nobody port vs st1 Hs1) as [Hc Hs']. by rewrite Hc.
Qed.

Lemma oncePort_fires_on_first_emit_only_witness :
  last Ports.empty !! "p"%string = None ∧ subscribers "p" [] Ports.empty ∧
  let st' := foldl (λ s x, emitPort "p" x s) (oncePort "p" (Callback 1) Ports.empty)
                   [VNum 1; VNum 2] in
  calls st' = calls Ports.empty ++ [(1, VNum 1)] ∧ subscribers "p" [] st'.
Proof.
  split; [by vm_compute |]. split; [by vm_compute |].
  apply (oncePort_fires_on_first_emit_only "p" 1 (VNum 1) [VNum 2] Ports.empty).
  - by vm_compute.
  - by vm_compute.
Defined.

(** X1.  The complete effect of [emitPort] on a port whose listeners are plain
    callbacks. *)
Theorem emitPort_delivers_in_order port v cs st :
  subscribers port cs st →
  emitPort port v st =
    {| listeners := listeners st; last := <[port := v]> (last st);
       workers := workers st; off_cell := off_cell st;
       next_wrapper := next_wrapper st;
       calls := calls st ++ delivered v cs;
       posted := posted st ++ map (λ w, (w, port, v)) (workers st) |}.
Proof. apply emitPort_plain. Qed.

Lemma emitPort_delivers_in_order_witness :
  subscribers "p" [1; 2] sample_bus ∧
  emitPort "p" (VNum 7) sample_bus =
    {| listeners := listeners sample_bus; last := <["p"%string := VNum 7]> (last sample_bus);
       workers := workers sample_bus; off_cell := off_cell sample_bus;
       next_wrapper := next_wrapper sample_bus;
       calls := calls sample_bus ++ delivered (VNum 7) [1; 2];
       posted := posted sample_bus ++ map (λ w, (w, "p"%string, VNum 7)) (workers sample_bus) |}.
Proof.
  split; [by vm_compute |].
  apply (emitPort_delivers_in_order "p" (VNum 7) [1; 2] sample_bus). by vm_compute.
Defined.

End PortsMore.

Section WorkersFacts.
Import Store Workers.

Local Ltac compute_it := apply (bool_decide_unpack _); vm_compute; exact I.

Lemma invoke_workers l data st : Ports.workers (Ports.invoke l data st) = Ports.workers st.
Proof.
  revert st. induction l as [c | w cb IH]; intros st; simpl; [done |].
  rewrite IH. by destruct (Ports.off_cell st !! w) as [[off |] |].
Qed.

Lemma invoke_posted l data st : Ports.posted (Ports.invoke l data st) = Ports.posted st.
Proof.
  revert st. induction l as [c | w cb IH]; intros st; simpl; [done |].
  rewrite IH. by destruct (Ports.off_cell st !! w) as [[off |] |].
Qed.

Lemma for_each_workers port todo data st :
  Ports.workers (Ports.for_each port todo data st) = Ports.workers st.
Proof.
  revert st. induction todo as [| l rest IH]; intros st; simpl; [done |].
  case_decide; rewrite IH; [apply invoke_workers | done].
Qed.

Lemma for_each_posted port todo data st :
  Ports.posted (Ports.for_each port todo data st) = Ports.posted st.
Proof.
  revert st. induction todo as [| l rest IH]; intros st; simpl; [done |].
  case_decide; rewrite IH; [apply invoke_posted | done].
Qed.

Lemma emitPort_workers port v b : Ports.workers (Ports.emitPort port v b) = Ports.workers b.
Proof. unfold Ports.emitPort. simpl. by rewrite for_each_workers. Qed.

Lemma emitPort_posted port v b :
  Ports.posted (Ports.emitPort port v b) =
  Ports.posted b ++ map (λ w, (w, port, v)) (Ports.workers b).
Proof.
  unfold Ports.emitPort. simpl. by rewrite for_each_posted, for_each_workers.
Qed.

(** X5.  A second [registerWorker] under a name that is taken does nothing:
    the worker passed is neither attached to the bus nor sent its init
    message, and the name still denotes the first worker. *)
Theorem registerWorker_name_taken name w w' init init' st :
  registerWorker name w' init' (registerWorker name w init st) =
  registerWorker name w init st.
Proof.
  unfold registerWorker at 2 3. destruct (registry st !! name) as [w0 |] eqn:E.
  - unfold registerWorker. by rewrite E.
  - unfold registerWorker, registerWorker_resume. cbn [registry].
    by rewrite lookup_insert_eq.
Qed.

(** X7.  [terminateWorker] frees the name, so that [sendToWorker] does
    nothing any more, but the worker stays attached to the port bus: every
    later [emitPort] still posts to it. *)
Theorem terminateWorker_stays_attached name w st :
  registry st !! name = Some w → w ∈ Ports.workers (bus st) →
  let st' := terminateWorker name st in
  registry st' !! name = None ∧ terminated st' = terminated st ++ [w] ∧
  (∀ d, sendToWorker name d st' = st') ∧
  ∀ port v, (w, port, v) ∈ Ports.posted (Ports.emitPort port v (bus st')).
Proof.
  intros Hr Hw. cbv zeta. unfold terminateWorker. rewrite Hr.
  split; [apply lookup_delete_eq |]. split; [done |]. split.
  - intros d. unfold sendToWorker. cbn [registry]. by rewrite lookup_delete_eq.
  - intros port v. cbn [bus]. rewrite emitPort_posted. apply elem_of_app. right.
    apply (list_elem_of_fmap_2 (λ w, (w, port, v))). done.
Qed.

Lemma terminateWorker_stays_attached_witness :
  registry one_worker !! "w"%string = Some 1 ∧ 1 ∈ Ports.workers (bus one_worker) ∧
  let st' := terminateWorker "w" one_worker in
  registry st' !! "w"%string = None ∧ terminated st' = terminated one_worker ++ [1] ∧
  (∀ d, sendToWorker "w" d st' = st') ∧
  ∀ port v, (1, port, v) ∈ Ports.posted (Ports.emitPort port v (bus st')).
Proof.
  split; [by vm_compute |]. split; [compute_it |].
  apply (terminateWorker_stays_attached "w" 1 one_worker).
  - by vm_compute.
  - compute_it.
Defined.

Lemma attach_workers w b :
  Ports.workers (Ports._attachWorker w b) =
  if decide (w ∈ Ports.workers b) then Ports.workers b else Ports.workers b ++ [w].
Proof. done. Qed.

Lemma filter_absent (w : nat) l : w ∉ l → filter (λ x, x = w) l = [].
Proof.
  induction l as [| x l IH]; intros Hw; [done |].
  rewrite filter_cons_False by (intros ->; apply Hw; by left).
  apply IH. intros Hin. apply Hw. by right.
Qed.

Lemma registerWorker_fresh name w init st :
  registry st !! name = None →
  registerWorker name w init st =
    {| bus := Ports._attachWorker w (bus st);
       registry := <[name := w]> (registry st);
       proxies := proxies st ++ [w];
       sent := if decide (init = VUndef) then sent st else sent st ++ [(w, init)];
       terminated := terminated st |}.
Proof. intros Hr. unfold registerWorker. by rewrite Hr. Qed.

Lemma attached_stays w l b :
  w ∈ Ports.workers b → w ∈ Ports.workers (Ports._attachWorker l b).
Proof.
  intros Hw. rewrite attach_workers. case_decide; [done |]. apply elem_of_app. by left.
Qed.

Lemma attached_now w b : w ∈ Ports.workers (Ports._attachWorker w b).
Proof. rewrite attach_workers. case_decide; [done |]. apply elem_of_app. right. by left. Qed.

Lemma registered_once name w init st :
  registry st !! name = None → w ∉ proxies st →
  filter (λ x, x = w) (proxies (registerWorker name w init st)) = [w].
Proof.
  intros Hr Hp. unfold registerWorker, registerWorker_resume. rewrite Hr. cbn [proxies].
  rewrite filter_app, filter_cons_True, filter_nil by done.
  by rewrite filter_absent.
Qed.

(** X8.  A message [{ port, payload }] of a registered worker is emitted on
    the bus: the payload becomes the snapshot of the port, and it is posted
    to every attached worker, the sender included. *)
Theorem worker_message_is_sent_back h name w init data port st :
  registry st !! name = None → w ∉ proxies st →
  opt_get h data (KStr "port") = VStr port →
  let payload := opt_get h data (KStr "payload") in
  let st' := on_message h w data (registerWorker name w init st) in
  Ports.getPortSnapshot port (bus st') = payload ∧
  Ports.posted (bus st') =
    Ports.posted (bus st) ++
    map (λ x, (x, port, payload)) (Ports.workers (Ports._attachWorker w (bus st))) ∧
  (w, port, payload) ∈ Ports.posted (bus st').
Proof.
  intros Hr Hp Hport. cbv zeta. unfold on_message. cbn [bus].
  rewrite registered_once by done. change (Nat.iter (length [w]) ?f ?x) with (f x).
  unfold proxy. rewrite Hport. unfold registerWorker, registerWorker_resume.
  rewrite Hr. cbn [bus].
  split; [apply emitPort_snapshot |].
  rewrite emitPort_posted. split; [done |].
  apply elem_of_app. right.
  apply (list_elem_of_fmap_2 (λ x, (x, port, opt_get h data (KStr "payload")))).
  rewrite attach_workers. case_decide; [done |]. apply elem_of_app. right. by left.
Qed.

Lemma worker_message_is_sent_back_witness :
  registry Workers.empty !! "w"%string = None ∧ (1 ∉ proxies Workers.empty) ∧
  opt_get message_heap (VRef 0) (KStr "port") = VStr "p" ∧
  let payload := opt_get message_heap (VRef 0) (KStr "payload") in
  let st' := on_message message_heap 1 (VRef 0) (registerWorker "w" 1 VUndef Workers.empty) in
  Ports.getPortSnapshot "p" (bus st') = payload ∧
  Ports.posted (bus st') =
    Ports.posted (bus Workers.empty) ++
    map (λ x, (x, "p"%string, payload))
        (Ports.workers (Ports._attachWorker 1 (bus Workers.empty))) ∧
  (1, "p"%string, payload) ∈ Ports.posted (bus st').
Proof.
  split; [by vm_compute |]. split; [compute_it |]. split; [by vm_compute |].
  apply (worker_message_is_sent_back message_heap "w" 1 VUndef (VRef 0) "p" Workers.empty).
  - by vm_compute.
  - compute_it.
  - by vm_compute.
Defined.

(** X9.  A [Worker] registered under two names has two [message] listeners:
    each of its port messages is emitted twice, so that every subscriber of
    the port is called twice with the payload. *)
Theorem worker_under_two_names_emits_twice h n1 n2 w i1 i2 data port cs st :
  registry st !! n1 = None → registry st !! n2 = None → n1 ≠ n2 →
  w ∉ proxies st →
  opt_get h data (KStr "port") = VStr port →
  subscribers port cs (bus st) →
  let payload := opt_get h data (KStr "payload") in
  let st' := on_message h w data (registerWorker n2 w i2 (registerWorker n1 w i1 st)) in
  Ports.calls (bus st') =
    Ports.calls (bus st) ++ delivered payload cs ++ delivered payload cs.
Proof.
  intros H1 H2 Hne Hp Hport Hs. cbv zeta.
  rewrite (registerWorker_fresh n1 w i1 st H1).
  rewrite registerWorker_fresh by (cbn [registry]; by rewrite lookup_insert_ne).
  unfold on_message. cbn [bus proxies].
  rewrite !filter_app, !filter_cons_True, !filter_nil by done.
  rewrite filter_absent by done.
  change (Nat.iter (length (([] ++ [w]) ++ [w])) ?f ?x) with (f (f x)).
  unfold proxy. rewrite Hport.
  match goal with |- context [Ports.emitPort port ?v (Ports.emitPort port ?v ?b)] =>
    rewrite (emitPort_plain port v cs b) by exact Hs end.
  match goal with |- context [Ports.emitPort port ?v ?s] =>
    rewrite (emitPort_plain port v cs s) by exact Hs end.
  cbn [Ports.calls]. by rewrite app_assoc.
Qed.

Lemma worker_under_two_names_emits_twice_witness :
  let st := {| bus := sample_bus; registry := ∅; proxies := []; sent := [];
               terminated := [] |} in
  registry st !! "w1"%string = None ∧ registry st !! "w2"%string = None ∧
  "w1"%string ≠ "w2"%string ∧ (1 ∉ proxies st) ∧
  opt_get message_heap (VRef 0) (KStr "port") = VStr "p" ∧
  subscribers "p" [1; 2] (bus st) ∧
  let payload := opt_get message_heap (VRef 0) (KStr "payload") in
  let st' := on_message message_heap 1 (VRef 0)
               (registerWorker "w2" 1 VUndef (registerWorker "w1" 1 VUndef st)) in
  Ports.calls (bus st') =
    Ports.calls (bus st) ++ delivered payload [1; 2] ++ delivered payload [1; 2].
Proof.
  split; [by vm_compute |]. split; [by vm_compute |]. split; [done |].
  split; [compute_it |]. split; [by vm_compute |]. split; [by vm_compute |].
  apply (worker_under_two_names_emits_twice message_heap "w1" "w2" 1 VUndef VUndef (VRef 0) "p"
           [1; 2]
           {| bus := sample_bus; registry := ∅; proxies := []; sent := []; terminated := [] |}).
  - by vm_compute.
  - by vm_compute.
  - done.
  - compute_it.
  - by vm_compute.
  - by vm_compute.
Defined.
(** X6.  Two calls of [registerWorker] with a factory under the same free
    name that overlap (the second is made while the first awaits its
    factory, so that both find the name free) both go through: both workers
    get a [message] listener and their init message and are attached to the
    bus, and the name denotes the second.  [terminateWorker] then ends the
    second only; the first stays attached and has no name. *)
Theorem registerWorker_overlapping_calls name w1 w2 i1 i2 st :
  registry st !! name = None → w1 ≠ w2 → (∀ n, registry st !! n ≠ Some w1) →
  let st' := registerWorker_resume name w2 i2 (registerWorker_resume name w1 i1 st) in
  registry st' = <[name := w2]> (registry st) ∧
  proxies st' = proxies st ++ [w1; w2] ∧
  w1 ∈ Ports.workers (bus st') ∧ w2 ∈ Ports.workers (bus st') ∧
  (∀ n, registry st' !! n ≠ Some w1) ∧
  terminated (terminateWorker name st') = terminated st ++ [w2] ∧
  w1 ∈ Ports.workers (bus (terminateWorker name st')).
Proof.
  intros Hr Hne Hnone. cbv zeta. unfold registerWorker_resume. cbn [registry proxies bus].
  split; [by rewrite insert_insert_eq |]. split; [by rewrite <- app_assoc |].
  split; [by apply attached_stays, attached_now |]. split; [apply attached_now |].
  split.
  - intros n. destruct (decide (n = name)) as [-> | Hn].
    + rewrite lookup_insert_eq. congruence.
    + rewrite !lookup_insert_ne by done. apply Hnone.
  - unfold terminateWorker. cbn [registry]. rewrite lookup_insert_eq.
    cbn [terminated bus]. split; [done |]. by apply attached_stays, attached_now.
Qed.

Lemma registerWorker_overlapping_calls_witness :
  registry Workers.empty !! "w"%string = None ∧ 1 ≠ 2 ∧
  (∀ n, registry Workers.empty !! n ≠ Some 1) ∧
  let st' := registerWorker_resume "w" 2 VUndef
               (registerWorker_resume "w" 1 VUndef Workers.empty) in
  registry st' = <["w"%string := 2]> (registry Workers.empty) ∧
  proxies st' = proxies Workers.empty ++ [1; 2] ∧
  1 ∈ Ports.workers (bus st') ∧ 2 ∈ Ports.workers (bus st') ∧
  (∀ n, registry st' !! n ≠ Some 1) ∧
  terminated (terminateWorker "w" st') = terminated Workers.empty ++ [2] ∧
  1 ∈ Ports.workers (bus (terminateWorker "w" st')).
Proof.
  assert (Hnone : ∀ n, registry Workers.empty !! n ≠ Some 1)
    by (intros n; cbn [registry Workers.empty]; by rewrite lookup_empty).
  split; [by vm_compute |]. split; [done |]. split; [exact Hnone |].
  apply (registerWorker_overlapping_calls "w" 1 2 VUndef VUndef Workers.empty).
  - by vm_compute.
  - done.
  - exact Hnone.
Defined.

End WorkersFacts.

(* ===================================================================== *)
(** * Tasks: the order of a batch, dependencies and conditions           *)
(* ===================================================================== *)

Section TasksMore.
Import Tasks.

Local Ltac compute_it := apply (bool_decide_unpack _); vm_compute; exact I.

(** ** Registration and the order of a batch *)

Lemma insert_sorted_perm t l : insert_sorted t l ≡ₚ t :: l.
Proof.
  induction l as [| u l IH]; simpl; [done |].
  case_decide; [done |]. rewrite IH. apply perm_swap.
Qed.

Lemma sort_by_priority_perm l : sort_by_priority l ≡ₚ l.
Proof.
  induction l as [| u l IH]; simpl; [done |]. by rewrite insert_sorted_perm, IH.
Qed.

Lemma insert_sorted_sorted t l :
  StronglySorted (λ x y, (prio x ≤ prio y)%Z) l →
  StronglySorted (λ x y, (prio x ≤ prio y)%Z) (insert_sorted t l).
Proof.
  induction 1 as [| u l Hl IH Hu]; simpl.
  - repeat constructor.
  - case_decide as Hle.
    + constructor; [by constructor |]. constructor; [done |].
      eapply Forall_impl; [exact Hu |]. intros x Hx. simpl in Hx. lia.
    + constructor; [exact IH |].
      rewrite insert_sorted_perm. constructor; [lia | done].
Qed.

Lemma sort_by_priority_sorted l :
  StronglySorted (λ x y, (prio x ≤ prio y)%Z) (sort_by_priority l).
Proof.
  induction l as [| u l IH]; simpl; [constructor |]. by apply insert_sorted_sorted.
Qed.

Lemma insert_sorted_stable z t l :
  filter (λ t, prio t = z) (insert_sorted t l) = filter (λ t, prio t = z) (t :: l).
Proof.
  induction l as [| u l IH]; cbn [insert_sorted]; [done |].
  case_decide as Hle; [done |].
  rewrite (filter_cons _ u), IH, !filter_cons.
  destruct (decide (prio t = z)) as [Ht | Ht]; [| done].
  rewrite !decide_False by lia. done.
Qed.

Lemma sort_by_priority_stable l : stable_by_priority (sort_by_priority l) l.
Proof.
  split; [apply sort_by_priority_perm |]. split; [apply sort_by_priority_sorted |].
  intros z. induction l as [| u l IH]; cbn [sort_by_priority foldr]; [done |].
  fold (sort_by_priority l). rewrite insert_sorted_stable, !filter_cons, IH. done.
Qed.

Lemma lookup_task_NoDup t l :
  NoDup (map id l) → t ∈ l → lookup_task (id t) l = Some t.
Proof.
  unfold lookup_task. induction l as [| u l IH]; intros Hnd Hin; [by apply elem_of_nil in Hin |].
  simpl in *. apply NoDup_cons in Hnd as [Hu Hnd].
  apply elem_of_cons in Hin as [-> | Hin].
  - by rewrite bool_decide_eq_true_2.
  - rewrite bool_decide_eq_false_2; [by apply IH |].
    intros Heq. apply Hu. rewrite Heq. apply list_elem_of_fmap_2. done.
Qed.

Lemma runSingle_plain fuel t st :
  lookup_task (id t) (tasks st) = Some t → deps t = [] → when t = None →
  id t ∉ done st → cache st !! id t = None →
  ∃ st', runSingle (S fuel) (id t) st = Some (length (promises st), st') ∧
         log st' = log st ++ [EvRun (id t)] ∧ tasks st' = tasks st ∧
         done st' = done st ∧
         ∀ j, j ≠ id t → cache st' !! j = cache st !! j.
Proof.
  intros Hl Hdeps Hwhen Hd Hc. rewrite runSingle_S. cbv zeta.
  rewrite decide_False by done. rewrite Hc. unfold start.
  cbn [tasks with_cache new_promise snd with_promises]. rewrite Hl, Hdeps.
  unfold after_deps. rewrite Hwhen. cbn [mbind option_bind].
  eexists. split; [reflexivity |].
  rewrite await_log, attempt_log, await_tasks, attempt_tasks, await_done, attempt_done.
  split; [done |]. split; [done |]. split; [done |].
  intros j Hj. rewrite await_cache.
  match goal with |- cache (attempt ?t ?a ?p ?s) !! j = _ =>
    destruct (attempt_cache t a p s) as [-> | ->] end.
  - cbn [cache with_cache]. by rewrite lookup_insert_ne.
  - rewrite lookup_delete_ne by done. cbn [cache with_cache]. by rewrite lookup_insert_ne.
Qed.

Lemma run_each_plain fuel l : ∀ st,
  NoDup (map id l) →
  (∀ t, t ∈ l → lookup_task (id t) (tasks st) = Some t ∧ deps t = [] ∧ when t = None ∧
                (id t ∉ done st) ∧ cache st !! id t = None) →
  ∃ ps st', run_each (runSingle (S fuel)) (map id l) st = Some (ps, st') ∧
            log st' = log st ++ map (λ t, EvRun (id t)) l.
Proof.
  induction l as [| t l IH]; intros st Hnd Hall; cbn [map run_each].
  - eexists _, _. split; [done |]. by rewrite app_nil_r.
  - cbn [map] in Hnd. apply NoDup_cons in Hnd as [Ht Hnd].
    destruct (Hall t) as (Hl & Hdeps & Hwhen & Hd & Hc); [by left |].
    destruct (runSingle_plain fuel t st Hl Hdeps Hwhen Hd Hc)
      as (st1 & -> & Hlog & Htasks & Hdone & Hcache).
    cbn [mbind option_bind].
    destruct (IH st1 Hnd) as (ps & st' & -> & Hlog').
    { intros u Hu. destruct (Hall u) as (Hl' & Hdeps' & Hwhen' & Hd' & Hc'); [by right |].
      rewrite Htasks, Hdone. repeat split; try done.
      rewrite Hcache; [done |]. intros Heq. apply Ht. rewrite <- Heq.
      by apply list_elem_of_fmap_2. }
    cbn [mbind option_bind]. eexists _, _. split; [done |].
    rewrite Hlog', Hlog, <- app_assoc. done.
Qed.

(** X12.  When the tasks of the stage have no dependencies and no condition
    and are neither done nor in flight, [runTasks] invokes the [run] of
    each of them once, before it returns, by ascending priority and, among
    equal priorities, in the order of registration; no [run] of another
    stage is invoked. *)
Theorem runTasks_starts_by_priority stg st :
  running st = false → NoDup (map id (tasks st)) → startable stg st →
  let order := sort_by_priority (List.filter (in_stage stg) (tasks st)) in
  ∃ p st',
    runTasks stg st = Some (p, st') ∧
    log st' = log st ++ map (λ t, EvRun (id t)) order ∧
    stable_by_priority order (List.filter (in_stage stg) (tasks st)).
Proof.
  intros Hrun Hnd Hall. cbv zeta. rewrite runTasks_unfold. cbv zeta. rewrite Hrun.
  set (order := sort_by_priority (List.filter (in_stage stg) (tasks st))).
  assert (Hin : ∀ t, t ∈ order → t ∈ tasks st ∧ in_stage stg t = true).
  { intros t Ht. apply list_elem_of_In, sort_by_priority_In, filter_In in Ht as [Ht Hs].
    split; [by apply list_elem_of_In | done]. }
  assert (Hnd' : NoDup (map id order)).
  { subst order. rewrite sort_by_priority_perm.
    eapply sublist_NoDup; [exact Hnd |].
    apply fmap_sublist. clear. induction (tasks st) as [| u l IH]; simpl; [done |].
    destruct (in_stage stg u); [by constructor | by constructor]. }
  destruct (run_each_plain (length (tasks st)) order
              (with_running true (new_promise st).2) Hnd') as (ps & st2 & -> & Hlog).
  { intros t Ht. destruct (Hin t Ht) as [Ht1 Ht2].
    destruct (Hall t Ht1 Ht2) as (H1 & H2 & H3 & H4). repeat split; try done.
    by apply (lookup_task_NoDup t (tasks st)). }
  cbn [mbind option_bind]. eexists _, _. split; [reflexivity |].
  split; [| apply sort_by_priority_stable].
  rewrite await_log, promise_all_log, Hlog. done.
Qed.

Lemma runTasks_starts_by_priority_witness :
  let st := registerTask task_base (registerTask task_late init) in
  running st = false ∧ NoDup (map id (tasks st)) ∧ startable None st ∧
  let order := sort_by_priority (List.filter (in_stage None) (tasks st)) in
  ∃ p st',
    runTasks None st = Some (p, st') ∧
    log st' = log st ++ map (λ t, EvRun (id t)) order ∧
    stable_by_priority order (List.filter (in_stage None) (tasks st)).
Proof.
  assert (Hs : startable None (registerTask task_base (registerTask task_late init))).
  { intros t Ht _. assert (Hc : t = task_late ∨ t = task_base).
    { vm_compute in Ht. apply elem_of_cons in Ht as [-> | Ht]; [by left |].
      apply elem_of_cons in Ht as [-> | Ht]; [by right |]. by apply elem_of_nil in Ht. }
    destruct Hc as [-> | ->]; by vm_compute. }
  split; [done |]. split; [compute_it |]. split; [exact Hs |].
  apply (runTasks_starts_by_priority None (registerTask task_base (registerTask task_late init))).
  - done.
  - compute_it.
  - exact Hs.
Defined.

(** X10.  [registerTask] is what [lookup] finds under the task's id; the
    tasks registered under other ids are found as before, and registering
    an id again replaces the task in place, without adding an entry. *)
Theorem registerTask_lookup t st :
  lookup_task (id t) (tasks (registerTask t st)) = Some t ∧
  (∀ j, j ≠ id t →
     lookup_task j (tasks (registerTask t st)) = lookup_task j (tasks st)) ∧
  map id (tasks (registerTask t st)) =
    (if decide (id t ∈ map id (tasks st)) then map id (tasks st)
     else map id (tasks st) ++ [id t]).
Proof.
  unfold registerTask, lookup_task. cbn [tasks with_tasks].
  induction (tasks st) as [| u l (IH1 & IH2 & IH3)]; simpl.
  - rewrite bool_decide_eq_true_2 by done. split; [done |]. split; [| done].
    intros j Hj. by rewrite bool_decide_eq_false_2 by done.
  - destruct (decide (id u = id t)) as [Heq | Hne]; simpl.
    + rewrite bool_decide_eq_true_2 by done. split; [done |]. split.
      * intros j Hj. rewrite !bool_decide_eq_false_2 by congruence. done.
      * rewrite decide_True by (rewrite Heq; by left). by rewrite Heq.
    + rewrite bool_decide_eq_false_2 by done. split; [done |]. split.
      * intros j Hj. destruct (bool_decide (id u = j)); [done | by apply IH2].
      * rewrite IH3. destruct (decide (id t ∈ map id l)) as [Hin | Hin].
        -- rewrite decide_True by (by right). done.
        -- rewrite decide_False; [done |]. intros [? | ?]%elem_of_cons; done.
Qed.

(** X11.  [runTasks] returns a promise in every state: the calls of
    [runSingle] through [deps] end, also when the dependencies are cyclic,
    because a task is put in flight before its dependencies are looked
    at. *)
Theorem runTasks_always_returns stg st : ∃ p st', runTasks stg st = Some (p, st').
Proof. apply runTasks_total. Qed.

(** X17.  In every state reached with [resetTasks] called only while
    nothing was suspended, at most one execution of each task is
    suspended, and a task with a suspended execution is in flight and not
    done: calls of [runSingle] for a task in flight wait for the execution
    there is, they do not start another. *)
Theorem one_execution_per_task st :
  orderly st →
  NoDup (live_ids st) ∧
  ∀ i, i ∈ live_ids st → (i ∉ done st) ∧ is_Some (cache st !! i).
Proof. apply orderly_one_execution. Qed.

Lemma one_execution_per_task_witness :
  orderly mid_batch ∧
  NoDup (live_ids mid_batch) ∧
  ∀ i, i ∈ live_ids mid_batch → (i ∉ done mid_batch) ∧ is_Some (cache mid_batch !! i).
Proof.
  split; [apply mid_batch_orderly |].
  apply (one_execution_per_task mid_batch). apply mid_batch_orderly.
Defined.

(** ** Small batches, evaluated *)

(** One conversion step: the scheduler's functions are evaluated and the
    states are brought back to explicit records. *)
Ltac reduce_goal :=
  match goal with |- ?G =>
    let G1 := eval cbn [tasks done cache running promises remaining microtasks timers log
                    with_tasks with_done with_cache with_running with_promises with_remaining
                    with_microtasks with_timers with_log init registerTask map_set
                    new_promise fst snd enqueue
                    List.filter sort_by_priority foldr insert_sorted map length app
                    run_each mbind option_bind lookup_task find default from_option
                    lookup list_lookup insert list_insert
                    foldl await settle promise_all start after_deps
                    drain step resume Nat.sub] in G in
    let G2 := eval cbv [tasks done cache running promises remaining microtasks timers log
                    with_tasks with_done with_cache with_running with_promises with_remaining
                    with_microtasks with_timers with_log] in G1 in
    progress change G2
  end.

Ltac ev_with tac :=
  repeat first
    [ reduce_goal
    | progress unfold Datatypes.id
    | rewrite runSingle_S; cbv zeta
    | progress unfold start, after_deps, attempt, on_failure
    | rewrite lookup_empty
    | rewrite lookup_insert_eq
    | rewrite lookup_delete_eq
    | progress change (count_runs ?i []) with 0
    | rewrite count_runs_same
    | rewrite count_runs_other by congruence
    | rewrite bool_decide_eq_true_2 by done
    | rewrite bool_decide_eq_false_2 by congruence
    | rewrite lookup_insert_ne by congruence
    | rewrite decide_False by (first [done | congruence | apply not_elem_of_empty])
    | rewrite decide_True by (first [done | congruence])
    | progress tac ].

Ltac ev := ev_with idtac.

Lemma nothing_queued s :
  microtasks s = [] → timers s = [] → quiescent s ∧ ∀ fuel, drain fuel s = s.
Proof.
  intros Hm Ht. assert (Hs : step s = None) by (unfold step; by rewrite Hm, Ht).
  split; [done |]. intros [| fuel]; [done |]. simpl. by rewrite Hs.
Qed.

(** [evaluate E as H] evaluates the scheduler term [E] and leaves
    [H : E = v] with the value [v] in explicit form. *)
Tactic Notation "evaluate" constr(E) "as" ident(H) "with" tactic3(tac) :=
  eassert (H : E = _); [ev_with tac; reflexivity |].

Lemma drain_more n s fuel st :
  drain n st = s → microtasks s = [] → timers s = [] → n ≤ fuel → drain fuel st = s.
Proof.
  intros Hs Hm Ht Hf. replace fuel with (n + (fuel - n)) by lia.
  rewrite drain_add, Hs. by apply nothing_queued.
Qed.

(** A task that lists itself in [deps] is never run: [runSingle] finds
    the task in flight and waits for it. *)
Lemma self_dependency_blocks t stg :
  deps t = [id t] → in_stage stg t = true →
  ∃ p st1,
    runTasks stg (registerTask t init) = Some (p, st1) ∧
    quiescent st1 ∧ (∀ fuel, drain fuel st1 = st1) ∧
    log st1 = [] ∧ promises st1 !! p = Some (Pending []) ∧
    done st1 = ∅ ∧ running st1 = true.
Proof.
  intros Hdeps Hstage.
  evaluate (runTasks stg (registerTask t init)) as Hsync
    with (rewrite ?runTasks_unfold, ?Hstage, ?Hdeps; cbv zeta).
  eexists _, _. split; [exact Hsync |].
  match goal with |- quiescent ?s ∧ _ =>
    destruct (nothing_queued s) as [Hq Hd]; [done | done |] end.
  done.
Qed.

(** Two tasks that depend on each other: each finds the other in flight. *)
Lemma cyclic_dependencies_block a b :
  id a ≠ id b → deps a = [id b] → deps b = [id a] →
  ∃ p st1,
    runTasks None (registerTask b (registerTask a init)) = Some (p, st1) ∧
    quiescent st1 ∧ (∀ fuel, drain fuel st1 = st1) ∧
    log st1 = [] ∧ promises st1 !! p = Some (Pending []) ∧
    done st1 = ∅ ∧ running st1 = true.
Proof.
  intros Hne Ha Hb.
  destruct (decide (prio a ≤ prio b)%Z) as [Hle | Hgt].
  - evaluate (runTasks None (registerTask b (registerTask a init))) as Hsync
      with (rewrite ?runTasks_unfold, ?Ha, ?Hb; cbv zeta; unfold in_stage).
    eexists _, _. split; [exact Hsync |].
    match goal with |- quiescent ?s ∧ _ =>
      destruct (nothing_queued s) as [Hq Hd]; [done | done |] end.
    done.
  - evaluate (runTasks None (registerTask b (registerTask a init))) as Hsync
      with (rewrite ?runTasks_unfold, ?Ha, ?Hb; cbv zeta; unfold in_stage).
    eexists _, _. split; [exact Hsync |].
    match goal with |- quiescent ?s ∧ _ =>
      destruct (nothing_queued s) as [Hq Hd]; [done | done |] end.
    done.
Qed.

(** X14.  A cycle in [deps] blocks the batch for good.  A task that lists its
    own id, or two tasks that depend on each other: no [run] of them is
    invoked; when [runTasks] has returned nothing is left to execute, its
    promise stays pending, no task is done and [running] stays set, so that
    every later [runTasks] is refused. *)
Theorem dependency_cycles_block_the_batch :
  (∀ t stg, deps t = [id t] → in_stage stg t = true →
     ∃ p st1,
       runTasks stg (registerTask t init) = Some (p, st1) ∧
       quiescent st1 ∧ (∀ fuel, drain fuel st1 = st1) ∧
       log st1 = [] ∧ promises st1 !! p = Some (Pending []) ∧
       done st1 = ∅ ∧ running st1 = true) ∧
  (∀ a b, id a ≠ id b → deps a = [id b] → deps b = [id a] →
     ∃ p st1,
       runTasks None (registerTask b (registerTask a init)) = Some (p, st1) ∧
       quiescent st1 ∧ (∀ fuel, drain fuel st1 = st1) ∧
       log st1 = [] ∧ promises st1 !! p = Some (Pending []) ∧
       done st1 = ∅ ∧ running st1 = true).
Proof.
  split.
  - intros t stg. apply self_dependency_blocks.
  - intros a b. apply cyclic_dependencies_block.
Qed.

Lemma dependency_cycles_block_the_batch_witness :
  (∃ p st1,
     runTasks None (registerTask task_self init) = Some (p, st1) ∧
     quiescent st1 ∧ (∀ fuel, drain fuel st1 = st1) ∧
     log st1 = [] ∧ promises st1 !! p = Some (Pending []) ∧
     done st1 = ∅ ∧ running st1 = true) ∧
  (∃ p st1,
     runTasks None (registerTask task_pong (registerTask task_ping init)) = Some (p, st1) ∧
     quiescent st1 ∧ (∀ fuel, drain fuel st1 = st1) ∧
     log st1 = [] ∧ promises st1 !! p = Some (Pending []) ∧
     done st1 = ∅ ∧ running st1 = true).
Proof.
  destruct dependency_cycles_block_the_batch as [Hself Hcycle]. split.
  - by apply (Hself task_self None).
  - by apply (Hcycle task_ping task_pong).
Defined.

(** X15.  A task whose condition yields [false] is skipped: its [run] is not
    invoked, the batch is fulfilled, and the task is left neither done nor
    in flight, so that a later batch looks at it again. *)
Theorem false_condition_skips_the_task t stg :
  deps t = [] → when t = Some WFalse → in_stage stg t = true →
  ∃ p st1 s,
    runTasks stg (registerTask t init) = Some (p, st1) ∧
    (∀ fuel, 4 ≤ fuel → drain fuel st1 = s) ∧ quiescent s ∧
    log s = [] ∧ promises s !! p = Some Fulfilled ∧
    done s = ∅ ∧ cache s !! id t = None ∧ running s = false.
Proof.
  intros Hdeps Hwhen Hstage.
  evaluate (runTasks stg (registerTask t init)) as Hsync
    with (rewrite ?runTasks_unfold, ?Hstage, ?Hdeps, ?Hwhen; cbv zeta).
  match type of Hsync with _ = Some (_, ?s1) =>
    evaluate (drain 4 s1) as Hd with idtac end.
  eexists _, _, _. split; [exact Hsync |].
  split; [intros fuel Hf; by eapply drain_more |].
  split; [by apply nothing_queued |].
  cbn [log promises done cache running]. rewrite lookup_delete_eq. done.
Qed.

Lemma false_condition_skips_the_task_witness :
  deps (task_when WFalse) = [] ∧ when (task_when WFalse) = Some WFalse ∧
  in_stage None (task_when WFalse) = true ∧
  ∃ p st1 s,
    runTasks None (registerTask (task_when WFalse) init) = Some (p, st1) ∧
    (∀ fuel, 4 ≤ fuel → drain fuel st1 = s) ∧ quiescent s ∧
    log s = [] ∧ promises s !! p = Some Fulfilled ∧
    done s = ∅ ∧ cache s !! id (task_when WFalse) = None ∧ running s = false.
Proof.
  split; [done |]. split; [done |]. split; [done |].
  by apply (false_condition_skips_the_task (task_when WFalse) None).
Defined.

(** X16.  A condition that throws (or rejects), or that never yields: the
    task is not run, and the promise it is waited for with is never
    settled, so that the promise of [runTasks] stays pending and [running]
    stays set at every later point. *)
Theorem failing_condition_blocks_the_batch t stg :
  deps t = [] → (∃ e, when t = Some (WThrows e)) ∨ when t = Some WPending →
  in_stage stg t = true →
  ∃ p st1,
    runTasks stg (registerTask t init) = Some (p, st1) ∧
    ∀ fuel, log (drain fuel st1) = [] ∧
            promises (drain fuel st1) !! p = Some (Pending []) ∧
            done (drain fuel st1) = ∅ ∧ running (drain fuel st1) = true.
Proof.
  intros Hdeps [[e Hwhen] | Hwhen] Hstage.
  - evaluate (runTasks stg (registerTask t init)) as Hsync
      with (rewrite ?runTasks_unfold, ?Hstage, ?Hdeps, ?Hwhen; cbv zeta).
    match type of Hsync with _ = Some (_, ?s1) =>
      evaluate (drain 1 s1) as Hd with idtac end.
    eexists _, _. split; [exact Hsync |].
    intros [| fuel]; [done |].
    erewrite drain_more; [| exact Hd | done | done | lia]. done.
  - evaluate (runTasks stg (registerTask t init)) as Hsync
      with (rewrite ?runTasks_unfold, ?Hstage, ?Hdeps, ?Hwhen; cbv zeta).
    eexists _, _. split; [exact Hsync |].
    match goal with |- ∀ fuel, log (drain fuel ?s) = _ ∧ _ =>
      destruct (nothing_queued s) as [Hq Hstay]; [done | done |] end.
    intros fuel. rewrite Hstay. done.
Qed.

Lemma failing_condition_blocks_the_batch_witness :
  deps (task_when (WThrows "no")) = [] ∧
  ((∃ e, when (task_when (WThrows "no")) = Some (WThrows e)) ∨
   when (task_when (WThrows "no")) = Some WPending) ∧
  in_stage None (task_when (WThrows "no")) = true ∧
  ∃ p st1,
    runTasks None (registerTask (task_when (WThrows "no")) init) = Some (p, st1) ∧
    ∀ fuel, log (drain fuel st1) = [] ∧
            promises (drain fuel st1) !! p = Some (Pending []) ∧
            done (drain fuel st1) = ∅ ∧ running (drain fuel st1) = true.
Proof.
  split; [done |]. split; [left; by exists "no"%string |]. split; [done |].
  apply (failing_condition_blocks_the_batch (task_when (WThrows "no")) None).
  - done.
  - left. by exists "no"%string.
  - done.
Defined.

(** X13.  A dependency is run before the task that depends on it, whatever
    the priorities say: with [a] depending on [b] and both succeeding, the
    batch invokes the [run] of [b], then the [run] of [a], each once, marks
    both done and is fulfilled. *)
Theorem dependency_runs_first a b :
  id a ≠ id b → deps a = [id b] → deps b = [] → when a = None → when b = None →
  run a 0 = Returns → run b 0 = Returns →
  ∃ p st1 s,
    runTasks None (registerTask b (registerTask a init)) = Some (p, st1) ∧
    (∀ fuel, 12 ≤ fuel → drain fuel st1 = s) ∧ quiescent s ∧
    log s = [EvRun (id b); EvRun (id a)] ∧ promises s !! p = Some Fulfilled ∧
    id a ∈ done s ∧ id b ∈ done s ∧ running s = false.
Proof.
  intros Hne Ha Hb Hwa Hwb Hra Hrb.
  destruct (decide (prio a ≤ prio b)%Z) as [Hle | Hgt].
  - evaluate (runTasks None (registerTask b (registerTask a init))) as Hsync
      with (rewrite ?runTasks_unfold, ?Ha, ?Hb, ?Hwa, ?Hwb, ?Hra, ?Hrb; cbv zeta;
            unfold in_stage).
    match type of Hsync with _ = Some (_, ?s1) =>
      evaluate (drain 12 s1) as Hd with (rewrite ?Ha, ?Hb, ?Hwa, ?Hwb, ?Hra, ?Hrb) end.
    eexists _, _, _. split; [exact Hsync |].
    split; [intros fuel Hf; by eapply drain_more |].
    split; [by apply nothing_queued |].
    cbn [log promises done cache running]. clear Hsync Hd.
    repeat split; try done; set_solver.
  - evaluate (runTasks None (registerTask b (registerTask a init))) as Hsync
      with (rewrite ?runTasks_unfold, ?Ha, ?Hb, ?Hwa, ?Hwb, ?Hra, ?Hrb; cbv zeta;
            unfold in_stage).
    match type of Hsync with _ = Some (_, ?s1) =>
      evaluate (drain 12 s1) as Hd with (rewrite ?Ha, ?Hb, ?Hwa, ?Hwb, ?Hra, ?Hrb) end.
    eexists _, _, _. split; [exact Hsync |].
    split; [intros fuel Hf; by eapply drain_more |].
    split; [by apply nothing_queued |].
    cbn [log promises done cache running]. clear Hsync Hd.
    repeat split; try done; set_solver.
Qed.

Lemma dependency_runs_first_witness :
  id task_main ≠ id task_base ∧ deps task_main = [id task_base] ∧ deps task_base = [] ∧
  ∃ p st1 s,
    runTasks None (registerTask task_base (registerTask task_main init)) = Some (p, st1) ∧
    (∀ fuel, 12 ≤ fuel → drain fuel st1 = s) ∧ quiescent s ∧
    log s = [EvRun (id task_base); EvRun (id task_main)] ∧
    promises s !! p = Some Fulfilled ∧
    id task_main ∈ done s ∧ id task_base ∈ done s ∧ running s = false.
Proof.
  split; [done |]. split; [done |]. split; [done |].
  by apply (dependency_runs_first task_main task_base).
Defined.

End TasksMore.
